(** * Batch orchestration, recovery and verification of the SRT tools

    A shallow embedding of the parts of [srt_corrector.py],
    [srt_polisher.py], [srt_checker.py] and [srt_gui.py] that carry the
    record model, the transformation client, the response recovery
    parser, batch partitioning, merge and verification, and the diff
    engine, followed by the properties proved about them.

    Python strings are sequences of Unicode code points; they are modelled
    as [list N].  Regular expressions are interpreted by a backtracking
    matcher that follows the priority order of Python's [re] module. *)

From Stdlib Require Import List NArith ZArith Lia Bool String Ascii.
From stdpp Require Import base option list gmap sorting.

Open Scope N_scope.
Open Scope list_scope.

(* ================================================================== *)
(** * Part I: definitions                                              *)
(* ================================================================== *)

(** ** Python strings *)

Module Py.

Definition char := N.
Definition str := list N.

(** Decoding of the UTF-8 bytes of a literal into code points. *)
Fixpoint utf8_decode (bs : list N) : str :=
  match bs with
  | [] => []
  | b0 :: t =>
    if b0 <? 128 then b0 :: utf8_decode t
    else if b0 <? 224 then
      match t with
      | b1 :: t1 => ((b0 - 192) * 64 + (b1 - 128)) :: utf8_decode t1
      | _ => []
      end
    else if b0 <? 240 then
      match t with
      | b1 :: b2 :: t2 =>
        ((b0 - 224) * 4096 + (b1 - 128) * 64 + (b2 - 128)) :: utf8_decode t2
      | _ => []
      end
    else
      match t with
      | b1 :: b2 :: b3 :: t3 =>
        ((b0 - 240) * 262144 + (b1 - 128) * 4096 + (b2 - 128) * 64 + (b3 - 128))
          :: utf8_decode t3
      | _ => []
      end
  end.

Definition lit (s : string) : str :=
  utf8_decode (map N_of_ascii (list_ascii_of_string s)).

Definition NL : N := 10.
Definition SP : N := 32.
Definition DQUOTE : N := 34.
Definition SQUOTE : N := 39.

(** The character tables of the interpreter (Unicode database): they are
    not part of the repository and are taken as a parameter.
    [is_space] is [str.isspace] and the class [\s]; [is_digit] is [\d];
    [is_word] is [\w]; [is_alpha] is [str.isalpha]; [ci_eq] is equality of
    two code points under [re.IGNORECASE]. *)
Record tables := {
  is_space : N -> bool;
  is_digit : N -> bool;
  is_word : N -> bool;
  is_alpha : N -> bool;
  ci_eq : N -> N -> bool;
  digit_value : N -> N
}.

Definition in_range (lo hi c : N) : bool := (lo <=? c) && (c <=? hi).

Definition ascii_digit (c : N) : bool := in_range 48 57 c.
Definition ascii_upper (c : N) : bool := in_range 65 90 c.
Definition ascii_lower (c : N) : bool := in_range 97 122 c.
Definition cjk_ideograph (c : N) : bool := in_range 19968 40959 c.

(** Whitespace of CPython ([Py_UNICODE_ISSPACE]). *)
Definition py_space (c : N) : bool :=
  in_range 9 13 c || in_range 28 32 c || (c =? 133) || (c =? 160)
  || (c =? 5760) || in_range 8192 8202 c || (c =? 8232) || (c =? 8233)
  || (c =? 8239) || (c =? 8287) || (c =? 12288).

Definition ascii_fold (c : N) : N := if ascii_upper c then c + 32 else c.

(** A concrete instance: exact on whitespace; on digits, letters and case
    it is the restriction of the Unicode tables to ASCII and the CJK
    unified ideographs, which covers every text evaluated below. *)
Definition py_tables : tables := {|
  is_space := py_space;
  is_digit := ascii_digit;
  is_word := fun c => ascii_digit c || ascii_upper c || ascii_lower c
                      || (c =? 95) || cjk_ideograph c;
  is_alpha := fun c => ascii_upper c || ascii_lower c || cjk_ideograph c;
  ci_eq := fun a b => ascii_fold a =? ascii_fold b;
  digit_value := fun c => c - 48
|}.

(** What the proofs need of the tables. *)
Record tables_ok (tb : tables) : Prop := {
  space_ascii : forall c, c < 128 ->
    is_space tb c = in_range 9 13 c || in_range 28 32 c;
  digit_ascii : forall c, c < 128 -> is_digit tb c = ascii_digit c;
  digit_not_space : forall c, is_digit tb c = true -> is_space tb c = false;
  digit_value_ascii : forall c, ascii_digit c = true -> digit_value tb c = c - 48
}.

Section Strings.
Context (tb : tables).

Fixpoint lstrip (s : str) : str :=
  match s with
  | c :: t => if is_space tb c then lstrip t else s
  | [] => []
  end.

Definition rstrip (s : str) : str := rev (lstrip (rev s)).

(** [str.strip()] *)
Definition strip (s : str) : str := rstrip (lstrip s).

End Strings.

Definition eqs (a b : str) : bool := bool_decide (a = b).

(** [s.split(sep)] for a one-character separator. *)
Fixpoint split_chr (sep : N) (cur : str) (s : str) : list str :=
  match s with
  | [] => [rev cur]
  | c :: t => if c =? sep then rev cur :: split_chr sep [] t
              else split_chr sep (c :: cur) t
  end.

Definition split_nl (s : str) : list str := split_chr NL [] s.

(** [sep.join(parts)] *)
Fixpoint join (sep : str) (parts : list str) : str :=
  match parts with
  | [] => []
  | [p] => p
  | p :: rest => p ++ sep ++ join sep rest
  end.

(** Line boundaries of [str.splitlines()]. *)
Definition is_linebreak (c : N) : bool :=
  in_range 10 13 c || in_range 28 30 c || (c =? 133) || (c =? 8232) || (c =? 8233).

(** [str.splitlines()]: CR LF counts as one boundary and a final boundary
    opens no empty line. *)
Fixpoint splitlines_aux (cur : str) (s : str) : list str :=
  match s with
  | [] => match cur with [] => [] | _ => [rev cur] end
  | c :: t =>
    if is_linebreak c then
      match t with
      | d :: t' =>
        if (c =? 13) && (d =? 10) then rev cur :: splitlines_aux [] t'
        else rev cur :: splitlines_aux [] t
      | [] => [rev cur]
      end
    else splitlines_aux (c :: cur) t
  end.

Definition splitlines (s : str) : list str := splitlines_aux [] s.

(** [s.replace(a, b)] for single characters. *)
Definition replace_chr (a b : N) (s : str) : str :=
  map (fun c => if c =? a then b else c) s.

Fixpoint starts_with (p s : str) : bool :=
  match p, s with
  | [], _ => true
  | a :: p', b :: s' => (a =? b) && starts_with p' s'
  | _ :: _, [] => false
  end.

Definition ends_with (p s : str) : bool := starts_with (rev p) (rev s).

(** [needle in s] *)
Fixpoint contains (needle s : str) : bool :=
  starts_with needle s ||
  match s with
  | [] => false
  | _ :: t => contains needle t
  end.

(** [s.split(sep, 1)]: the text before the first occurrence of [sep] and,
    when there is one, the text after it. *)
Fixpoint split_once (sep : str) (cur : str) (s : str) : str * option str :=
  if starts_with sep s then (rev cur, Some (drop (length sep) s))
  else match s with
       | [] => (rev cur, None)
       | c :: t => split_once sep (c :: cur) t
       end.

(** Decimal digits of a number, most significant first ([str(n)]). *)
Fixpoint digits_fuel (fuel : nat) (n : N) (acc : str) : str :=
  match fuel with
  | O => acc
  | S f =>
    let acc' := (48 + n mod 10) :: acc in
    if n <? 10 then acc' else digits_fuel f (n / 10) acc'
  end.

Definition str_of_N (n : N) : str := digits_fuel (S (N.to_nat (N.log2 n))) n [].

(** [int(s)] on a string of decimal digits. *)
Definition int_of_str (tb : tables) (s : str) : N :=
  fold_left (fun acc c => acc * 10 + digit_value tb c) s 0.

End Py.

(** ** Regular expressions with the matching order of Python's [re] *)

Module Re.
Import Py.

(** The constructs used by the patterns of the repository.  [Star g r] is
    [r*] when [g] is true and [r*?] otherwise; [Bol] and [Eol] are [^]
    and [$] under [re.MULTILINE]; [Behind p] is a one-character
    lookbehind and [Ahead r] a lookahead. *)
Inductive re :=
| Eps
| Cls (p : N -> bool)
| Seq (a b : re)
| Alt (a b : re)
| Star (greedy : bool) (a : re)
| Bol
| Eol
| Grp (n : nat) (a : re)
| Behind (p : N -> bool)
| Ahead (a : re).

(** A position in the subject: the text before it, reversed, and the
    text after it. *)
Record cursor := Cur { before : str; after : str }.

Definition pos (z : cursor) : nat := length (before z).

(** Text consumed between two positions of one scan. *)
Definition consumed (z z' : cursor) : str :=
  rev (take (pos z' - pos z) (before z')).

Definition caps := list (nat * str).

Definition cont := cursor -> caps -> option (cursor * caps).

Definition at_bol (z : cursor) : bool :=
  match before z with [] => true | c :: _ => c =? NL end.

Definition at_eol (z : cursor) : bool :=
  match after z with [] => true | c :: _ => c =? NL end.

(** The loop of a repetition whose body is matched by [body]: a greedy
    loop tries one more iteration before leaving, a lazy one leaves
    first.  An iteration that consumes nothing ends the loop; [fuel]
    exceeds the length of the text that is left. *)
Fixpoint star_loop (body : cont -> cont) (greedy : bool) (k : cont)
    (fuel : nat) (z : cursor) (c : caps) {struct fuel}
  : option (cursor * caps) :=
  match fuel with
  | O => None
  | S f =>
    let again : cont := fun z' c' =>
      if (length (after z') <? length (after z))%nat
      then star_loop body greedy k f z' c' else None in
    if greedy then
      match body again z c with
      | Some res => Some res
      | None => k z c
      end
    else
      match k z c with
      | Some res => Some res
      | None => body again z c
      end
  end.

(** Backtracking matcher in continuation-passing style: alternatives are
    tried left to right and the first way to reach the end of the
    pattern wins. *)
Fixpoint run (r : re) (k : cont) (z : cursor) (c : caps) {struct r}
  : option (cursor * caps) :=
  match r with
  | Eps => k z c
  | Cls p =>
    match after z with
    | x :: t => if p x then k (Cur (x :: before z) t) c else None
    | [] => None
    end
  | Seq a b => run a (run b k) z c
  | Alt a b =>
    match run a k z c with
    | Some res => Some res
    | None => run b k z c
    end
  | Star g a => star_loop (run a) g k (S (length (after z))) z c
  | Bol => if at_bol z then k z c else None
  | Eol => if at_eol z then k z c else None
  | Grp n a => run a (fun z' c' => k z' ((n, consumed z z') :: c')) z c
  | Behind p =>
    match before z with
    | x :: _ => if p x then k z c else None
    | [] => None
    end
  | Ahead a =>
    match run a (fun z' c' => Some (z', c')) z c with
    | Some (_, c') => k z c'
    | None => None
    end
  end.

Definition accept : cont := fun z c => Some (z, c).

(** One attempt at a fixed position ([pattern.match] at that position). *)
Definition match_at (r : re) (z : cursor) : option (cursor * caps) :=
  run r accept z [].

(** A match: where it starts, where it ends and its groups. *)
Record rmatch := Match { m_from : cursor; m_to : cursor; m_caps : caps }.

Definition m_start (m : rmatch) : nat := pos (m_from m).
Definition m_end (m : rmatch) : nat := pos (m_to m).

(** [m.group(n)] *)
Fixpoint group (n : nat) (c : caps) : str :=
  match c with
  | [] => []
  | (i, s) :: rest => if (i =? n)%nat then s else group n rest
  end.

(** Leftmost match at or after a position. *)
Fixpoint search_at (r : re) (bef aft : str) {struct aft} : option rmatch :=
  match match_at r (Cur bef aft) with
  | Some (z', c) => Some (Match (Cur bef aft) z' c)
  | None =>
    match aft with
    | [] => None
    | x :: t => search_at r (x :: bef) t
    end
  end.

(** [re.search(r, s)] *)
Definition search (r : re) (s : str) : option rmatch := search_at r [] s.

Definition found (r : re) (s : str) : bool :=
  match search r s with Some _ => true | None => false end.

(** [re.finditer]: successive non-overlapping matches, left to right.
    No pattern of the repository matches the empty string; should one do
    so the scan moves on by one character. *)
Fixpoint finditer_at (r : re) (fuel : nat) (bef aft : str) : list rmatch :=
  match fuel with
  | O => []
  | S f =>
    match match_at r (Cur bef aft) with
    | Some (z', c) =>
      if (length (after z') <? length aft)%nat
      then Match (Cur bef aft) z' c :: finditer_at r f (before z') (after z')
      else match aft with
           | [] => [Match (Cur bef aft) z' c]
           | x :: t => Match (Cur bef aft) z' c :: finditer_at r f (x :: bef) t
           end
    | None =>
      match aft with
      | [] => []
      | x :: t => finditer_at r f (x :: bef) t
      end
    end
  end.

Definition finditer (r : re) (s : str) : list rmatch :=
  finditer_at r (S (length s)) [] s.

(** [re.sub(r, repl, s)] where [repl] is computed from the groups. *)
Fixpoint sub_at (r : re) (repl : caps -> str) (fuel : nat) (bef aft : str) : str :=
  match fuel with
  | O => aft
  | S f =>
    match match_at r (Cur bef aft) with
    | Some (z', c) =>
      if (length (after z') <? length aft)%nat
      then repl c ++ sub_at r repl f (before z') (after z')
      else match aft with
           | [] => repl c
           | x :: t => repl c ++ x :: sub_at r repl f (x :: bef) t
           end
    | None =>
      match aft with
      | [] => []
      | x :: t => x :: sub_at r repl f (x :: bef) t
      end
    end
  end.

Definition sub_with (r : re) (repl : caps -> str) (s : str) : str :=
  sub_at r repl (S (length s)) [] s.

Definition sub (r : re) (repl : str) (s : str) : str :=
  sub_with r (fun _ => repl) s.

(** Derived forms. *)
Definition chr (c : N) : re := Cls (N.eqb c).
Definition not_chr (c : N) : re := Cls (fun x => negb (x =? c)).
Definition plus (a : re) : re := Seq a (Star true a).
Definition plus_lazy (a : re) : re := Seq a (Star false a).
Definition star (a : re) : re := Star true a.
Definition opt (a : re) : re := Alt a Eps.
Definition any_of (cs : str) : re := Cls (fun x => existsb (N.eqb x) cs).
Definition none_of (cs : str) : re := Cls (fun x => negb (existsb (N.eqb x) cs)).
(** [.] without [re.DOTALL] *)
Definition dot : re := not_chr NL.

Fixpoint seqs (rs : list re) : re :=
  match rs with
  | [] => Eps
  | [r] => r
  | r :: rest => Seq r (seqs rest)
  end.

(** A literal text. *)
Definition text (s : str) : re := seqs (map chr s).

(** A literal text under [re.IGNORECASE]. *)
Definition itext (tb : tables) (s : str) : re :=
  seqs (map (fun c => Cls (ci_eq tb c)) s).

Section Classes.
Context (tb : tables).
Definition d : re := Cls (is_digit tb).
Definition s : re := Cls (is_space tb).
Definition ws : re := star s.
(** [\d{2}:\d{2}:\d{2},\d{3}] *)
Definition timestamp : re :=
  seqs [d; d; chr 58; d; d; chr 58; d; d; chr 44; d; d; d].
(** [-->] *)
Definition arrow : re := text [45; 45; 62].
End Classes.

End Re.

(** ** The record model ([SRTEntry], [SRT_PATTERN], rendering, parsing) *)

Module Srt.
Import Py Re.

(** [class SRTEntry]: the fields as the constructor leaves them. *)
Record SRTEntry := Entry {
  number : N;
  start_time : str;
  end_time : str;
  content : str
}.

Section WithTables.
Context (tb : tables).

(** [SRTEntry.__init__]: the content is stripped. *)
Definition mk_entry (n : N) (st en : str) (c : str) : SRTEntry :=
  Entry n st en (strip tb c).

(** [SRTEntry.to_string]:
    [f"{number}\n{start_time} --> {end_time}\n{content}\n"] *)
Definition to_string (e : SRTEntry) : str :=
  str_of_N (number e) ++ [NL] ++ start_time e ++ lit " --> " ++ end_time e
  ++ [NL] ++ content e ++ [NL].

(** [SRT_PATTERN], compiled with [re.MULTILINE]:
    [(\d+)\s*\n]
    [(\d{2}:\d{2}:\d{2},\d{3})\s*-->\s*(\d{2}:\d{2}:\d{2},\d{3})\s*\n]
    [((?:.+(?:\n|$))+?)]
    [(?:\n|$)] *)
Definition SRT_PATTERN : re :=
  seqs [ Grp 1 (plus (d tb)); ws tb; chr NL;
         Grp 2 (timestamp tb); ws tb; arrow; ws tb;
         Grp 3 (timestamp tb); ws tb; chr NL;
         Grp 4 (plus_lazy (Seq (plus dot) (Alt (chr NL) Eol)));
         Alt (chr NL) Eol ].

(** The loop over [SRT_PATTERN.finditer(content)] of
    [SRTCorrector.parse_srt_file], on the text of the file. *)
Definition entry_of_match (m : rmatch) : SRTEntry :=
  mk_entry (int_of_str tb (group 1 (m_caps m)))
           (group 2 (m_caps m)) (group 3 (m_caps m))
           (strip tb (group 4 (m_caps m))).

Definition parse_srt (text : str) : list SRTEntry :=
  map entry_of_match (finditer SRT_PATTERN text).

(** The parser of [srt_polisher.py] and [srt_checker.py]: a final newline
    is added when missing and group 4 is passed to the constructor as it
    is. *)
Definition entry_of_match_raw (m : rmatch) : SRTEntry :=
  mk_entry (int_of_str tb (group 1 (m_caps m)))
           (group 2 (m_caps m)) (group 3 (m_caps m))
           (group 4 (m_caps m)).

Definition ensure_final_newline (text : str) : str :=
  if ends_with [NL] text then text else text ++ [NL].

Definition parse_srt_nl (text : str) : list SRTEntry :=
  map entry_of_match_raw (finditer SRT_PATTERN (ensure_final_newline text)).

End WithTables.

(** [SRTCorrector._write_srt_file]: every entry rendered, an empty line
    between two entries and none after the last. *)
Fixpoint write_srt (es : list SRTEntry) : str :=
  match es with
  | [] => []
  | [e] => to_string e
  | e :: rest => to_string e ++ [NL] ++ write_srt rest
  end.

(** Stable sort on the sequence number ([list.sort(key=number)]):
    insertion from the right keeps equal keys in their order. *)
Fixpoint insert_by_number (e : SRTEntry) (l : list SRTEntry) : list SRTEntry :=
  match l with
  | [] => [e]
  | x :: rest =>
    if number e <=? number x then e :: l else x :: insert_by_number e rest
  end.

Definition sort_by_number (l : list SRTEntry) : list SRTEntry :=
  foldr insert_by_number [] l.

End Srt.

(** ** Effects: remote calls, sleeping, exceptions *)

Module Eff.

(** What a run has done so far: the number of remote calls made and the
    delays slept, latest first. *)
Record world := World { calls : nat; slept : list N }.

Definition world0 : world := World 0 [].

(** A computation returns a value or leaves by an exception. *)
Inductive outcome (A : Type) : Type :=
| Returned (a : A)
| Raised.
Arguments Returned {A} a.
Arguments Raised {A}.

Definition M (A : Type) : Type := world -> outcome A * world.

Definition ret {A} (a : A) : M A := fun w => (Returned a, w).

Definition bind {A B} (m : M A) (k : A -> M B) : M B :=
  fun w =>
    match m w with
    | (Returned a, w') => k a w'
    | (Raised, w') => (Raised, w')
    end.

Definition raise {A} : M A := fun w => (Raised, w).

(** [try: m  except Exception: h] *)
Definition try_except {A} (m : M A) (h : M A) : M A :=
  fun w =>
    match m w with
    | (Returned a, w') => (Returned a, w')
    | (Raised, w') => h w'
    end.

(** [time.sleep(delay)] *)
Definition sleep (delay : N) : M unit :=
  fun w => (Returned tt, World (calls w) (delay :: slept w)).

(** One remote call: the service is an oracle on the number of calls made
    before this one. *)
Definition remote {R} (service : nat -> R) : M R :=
  fun w => (Returned (service (calls w)), World (S (calls w)) (slept w)).

Declare Scope eff_scope.
Delimit Scope eff_scope with eff.
Notation "'let*' x ':=' m 'in' k" := (bind m (fun x => k))
  (at level 10, x name, m at level 100, k at level 200) : eff_scope.
Notation "'do' m 'then' k" := (bind m (fun _ => k))
  (at level 10, m at level 100, k at level 200) : eff_scope.

Fixpoint map_m {A B} (f : A -> M B) (l : list A) : M (list B) :=
  match l with
  | [] => ret []
  | a :: rest => bind (f a) (fun b => bind (map_m f rest) (fun bs => ret (b :: bs)))
  end.

End Eff.

(** ** [srt_corrector.py] *)

Module Corrector.
Import Py Re Srt Eff.
Local Open Scope eff_scope.

(** Retry and backoff constants. *)
Definition MAX_API_RETRIES : nat := 5.
Definition MAX_ENTRY_RETRIES : nat := 5.
Definition MAX_BATCH_RETRIES : nat := 5.
Definition MAX_BACKOFF_SECONDS : N := 10.

(** What one [requests.post] followed by the extraction of
    [result["choices"][0]["message"]["content"]] can do:
    raise a [requests.exceptions.RequestException] (timeout, connection
    error, HTTP status), raise [KeyError] or [IndexError] on the envelope,
    raise anything else, or give the text. *)
Inductive http_outcome :=
| RequestException
| EnvelopeError
| OtherException
| Body (text : str).

Section WithTables.
Context (tb : tables).

(** *** [CorrectionAPI] *)

Definition quoted_by (q : N) (t : str) : bool :=
  starts_with [q] t && ends_with [q] t.

(** [t[1:-1]] *)
Definition drop_ends (t : str) : str := removelast (tl t).

Definition keywords : list str :=
  [lit "修正"; lit "纠错"; lit "原文"; lit "结果"; lit "主要"].

(** The first stripped line that is not empty and holds no keyword. *)
Fixpoint first_plain_line (lines : list str) : option str :=
  match lines with
  | [] => None
  | l :: rest =>
    let line := strip tb l in
    if negb (eqs line []) && negb (existsb (fun kw => contains kw line) keywords)
    then Some line else first_plain_line rest
  end.

(** [CorrectionAPI._clean_corrected_text] *)
Definition _clean_corrected_text (corrected_text original_text : str) : str :=
  let t0 := strip tb corrected_text in
  let t1 := if quoted_by DQUOTE t0 || quoted_by SQUOTE t0
            then strip tb (drop_ends t0) else t0 in
  let t2 := if contains (lit "修正后的文本") t1 || contains (lit "纠错结果") t1
               || contains (lit "主要修正") t1
            then match first_plain_line (split_nl t1) with
                 | Some line => line
                 | None => t1
                 end
            else t1 in
  let original_lines := split_nl (strip tb original_text) in
  let corrected_lines := split_nl (strip tb t2) in
  if (1 <? length original_lines)%nat && (length corrected_lines =? 1)%nat
     && (4 * length original_text <? 5 * length t2)%nat
  then let mid := (length t2 / 2)%nat in
       strip tb (take mid t2) ++ [NL] ++ strip tb (drop mid t2)
  else t2.

(** [CorrectionAPI.correct_text_with_context]: the loop
    [for attempt in range(retry_count)].  [remaining] counts the
    iterations left; when none is left the function ends without a
    [return], which yields [None]. *)
Fixpoint correct_text_attempts (post : nat -> http_outcome) (text : str)
    (retry_count : nat) (remaining : nat) (attempt : nat)
  : M (option str) :=
  match remaining with
  | O => ret None
  | S rest =>
    let* r := remote post in
    match r with
    | Body t => ret (Some (_clean_corrected_text (strip tb t) text))
    | RequestException =>
      let delay := N.min (2 ^ N.of_nat attempt) MAX_BACKOFF_SECONDS in
      if (attempt <? retry_count - 1)%nat
      then do sleep delay then
           correct_text_attempts post text retry_count rest (S attempt)
      else ret None
    | EnvelopeError => ret None
    | OtherException => raise
    end
  end.

Definition correct_text_with_context (post : nat -> http_outcome)
    (text : str) (retry_count : nat) : M (option str) :=
  correct_text_attempts post text retry_count retry_count 0.

(** [separator.format(index=i)] with
    [separator = "\n===SUBTITLE_SEPARATOR_{index}===\n"] *)
Definition separator (i : nat) : str :=
  [NL] ++ lit "===SUBTITLE_SEPARATOR_" ++ str_of_N (N.of_nat i) ++ lit "===" ++ [NL].

(** The first loop of [_parse_batch_result]: one text per entry, cut at
    the numbered separators. *)
Fixpoint cut_contents (n : nat) (i : nat) (todo : nat) (remaining : str)
  : list str :=
  match todo with
  | O => []
  | S todo' =>
    if (i =? 0)%nat then
      if (1 <? n)%nat then
        let '(p0, p1) := split_once (separator 1) [] remaining in
        strip tb p0 :: cut_contents n (S i) todo' (default [] p1)
      else strip tb remaining :: cut_contents n (S i) todo' []
    else if (i <? n - 1)%nat then
      let '(p0, p1) := split_once (separator (i + 1)) [] remaining in
      strip tb p0 :: cut_contents n (S i) todo' (default [] p1)
    else strip tb remaining :: cut_contents n (S i) todo' []
  end.

(** [CorrectionAPI._parse_batch_result]; nothing in its [try] block
    raises on strings, so the handler is left out. *)
Definition _parse_batch_result (corrected_batch : str)
    (original_entries : list SRTEntry) : list (option str) :=
  let n := length original_entries in
  let corrected_contents := cut_contents n 0 n corrected_batch in
  let results :=
    map (fun '(entry, corrected_text) =>
           if negb (eqs corrected_text [])
           then Some (_clean_corrected_text corrected_text (content entry))
           else Some (content entry))
        (zip original_entries corrected_contents) in
  results ++ map (fun e => Some (content e)) (drop (length results) original_entries).

(** The loop of [CorrectionAPI.correct_batch_texts]; [None] is Python's
    [None], returned when the loop body never runs. *)
Fixpoint correct_batch_attempts (post : nat -> http_outcome)
    (entries_batch : list SRTEntry) (retry_count : nat) (remaining : nat)
    (attempt : nat) : M (option (list (option str))) :=
  match remaining with
  | O => ret None
  | S rest =>
    let* r := remote post in
    match r with
    | Body t => ret (Some (_parse_batch_result (strip tb t) entries_batch))
    | RequestException =>
      let delay := N.min (2 ^ N.of_nat attempt) MAX_BACKOFF_SECONDS in
      if (attempt <? retry_count - 1)%nat
      then do sleep delay then
           correct_batch_attempts post entries_batch retry_count rest (S attempt)
      else ret (Some (replicate (length entries_batch) None))
    | EnvelopeError => ret (Some (replicate (length entries_batch) None))
    | OtherException => raise
    end
  end.

Definition correct_batch_texts (post : nat -> http_outcome)
    (entries_batch : list SRTEntry) (retry_count : nat)
  : M (option (list (option str))) :=
  match entries_batch with
  | [] => ret (Some [])
  | _ => correct_batch_attempts post entries_batch retry_count retry_count 0
  end.

(** *** [SubtitleFormatter] *)

(** [format_options] *)
Record format_options := FormatOptions {
  clean_newlines : bool;
  remove_spaces : bool;
  normalize_punctuation : bool;
  smart_line_break : bool
}.

Definition default_format_options : format_options :=
  FormatOptions true true true true.

Definition nonempty (l : str) : bool := negb (eqs l []).

(** [_clean_extra_newlines] *)
Definition _clean_extra_newlines (t : str) : str :=
  join [SP] (List.filter nonempty (map (strip tb) (split_nl t))).

(** [一-鿿぀-ゟ゠-ヿ가-힯] *)
Definition cjk_chars (c : N) : bool :=
  in_range 19968 40959 c || in_range 12352 12447 c
  || in_range 12448 12543 c || in_range 44032 55215 c.

(** [_remove_extra_spaces] *)
Definition _remove_extra_spaces (t : str) : str :=
  let clean_line (l : str) : str :=
    let l1 := strip tb l in
    let l2 := sub (plus (s tb)) [SP] l1 in
    sub (Seq (Behind cjk_chars) (Seq (plus (chr SP)) (Ahead (Cls cjk_chars)))) [] l2 in
  join [NL] (List.filter nonempty (map clean_line (split_nl t))).

Definition cn_punct : str := lit "，。！？；：、".

Definition ascii_alnum (c : N) : bool :=
  ascii_upper c || ascii_lower c || ascii_digit c.

(** [_normalize_punctuation] *)
Definition _normalize_punctuation (t : str) : str :=
  let t1 := sub_with (Seq (plus (chr SP)) (Grp 1 (any_of cn_punct)))
                     (fun c => group 1 c) t in
  let t2 := sub_with (Seq (Grp 1 (any_of cn_punct)) (Grp 2 (Cls ascii_alnum)))
                     (fun c => group 1 c ++ [SP] ++ group 2 c) t1 in
  let t3 := sub (Seq (plus (chr SP)) (chr DQUOTE)) [DQUOTE] t2 in
  sub (Seq (chr DQUOTE) (plus (chr SP))) [DQUOTE] t3.

(** The break points of [_break_long_line], by priority. *)
Definition break_points : list re :=
  [ Seq (Grp 1 (any_of (lit "。！？"))) (Grp 2 (none_of (DQUOTE :: lit "）】")));
    Seq (Grp 1 (any_of (lit "，；："))) (Grp 2 (none_of (DQUOTE :: lit "）】")));
    Seq (Grp 1 (any_of (lit "、"))) (Grp 2 (none_of (DQUOTE :: lit "）】")));
    Seq (Grp 1 (chr DQUOTE)) (Grp 2 (none_of (lit "）】")));
    Seq (Grp 1 (any_of (lit "）】"))) (Grp 2 (none_of (lit "，。！？；："))) ].

(** The first match of one pattern whose break position lies within
    [max_length * 0.6 <= break_pos <= max_length]. *)
Fixpoint first_break (max_length : nat) (ms : list rmatch) : option nat :=
  match ms with
  | [] => None
  | m :: rest =>
    let break_pos := (m_start m + length (group 1 (m_caps m)))%nat in
    if (3 * max_length <=? 5 * break_pos)%nat && (break_pos <=? max_length)%nat
    then Some break_pos else first_break max_length rest
  end.

Fixpoint best_break (max_length : nat) (pats : list re) (remaining : str)
  : option nat :=
  match pats with
  | [] => None
  | p :: rest =>
    match first_break max_length (finditer p remaining) with
    | Some b => Some b
    | None => best_break max_length rest remaining
    end
  end.

Definition no_break_before : str :=
  lit "，。！？；：、" ++ [DQUOTE] ++ lit "（）【】".

(** The inner [while] that moves a forced break off punctuation. *)
Fixpoint back_off (fuel : nat) (max_length : nat) (remaining : str)
    (break_pos : nat) : nat :=
  match fuel with
  | O => break_pos
  | S f =>
    if (4 * max_length <? 5 * break_pos)%nat && (0 <? break_pos)%nat then
      match remaining !! (break_pos - 1)%nat with
      | Some c =>
        if existsb (N.eqb c) no_break_before
        then back_off f max_length remaining (break_pos - 1)
        else break_pos
      | None => break_pos
      end
    else break_pos
  end.

Definition forced_break (max_length : nat) (remaining : str) : nat :=
  let b := back_off (S max_length) max_length remaining max_length in
  if (5 * b <=? 4 * max_length)%nat then max_length else b.

(** [result[-1] += ' ' + piece] *)
Definition append_to_last (result : list str) (piece : str) : list str :=
  match rev result with
  | [] => []
  | last :: front => rev front ++ [last ++ [SP] ++ piece]
  end.

(** The outer [while len(remaining) > max_length] of [_break_long_line];
    every iteration that does not leave the loop shortens [remaining]. *)
Fixpoint break_loop (fuel : nat) (max_length : nat) (result : list str)
    (remaining : str) : list str * str :=
  match fuel with
  | O => (result, remaining)
  | S f =>
    if (length remaining <=? max_length)%nat then (result, remaining)
    else
      match best_break max_length break_points remaining with
      | Some b =>
        let current_line := strip tb (take b remaining) in
        let remaining' := strip tb (drop b remaining) in
        if (8 <=? length current_line)%nat
        then break_loop f max_length (result ++ [current_line]) remaining'
        else match result with
             | [] => (result, current_line ++ [SP] ++ remaining')
             | _ => break_loop f max_length
                      (append_to_last result current_line) remaining'
             end
      | None =>
        let b := forced_break max_length remaining in
        let current_line := strip tb (take b remaining) in
        let remaining' := strip tb (drop b remaining) in
        if (8 <=? length current_line)%nat
        then break_loop f max_length (result ++ [current_line]) remaining'
        else match result with
             | [] => (result, remaining')
             | _ => break_loop f max_length
                      (append_to_last result current_line) remaining'
             end
      end
  end.

(** [_break_long_line] *)
Definition _break_long_line (line : str) (max_length : nat) : list str :=
  if (length line <=? max_length)%nat then [line]
  else
    let '(result, remaining) := break_loop (S (length line)) max_length [] line in
    let result' :=
      if nonempty (strip tb remaining) then
        let r := strip tb remaining in
        match rev result with
        | last :: _ =>
          if (length r <=? 6)%nat
             && (5 * (length last + length r) <=? 6 * max_length)%nat
          then append_to_last result r
          else result ++ [r]
        | [] => result ++ [r]
        end
      else result in
    match result' with
    | [] => [line]
    | _ => result'
    end.

(** [_smart_line_break], with its default [max_line_length=35] *)
Definition _smart_line_break (t : str) : str :=
  join [NL]
    (flat_map (fun line => if (length line <=? 35)%nat then [line]
                           else _break_long_line line 35)
              (split_nl t)).

(** [SubtitleFormatter.format_subtitle_content] *)
Definition format_subtitle_content (o : format_options) (c : str) : str :=
  if eqs c [] then c
  else
    let c1 := if clean_newlines o then _clean_extra_newlines c else c in
    let c2 := if remove_spaces o then _remove_extra_spaces c1 else c1 in
    let c3 := if normalize_punctuation o then _normalize_punctuation c2 else c2 in
    let c4 := if smart_line_break o then _smart_line_break c3 else c3 in
    strip tb c4.

(** *** [SRTCorrector] *)

(** [_needs_correction]: some Chinese, English, Japanese or Korean
    character occurs. *)
Definition _needs_correction (t : str) : bool :=
  existsb (fun c => in_range 19968 40959 c
                    || ascii_lower c || ascii_upper c
                    || in_range 12352 12447 c || in_range 12448 12543 c
                    || in_range 44032 55215 c) t.

(** [SRTCorrector.correct_subtitle_entry]; the counters of [self.stats]
    and the log lines are left out. *)
Definition correct_subtitle_entry (o : format_options)
    (post : nat -> http_outcome) (entry : SRTEntry) : M SRTEntry :=
  let original_content := content entry in
  let formatted_content := format_subtitle_content o original_content in
  let format_changed := negb (eqs formatted_content original_content) in
  if negb (_needs_correction formatted_content) then
    if format_changed
    then ret (mk_entry tb (number entry) (start_time entry) (end_time entry)
                       formatted_content)
    else ret entry
  else
    let* corrected := correct_text_with_context post formatted_content
                        MAX_API_RETRIES in
    match corrected with
    | None => ret (mk_entry tb (number entry) (start_time entry)
                            (end_time entry) formatted_content)
    | Some corrected_content =>
      ret (mk_entry tb (number entry) (start_time entry) (end_time entry)
                    corrected_content)
    end.

(** The context-aware sequential loop of [correct_srt_file]: an entry
    whose correction raises is kept as it is. *)
Definition correct_entries (o : format_options) (post : nat -> http_outcome)
    (entries : list SRTEntry) : M (list SRTEntry) :=
  map_m (fun entry => try_except (correct_subtitle_entry o post entry) (ret entry))
        entries.

(** [batches = [entries[i:i + batch_size] for i in range(0, len(entries), batch_size)]],
    for a positive [batch_size] ([range] refuses a zero step). *)
Fixpoint batches_from (fuel : nat) (batch_size : nat) (entries : list SRTEntry)
  : list (list SRTEntry) :=
  match fuel with
  | O => []
  | S f =>
    match entries with
    | [] => []
    | _ => take batch_size entries
           :: batches_from f batch_size (drop batch_size entries)
    end
  end.

Definition batches (batch_size : nat) (entries : list SRTEntry)
  : list (list SRTEntry) :=
  batches_from (length entries) batch_size entries.

(** [range(0, len(entries), batch_size)], of which [correct_srt_file]
    makes its batches before it looks at the mode: a zero step raises
    [ValueError]; a negative one gives no batch. *)
Definition check_range_step (batch_size : Z) : M unit :=
  if (batch_size =? 0)%Z then raise else ret tt.

(** [correct_srt_file] in its context-aware mode ([use_true_batch] off
    and a positive [context_window], as the constructor sets them), from
    the parsed entries to the text written: [Some] of the text with the
    result [True], [None] with the result [False], when nothing is
    written.  No entry gives [False]; so does an exception, which the
    handler around the whole body catches.  The batches are not used in
    this mode, and no progress callback is given. *)
Definition correct_srt_file (batch_size : Z) (o : format_options)
    (post : nat -> http_outcome) (entries : list SRTEntry) : M (option str) :=
  try_except
    (match entries with
     | [] => ret None
     | _ =>
       do check_range_step batch_size then
       let* corrected_entries := correct_entries o post entries in
       ret (Some (write_srt (sort_by_number corrected_entries)))
     end)
    (ret None).

(** One iteration of the retry loop of [_process_single_true_batch]
    either leaves the loop or goes on, with the results held so far. *)
Inductive loop_step :=
| Break (results : option (list (option str)))
| Continue (results : option (list (option str))).

(** The retry loop of [_process_single_true_batch] around
    [correct_batch_texts]: it stops at the first answer of the right
    length with some text in it. *)
Fixpoint batch_retry (post : nat -> http_outcome)
    (need_correction : list SRTEntry) (remaining : nat) (attempt : nat)
    (last : option (list (option str))) : M (option (list (option str))) :=
  match remaining with
  | O => ret last
  | S rest =>
    let* step :=
      try_except
        (let* corrected_results :=
           correct_batch_texts post need_correction MAX_API_RETRIES in
         let valid_length :=
           match corrected_results with
           | Some ((_ :: _) as l) => (length l =? length need_correction)%nat
           | _ => false
           end in
         let has_valid :=
           valid_length &&
           existsb (fun r => match r with Some _ => true | None => false end)
                   (default [] corrected_results) in
         if valid_length && has_valid then ret (Break corrected_results)
         else ret (Continue corrected_results))
        (if (attempt =? MAX_BATCH_RETRIES - 1)%nat
         then ret (Continue (Some (replicate (length need_correction) None)))
         else ret (Continue last)) in
    match step with
    | Break r => ret r
    | Continue r => batch_retry post need_correction rest (S attempt) r
    end
  end.

(** [SRTCorrector._process_single_true_batch].  [interrupt] stands for an
    exception raised by the output callback inside the outer [try] while
    the results are appended, after that many of them: the handler then
    appends the whole original batch to what was collected. *)
Definition _process_single_true_batch (o : format_options)
    (post : nat -> http_outcome) (interrupt : option nat)
    (batch : list SRTEntry) : M (list SRTEntry) :=
  let formatted_batch :=
    map (fun entry =>
           mk_entry tb (number entry) (start_time entry) (end_time entry)
                    (format_subtitle_content o (content entry))) batch in
  let need_correction :=
    List.filter (fun e => _needs_correction (content e)) formatted_batch in
  let no_correction_needed :=
    List.filter (fun e => negb (_needs_correction (content e))) formatted_batch in
  let* corrected :=
    match need_correction with
    | [] => ret []
    | _ =>
      let* r := batch_retry post need_correction MAX_BATCH_RETRIES 0 None in
      let corrected_results :=
        match r with
        | Some ((_ :: _) as l) =>
          if (length l =? length need_correction)%nat then l
          else replicate (length need_correction) None
        | _ => replicate (length need_correction) None
        end in
      ret (map (fun '(entry, corrected_text) =>
                  match corrected_text with
                  | Some t => mk_entry tb (number entry) (start_time entry)
                                       (end_time entry) t
                  | None => entry
                  end)
               (zip need_correction corrected_results))
    end in
  match interrupt with
  | None => ret (corrected ++ no_correction_needed)
  | Some k => ret (take k corrected ++ batch)
  end.

(** [SRTCorrector._get_context_entries] for a corrector whose
    [context_window] is given: the entries at most that far before and
    after the current one.  [max(0, .)] is the subtraction of natural
    numbers. *)
Definition _get_context_entries (context_window : nat)
    (entries : list SRTEntry) (current_index : nat) : list SRTEntry :=
  let start_index := (current_index - context_window)%nat in
  let end_index :=
    Nat.min (length entries) (current_index + context_window + 1) in
  flat_map (fun i => if (i =? current_index)%nat then []
                     else match entries !! i with
                          | Some e => [e]
                          | None => []
                          end)
           (seq start_index (end_index - start_index)).

(** [CorrectionAPI._fallback_parse_result]: the lines of the answer are
    dealt out evenly.  With no entry the division raises, and the
    handler returns the contents of no entry. *)
Definition _fallback_parse_result (corrected_batch : str)
    (original_entries : list SRTEntry) : list (option str) :=
  let lines := split_nl (strip tb corrected_batch) in
  let entries_count := length original_entries in
  if (entries_count =? 0)%nat then []
  else
    let lines_per_entry := Nat.max 1 (length lines / entries_count) in
    imap (fun i entry =>
            let start_idx := (i * lines_per_entry)%nat in
            let end_idx := if (i =? entries_count - 1)%nat then length lines
                           else (start_idx + lines_per_entry)%nat in
            let entry_lines := take (end_idx - start_idx) (drop start_idx lines) in
            let corrected_text := strip tb (join [NL] entry_lines) in
            if nonempty corrected_text
            then Some (_clean_corrected_text corrected_text (content entry))
            else Some (content entry))
         original_entries.

(** The loop of [SRTCorrector._correct_single_entry_with_retry]; a loop
    that ends without [return] gives [None]. *)
Fixpoint entry_retry (o : format_options) (post : nat -> http_outcome)
    (entry : SRTEntry) (remaining : nat) (attempt : nat)
  : M (option SRTEntry) :=
  match remaining with
  | O => ret None
  | S rest =>
    try_except
      (let* e := correct_subtitle_entry o post entry in ret (Some e))
      (if (attempt =? MAX_ENTRY_RETRIES - 1)%nat then raise
       else do sleep 1 then entry_retry o post entry rest (S attempt))
  end.

Definition _correct_single_entry_with_retry (o : format_options)
    (post : nat -> http_outcome) (entry : SRTEntry) : M (option SRTEntry) :=
  entry_retry o post entry MAX_ENTRY_RETRIES 0.

End WithTables.
End Corrector.

(** ** [srt_polisher.py] *)

Module Polisher.
Import Py Re Srt Eff.
Local Open Scope eff_scope.

(** What one call of [self.translation_api.translate] can do.  The class
    [TranslationAPI] is imported from a module outside the repository's
    sources: the call either raises or returns a text or [None]. *)
Inductive translate_outcome :=
| TRaise
| TReturn (r : option str).

Section WithTables.
Context (tb : tables).

(** *** Patterns *)

Definition HASH : N := 35.
Definition colon : re := any_of (lit ":：").
(** [(?:\([^\n\)]*\))?] *)
Definition paren_note : re :=
  opt (seqs [chr 40; star (none_of [NL; 41]); chr 41]).
Definition SEPARATOR_WORD : re := itext tb (lit "SUBTITLE_SEPARATOR").

(** [\d{2}:\d{2}:\d{2},\d{3}\s*-->\s*\d{2}:\d{2}:\d{2},\d{3}] *)
Definition timecode : re :=
  seqs [timestamp tb; ws tb; arrow; ws tb; timestamp tb].
(** [^\s*#?\s*\d+\s*$] *)
Definition bare_number_line : re :=
  seqs [Bol; ws tb; opt (chr HASH); ws tb; plus (d tb); ws tb; Eol].
(** [字幕\s*#?\s*\d+] *)
Definition subtitle_label : re :=
  seqs [text (lit "字幕"); ws tb; opt (chr HASH); ws tb; plus (d tb)].

(** [===SUBTITLE_SEPARATOR[_\d]*===], ignoring case *)
Definition separator_token : re :=
  seqs [text (lit "==="); SEPARATOR_WORD;
        star (Cls (fun c => (c =? 95) || is_digit tb c)); text (lit "===")].
(** [^[=\-\s]*SUBTITLE_SEPARATOR[^\n]*$], ignoring case *)
Definition sep_line : re :=
  seqs [Bol; star (Cls (fun c => (c =? 61) || (c =? 45) || is_space tb c));
        SEPARATOR_WORD; star (not_chr NL); Eol].
(** [^---\s*] and [\s*---$] *)
Definition dashes_head : re := seqs [Bol; text (lit "---"); ws tb].
Definition dashes_tail : re := seqs [ws tb; text (lit "---"); Eol].
(** [^润色后[:：]?\s*] and the three like it *)
Definition prefix_pattern (word : str) : re :=
  seqs [Bol; text word; opt colon; ws tb].
Definition prefixes : list re :=
  map prefix_pattern [lit "润色后"; lit "润色结果"; lit "优化后"; lit "修改后"].
(** [^\s*字幕\s*#?\s*\d+\s*(?:\([^\n\)]*\))?\s*[:：]\s*] *)
Definition label_head : re :=
  seqs [Bol; ws tb; text (lit "字幕"); ws tb; opt (chr HASH); ws tb;
        plus (d tb); ws tb; paren_note; ws tb; colon; ws tb].
(** [^\s*#\s*\d+\s*(?:\([^\n\)]*\))?\s*[:：]\s*] and the same up to [$] *)
Definition hash_head : re :=
  seqs [Bol; ws tb; chr HASH; ws tb; plus (d tb); ws tb; paren_note; ws tb;
        colon; ws tb].
Definition hash_head_line : re := Seq hash_head Eol.
(** [^\s*T\s*-->\s*T\s*$] and [^\s*T\s*$] *)
Definition timecode_line : re :=
  seqs [Bol; ws tb; timestamp tb; ws tb; arrow; ws tb; timestamp tb; ws tb; Eol].
Definition single_time : re := seqs [Bol; ws tb; timestamp tb; ws tb; Eol].
(** [\s*T\s*-->\s*T\s*] and [\s*T\s*] *)
Definition inline_timecode : re :=
  seqs [ws tb; timestamp tb; ws tb; arrow; ws tb; timestamp tb; ws tb].
Definition inline_single_time : re := seqs [ws tb; timestamp tb; ws tb].
(** [^\s*\d+\s*$] *)
Definition digit_line : re := seqs [Bol; ws tb; plus (d tb); ws tb; Eol].
(** [\n\s*\n] *)
Definition blank_lines : re := seqs [chr NL; ws tb; chr NL].
(** [^\s+|\s+$] *)
Definition edge_space : re := Alt (Seq Bol (plus (s tb))) (Seq (plus (s tb)) Eol).
(** [^\s*(?:字幕\s*#?\s*\d+|#\s*\d+)\s*(?:\([^\n\)]*\))?\s*[:：]\s*] *)
Definition junk_prefix : re :=
  seqs [Bol; ws tb;
        Alt (seqs [text (lit "字幕"); ws tb; opt (chr HASH); ws tb; plus (d tb)])
            (seqs [chr HASH; ws tb; plus (d tb)]);
        ws tb; paren_note; ws tb; colon; ws tb].
(** [\n{3,}] *)
Definition newlines3 : re := seqs [chr NL; chr NL; chr NL; star (chr NL)].

(** *** Contamination test *)

(** [_bad] of [polish_subtitle_batch] *)
Definition _bad (t : option str) : bool :=
  match t with
  | None => true
  | Some x => found timecode x || found bare_number_line x
              || found subtitle_label x
  end.

(** *** Cleanup of one polished text *)

Definition closers : str := lit "”’」』）)】]〕》〉>" ++ [DQUOTE; SQUOTE].
Definition is_closer (c : N) : bool := existsb (N.eqb c) closers.
Definition FULL_STOP : N := 12290.

Fixpoint span_closers (rs : str) : str * str :=
  match rs with
  | c :: t => if is_closer c then let '(a, b) := span_closers t in (c :: a, b)
              else ([], rs)
  | [] => ([], [])
  end.

(** [strip_one_line] of [_strip_terminal_chinese_periods]; the line is
    scanned from its end. *)
Definition strip_one_line (line : str) : str :=
  let sline := rstrip tb line in
  match sline with
  | [] => line
  | _ =>
    let '(trail, rest) := span_closers (rev sline) in
    match rest with
    | c :: before_stop =>
      if c =? FULL_STOP then
        let candidate := rstrip tb (rev before_stop ++ rev trail) in
        if found (Cls (fun x => is_word tb x || cjk_ideograph x)) candidate
        then candidate else sline
      else sline
    | [] => sline
    end
  end.

(** [_strip_terminal_chinese_periods] *)
Definition _strip_terminal_chinese_periods (t : str) : str :=
  match t with
  | [] => t
  | _ => join [NL] (map strip_one_line (splitlines t))
  end.

(** [convert_quotes_to_corner]: the stack holds [true] for an open curly
    quote and [false] for an open straight quote. *)
Definition pair_for_depth (depth : nat) : N * N :=
  if ((Nat.max depth 1 - 1) mod 2 =? 0)%nat then (12300, 12301) else (12302, 12303).

Definition looks_like_inch_mark (prev_ch next_ch : option N) : bool :=
  match prev_ch with
  | None => false
  | Some p =>
    if negb (ascii_digit p) then false
    else match next_ch with
         | None => true
         | Some n => is_space tb n || is_alpha tb n || ascii_digit n
         end
  end.

Fixpoint corner_loop (prev : option N) (stack : list bool) (t : str) : str :=
  match t with
  | [] => []
  | ch :: rest =>
    let next := head rest in
    if ch =? 8220 then
      fst (pair_for_depth (length stack + 1)) :: corner_loop (Some ch) (true :: stack) rest
    else if ch =? 8221 then
      match stack with
      | true :: below =>
        snd (pair_for_depth (length stack)) :: corner_loop (Some ch) below rest
      | _ => ch :: corner_loop (Some ch) stack rest
      end
    else if ch =? DQUOTE then
      if looks_like_inch_mark prev next
         || match prev with Some p => p =? 92 | None => false end
      then ch :: corner_loop (Some ch) stack rest
      else
        match stack with
        | false :: below =>
          snd (pair_for_depth (length stack)) :: corner_loop (Some ch) below rest
        | _ =>
          fst (pair_for_depth (length stack + 1))
            :: corner_loop (Some ch) (false :: stack) rest
        end
    else ch :: corner_loop (Some ch) stack rest
  end.

Definition convert_quotes_to_corner (t : str) : str := corner_loop None [] t.

(** [_strip_wrapping_ascii_quotes] *)
Definition _strip_wrapping_ascii_quotes (line : str) : str :=
  let x := strip tb line in
  if (2 <=? length x)%nat
     && ((starts_with [DQUOTE] x && ends_with [DQUOTE] x)
         || (starts_with [SQUOTE] x && ends_with [SQUOTE] x))
  then strip tb (removelast (tl x)) else x.

(** The part of [clean_polished_content] before the timestamps are taken
    out: separators, dashes, prefixes and labels. *)
Definition clean_head (content : str) : str :=
  let r0 := strip tb content in
  let r1 := sub separator_token [] r0 in
  let r2 := sub sep_line [] r1 in
  let r3 := sub dashes_head [] r2 in
  let r4 := sub dashes_tail [] r3 in
  let r5 := fold_left (fun r p => sub p [] r) prefixes r4 in
  let r6 := sub label_head [] r5 in
  let r7 := sub hash_head [] r6 in
  sub hash_head_line [] r7.

(** The four substitutions that take timestamps out. *)
Definition clean_timecodes (r : str) : str :=
  let r1 := sub timecode_line [] r in
  let r2 := sub single_time [] r1 in
  let r3 := sub inline_timecode [SP] r2 in
  sub inline_single_time [SP] r3.

(** The rest of [clean_polished_content]. *)
Definition clean_tail (corner_quotes : bool) (r : str) : str :=
  let r1 := join [NL] (map _strip_wrapping_ascii_quotes (splitlines r)) in
  let r2 := sub digit_line [] r1 in
  let r3 := sub blank_lines [NL] r2 in
  let r4 := sub edge_space [] r3 in
  let r5 := if corner_quotes then convert_quotes_to_corner r4 else r4 in
  strip tb (_strip_terminal_chinese_periods r5).

(** [SRTPolisher.clean_polished_content]; [None] and the empty text give
    the empty text. *)
Definition clean_polished_content (corner_quotes : bool) (content : option str)
  : str :=
  match content with
  | None => []
  | Some [] => []
  | Some c => clean_tail corner_quotes (clean_timecodes (clean_head c))
  end.

(** *** The batch call and its recovery *)

(** [json.loads] followed by the test [isinstance(data, list)] and by
    [str(x)] on every element: [Some] of the elements when the text
    decodes to an array, [None] when decoding raises or gives something
    else.  The decoder belongs to the interpreter and is a parameter. *)
Context (json_loads_list : str -> option (list str)).

(** [_parse_json_array] *)
Definition _parse_json_array (t : option str) (expected : nat)
  : option (list str) :=
  match t with
  | None => None
  | Some x =>
    match json_loads_list x with
    | Some data =>
      if (length data =? expected)%nat then Some (map (strip tb) data) else None
    | None => None
    end
  end.

Definition call_translate (translate : nat -> translate_outcome)
  : M (option str) :=
  let* r := remote translate in
  match r with
  | TRaise => raise
  | TReturn x => ret x
  end.

(** The loop that puts the original content where nothing usable came. *)
Definition fill_missing (polished_contents : list (option str))
    (batch_entries : list SRTEntry) : list str :=
  imap (fun i p =>
          match p with
          | Some ((_ :: _) as x) => x
          | _ => match batch_entries !! i with
                 | Some e => content e
                 | None => []
                 end
          end) polished_contents.

(** Truncation or padding to the size of the batch. *)
Definition heal_length (polished_contents : list str)
    (batch_entries : list SRTEntry) : list str :=
  if (length batch_entries <? length polished_contents)%nat
  then take (length batch_entries) polished_contents
  else if (length polished_contents <? length batch_entries)%nat
  then polished_contents
       ++ map content (drop (length polished_contents) batch_entries)
  else polished_contents.

Definition append_results (a b : option (list SRTEntry))
  : option (list SRTEntry) :=
  match a, b with
  | Some x, Some y => Some (x ++ y)
  | _, _ => None
  end.

(** *** What precedes a request *)

(** Before a request is sent the time fields are read
    ([parse_time_to_seconds]: [int] on the four parts of a field cut at
    its colons and comma), durations and character counts are computed
    with floating-point numbers, and the prompts are put together.  The
    values only reach the prompts; the control flow depends on whether
    one of these steps raises.  That is a matter of the interpreter's
    [int] and floating-point arithmetic and of the configuration (the
    policy and the user's prompt, which [str.format] reads), and is
    given by parameters:
    - [duration_raises e]: [calculate_duration(e)] raises, as it does
      when a time field of [e] is not made of four integers;
    - [char_count_raises e]: [calculate_optimal_char_count] raises on
      the duration of [e];
    - [polish_prompt_raises]: [build_polish_prompt] raises;
    - [system_message_raises]: [build_polish_system_message] raises. *)
Record preparation := Preparation {
  duration_raises : SRTEntry -> bool;
  char_count_raises : SRTEntry -> bool;
  polish_prompt_raises : bool;
  system_message_raises : bool
}.
Context (pr : preparation).

Definition raise_when (b : bool) : M unit := if b then raise else ret tt.

(** [entries[i]] for an index that is not negative. *)
Definition item (entries : list SRTEntry) (i : nat) : M SRTEntry :=
  match entries !! i with
  | Some e => ret e
  | None => raise
  end.

Definition calculate_duration (entry : SRTEntry) : M unit :=
  raise_when (duration_raises pr entry).

Definition calculate_optimal_char_count (entry : SRTEntry) : M unit :=
  raise_when (char_count_raises pr entry).

(** [SRTPolisher.analyze_subtitle_context]: the duration and the counts
    of the target, then the duration of the entry before it and of the
    entry after it, when there is one. *)
Definition analyze_subtitle_context (entries : list SRTEntry)
    (target_idx : nat) : M unit :=
  let* target_entry := item entries target_idx in
  do calculate_duration target_entry then
  do calculate_optimal_char_count target_entry then
  do (if (0 <? target_idx)%nat
      then let* prev_entry := item entries (target_idx - 1) in
           calculate_duration prev_entry
      else ret tt) then
  if (target_idx <? length entries - 1)%nat
  then let* next_entry := item entries (target_idx + 1) in
       calculate_duration next_entry
  else ret tt.

(** [SRTPolisher.polish_subtitle_batch].  The recursion of the source (a
    retry of the same batch, or two halves) is bounded by [fuel]; [None]
    is returned only when the fuel runs out.  Indices are natural
    numbers, so the test [start_idx < 0] has no counterpart.  Inside
    each [try] the analysis and the prompts come first, and the handler
    runs when one of them raises; the text of the prompts only reaches
    the remote service and is not modelled, nor is the lowered
    temperature of the strict retry. *)
Fixpoint polish_subtitle_batch (fuel : nat) (corner_quotes : bool)
    (translate : nat -> translate_outcome) (entries : list SRTEntry)
    (start_idx end_idx retry_count : nat) {struct fuel}
  : M (option (list SRTEntry)) :=
  match fuel with
  | O => ret None
  | S f =>
    if (end_idx <=? start_idx)%nat || (length entries <? end_idx)%nat
    then ret (Some [])
    else
      let batch_entries := take (end_idx - start_idx) (drop start_idx entries) in
      let n := length batch_entries in
      let halves :=
        let mid_point := ((start_idx + end_idx) / 2)%nat in
        let* first_half :=
          polish_subtitle_batch f corner_quotes translate entries
                                start_idx mid_point 0 in
        let* second_half :=
          polish_subtitle_batch f corner_quotes translate entries
                                mid_point end_idx 0 in
        ret (append_results first_half second_half) in
      match batch_entries with
      | [entry] =>
        try_except
          (do analyze_subtitle_context entries start_idx then
           do raise_when (system_message_raises pr) then
           let* polished := call_translate translate in
           ret (Some [mk_entry tb (number entry) (start_time entry)
                               (end_time entry)
                               (clean_polished_content corner_quotes polished)]))
          (ret (Some [entry]))
      | _ =>
        try_except
          (do map_m (analyze_subtitle_context entries)
                    (seq start_idx (end_idx - start_idx)) then
           do raise_when (polish_prompt_raises pr) then
           do raise_when (system_message_raises pr) then
           let* polished_combined := call_translate translate in
           let* parsed :=
             match _parse_json_array polished_combined n with
             | Some l => ret (Some l)
             | None =>
               let* strict_resp := call_translate translate in
               ret (_parse_json_array strict_resp n)
             end in
           let polished_contents : list (option str) :=
             match parsed with
             | Some l => map Some l
             | None => replicate n None
             end in
           if existsb _bad polished_contents && (retry_count <? 10)%nat
           then polish_subtitle_batch f corner_quotes translate entries
                                      start_idx end_idx (retry_count + 1)
           else
             let filled :=
               heal_length (fill_missing polished_contents batch_entries)
                           batch_entries in
             if negb (length filled =? n)%nat then
               if (2 <? n)%nat then halves
               else
                 let* singles :=
                   map_m (fun i =>
                            polish_subtitle_batch f corner_quotes translate
                                                  entries i (i + 1) 0)
                         (seq start_idx (end_idx - start_idx)) in
                 ret (foldr append_results (Some []) singles)
             else
               ret (Some (map (fun '(entry, p) =>
                                 mk_entry tb (number entry) (start_time entry)
                                          (end_time entry)
                                          (clean_polished_content corner_quotes
                                                                  (Some p)))
                              (zip batch_entries filled))))
          (if (1 <? end_idx - start_idx)%nat then halves
           else ret (option_map (fun e => [e]) (entries !! start_idx)))
      end
  end.

(** Fuel that lets [polish_subtitle_batch] finish. *)
Definition polish_fuel (start_idx end_idx : nat) : nat :=
  (11 * (end_idx - start_idx) + 1)%nat.

(** *** Writing, batches, merging *)

(** The second cleanup, applied by [write_srt_entries] to every entry. *)
Definition write_clean (t : str) : str :=
  let t1 := sub junk_prefix [] t in
  let t2 := sub inline_timecode [SP] t1 in
  let t3 := sub inline_single_time [SP] t2 in
  let t4 := sub sep_line [] t3 in
  let t5 := sub separator_token [] t4 in
  let t6 := sub digit_line [] t5 in
  let t7 := sub newlines3 [NL; NL] t6 in
  strip tb t7.

Definition write_clean_entry (e : SRTEntry) : SRTEntry :=
  mk_entry tb (number e) (start_time e) (end_time e) (write_clean (content e)).

(** The text that [SRTPolisher.write_srt_entries] writes. *)
Definition write_srt_entries (entries : list SRTEntry) : str :=
  write_srt (map write_clean_entry entries).

(** The bounds of a batch in [process_batch] and the number of batches in
    [polish_srt_file]. *)
Definition batch_start (batch_size batch_number : nat) : nat :=
  ((batch_number - 1) * batch_size)%nat.
Definition batch_end (batch_size total batch_number : nat) : nat :=
  Nat.min (batch_start batch_size batch_number + batch_size) total.
Definition total_batches (batch_size total : nat) : nat :=
  ((total + batch_size - 1) / batch_size)%nat.

(** A batch file on disk: absent, present but failing to be read, or
    present with a text. *)
Inductive batch_file :=
| Absent
| Unreadable
| Present (t : str).

(** The loop of [merge_batch_files] over [range(1, total_batches + 1)]:
    files that do not exist are passed over, and so are those whose
    parsing raises. *)
Definition collect_batches (files : nat -> batch_file) (total_batches : nat)
  : list SRTEntry :=
  flat_map (fun batch_number =>
              match files batch_number with
              | Present t => parse_srt_nl tb t
              | Absent | Unreadable => []
              end) (seq 1 total_batches).

(** [SRTPolisher.merge_batch_files]: the text written to the output file,
    or the exception of a failed write, which is raised again. *)
Definition merge_batch_files (files : nat -> batch_file)
    (output_writable : bool) (total_batches : nat) : outcome str :=
  let all_entries := sort_by_number (collect_batches files total_batches) in
  if output_writable then Returned (write_srt_entries all_entries) else Raised.

(** *** The older parser of a batch answer *)

(** [re.split(pattern, text)] for a pattern without groups: the texts
    between the matches.  None of the patterns it is used with matches
    the empty text; such a match is passed over. *)
Fixpoint split_at (r : re) (fuel : nat) (bef aft : str) (cur : str)
  : list str :=
  match fuel with
  | O => [rev cur ++ aft]
  | S f =>
    let move_on :=
      match aft with
      | [] => [rev cur]
      | x :: t => split_at r f (x :: bef) t (x :: cur)
      end in
    match match_at r (Cur bef aft) with
    | Some (z', _) =>
      if (length (after z') <? length aft)%nat
      then rev cur :: split_at r f (before z') (after z') []
      else move_on
    | None => move_on
    end
  end.

Definition re_split (r : re) (s : str) : list str :=
  split_at r (S (length s)) [] s [].

(** [===SUBTITLE_SEPARATOR_\d+===], [===SUBTITLE_SEPARATOR===], [---]
    and [##] *)
Definition separator_patterns : list re :=
  [ seqs [text (lit "===SUBTITLE_SEPARATOR_"); plus (d tb); text (lit "===")];
    text (lit "===SUBTITLE_SEPARATOR===");
    text (lit "---");
    text (lit "##") ].

(** The first pattern whose non-blank parts are as many as expected. *)
Fixpoint split_by_patterns (pats : list re) (polished_text : str)
    (expected_count : nat) : option (list str) :=
  match pats with
  | [] => None
  | p :: rest =>
    let parts := List.filter (fun x => negb (eqs (strip tb x) []))
                             (re_split p polished_text) in
    if (length parts =? expected_count)%nat then Some (map (strip tb) parts)
    else split_by_patterns rest polished_text expected_count
  end.

(** The loop that puts the last non-empty block, or else the whole
    text, where a block is empty. *)
Fixpoint fill_empty (fallback : str) (last_non_empty : option str)
    (result : list str) : list str :=
  match result with
  | [] => []
  | val :: rest =>
    if negb (eqs val [])
    then val :: fill_empty fallback (Some val) rest
    else default fallback last_non_empty
         :: fill_empty fallback last_non_empty rest
  end.

(** [SRTPolisher.parse_polished_result]; the division by
    [expected_count] raises when it is zero. *)
Definition parse_polished_result (polished_text : str) (expected_count : nat)
  : outcome (list str) :=
  match split_by_patterns separator_patterns polished_text expected_count with
  | Some parts => Returned parts
  | None =>
    let lines := split_nl (strip tb polished_text) in
    if (expected_count <=? length lines)%nat then
      if (expected_count =? 0)%nat then Raised
      else
        let lines_per_subtitle := (length lines / expected_count)%nat in
        let result :=
          map (fun i =>
                 let start_line := (i * lines_per_subtitle)%nat in
                 let end_line :=
                   if (i <? expected_count - 1)%nat
                   then ((i + 1) * lines_per_subtitle)%nat
                   else length lines in
                 strip tb (join [NL] (take (end_line - start_line)
                                           (drop start_line lines))))
              (seq 0 expected_count) in
        Returned (fill_empty (strip tb polished_text) None result)
    else Returned (replicate expected_count (strip tb polished_text))
  end.

End WithTables.

(** *** Verification *)

(** One difference between the times of two entries. *)
Inductive time_issue :=
| StartTimeMismatch
| EndTimeMismatch.

(** [{e.number: e for e in entries}]: a later entry replaces an earlier
    one with the same number. *)
Definition entry_dict (entries : list SRTEntry) : gmap N SRTEntry :=
  foldl (fun m e => <[number e := e]> m) ∅ entries.

(** [sorted(list(numbers))] *)
Definition sorted_numbers (numbers : gset N) : list N :=
  merge_sort N.le (elements numbers).

Definition time_issues (src dst : SRTEntry) : list time_issue :=
  (if eqs (start_time src) (start_time dst) then [] else [StartTimeMismatch])
  ++ (if eqs (end_time src) (end_time dst) then [] else [EndTimeMismatch]).

(** The loop of [auto_verify_result] over the numbers both files have. *)
Definition time_mismatches (source_dict translated_dict : gmap N SRTEntry)
  : list (N * list time_issue) :=
  flat_map (fun number =>
              match source_dict !! number, translated_dict !! number with
              | Some src, Some dst =>
                match time_issues src dst with
                | [] => []
                | issues => [(number, issues)]
                end
              | _, _ => []
              end)
           (sorted_numbers (dom source_dict ∩ dom translated_dict)).

Definition is_nil {A} (l : list A) : bool :=
  match l with [] => true | _ => false end.

(** [SRTPolisher.auto_verify_result], on the entries parsed from the two
    files: the value of [perfect]. *)
Definition auto_verify_result (source_entries translated_entries : list SRTEntry)
  : bool :=
  let source_dict := entry_dict source_entries in
  let translated_dict := entry_dict translated_entries in
  let source_numbers := dom source_dict in
  let translated_numbers := dom translated_dict in
  let missing_from_translated :=
    sorted_numbers (source_numbers ∖ translated_numbers) in
  let extra_in_translated :=
    sorted_numbers (translated_numbers ∖ source_numbers) in
  let mismatches := time_mismatches source_dict translated_dict in
  let total_source := length source_entries in
  let total_translated := length translated_entries in
  (total_source =? total_translated)%nat
  && is_nil missing_from_translated
  && is_nil extra_in_translated
  && is_nil mismatches.

End Polisher.

(** ** [srt_checker.py] *)

Module Checker.
Import Py Srt Polisher.

(** The state of the loop of [check_srt_files] over the translated
    entries. *)
Record check_state := CheckState {
  perfect_match : bool;
  mismatches : list (N * list time_issue);
  missing_numbers : list N
}.

Definition check_entry (source_dict : gmap N SRTEntry) (st : check_state)
    (trans_entry : SRTEntry) : check_state :=
  match source_dict !! number trans_entry with
  | None =>
    CheckState false (mismatches st)
               (missing_numbers st ++ [number trans_entry])
  | Some source_entry =>
    match time_issues source_entry trans_entry with
    | [] => st
    | issues =>
      CheckState false (mismatches st ++ [(number trans_entry, issues)])
                 (missing_numbers st)
    end
  end.

(** [check_srt_files], on the entries parsed from the two files: the
    value of [perfect_match] that is returned. *)
Definition check_srt_files (source_entries translated_entries : list SRTEntry)
  : bool :=
  let start :=
    CheckState (length source_entries =? length translated_entries)%nat [] [] in
  let source_dict := entry_dict source_entries in
  let st := foldl (check_entry source_dict) start translated_entries in
  let translated_numbers : gset N := list_to_set (map number translated_entries) in
  let source_numbers : gset N := list_to_set (map number source_entries) in
  let missing_from_translated := source_numbers ∖ translated_numbers in
  if bool_decide (missing_from_translated = ∅) then perfect_match st else false.

End Checker.

(** ** The difference display of [srt_gui.py] *)

Module Gui.
Import Py.

(** The tags of [difflib.SequenceMatcher.get_opcodes]. *)
Inductive tag := equal | delete | insert | replace.

Definition opcode : Type := tag * nat * nat * nat * nat.

(** One piece of an annotated text. *)
Inductive part :=
| Plain (t : str)
| Deleted (t : str)
| Inserted (t : str).

Definition part_text (p : part) : str :=
  match p with Plain t | Deleted t | Inserted t => t end.

(** [f"[-{t}-]"] and [f"[+{t}+]"] *)
Definition render_part (p : part) : str :=
  match p with
  | Plain t => t
  | Deleted t => lit "[-" ++ t ++ lit "-]"
  | Inserted t => lit "[+" ++ t ++ lit "+]"
  end.

(** [t[i:j]] *)
Definition slice (t : str) (i j : nat) : str := take (j - i) (drop i t).

Section WithTables.
Context (tb : tables).
(** [difflib.SequenceMatcher(None, a, b).get_opcodes()], a library
    routine taken as a parameter. *)
Context (get_opcodes : str -> str -> list opcode).

(** [original.replace('\n', ' ').strip()] *)
Definition clean_text (t : str) : str := strip tb (replace_chr NL SP t).

Definition original_part (orig_clean : str) (op : opcode) : list part :=
  let '(tg, i1, i2, _, _) := op in
  match tg with
  | equal => [Plain (slice orig_clean i1 i2)]
  | delete => [Deleted (slice orig_clean i1 i2)]
  | insert => []
  | replace => [Deleted (slice orig_clean i1 i2)]
  end.

Definition corrected_part (corr_clean : str) (op : opcode) : list part :=
  let '(tg, _, _, j1, j2) := op in
  match tg with
  | equal => [Plain (slice corr_clean j1 j2)]
  | delete => []
  | insert => [Inserted (slice corr_clean j1 j2)]
  | replace => [Inserted (slice corr_clean j1 j2)]
  end.

(** The two lists [original_parts] and [corrected_parts] of
    [highlight_differences]. *)
Definition highlight_parts (original corrected : str) : list part * list part :=
  let orig_clean := clean_text original in
  let corr_clean := clean_text corrected in
  if eqs orig_clean corr_clean then ([Plain orig_clean], [Plain corr_clean])
  else
    let ops := get_opcodes orig_clean corr_clean in
    (flat_map (original_part orig_clean) ops,
     flat_map (corrected_part corr_clean) ops).

(** [highlight_differences]: the two joined texts. *)
Definition highlight_differences (original corrected : str) : str * str :=
  let '(original_parts, corrected_parts) := highlight_parts original corrected in
  (concat (map render_part original_parts),
   concat (map render_part corrected_parts)).

End WithTables.
End Gui.

(** ** Notions of the specification *)

Module Spec.
Import Py Re Srt.

(** The identity fields of a record. *)
Definition identity (e : SRTEntry) : N * str * str :=
  (number e, start_time e, end_time e).

(** [ceil(n / b)] *)
Definition ceil_div (n b : nat) : nat :=
  (if n mod b =? 0 then n / b else n / b + 1)%nat.

Section WithTables.
Context (tb : tables).

(** A text of the form [HH:MM:SS,mmm]. *)
Definition is_timestamp (t : str) : bool :=
  match t with
  | [h1; h2; c1; m1; m2; c2; s1; s2; c3; f1; f2; f3] =>
    is_digit tb h1 && is_digit tb h2 && (c1 =? 58)
    && is_digit tb m1 && is_digit tb m2 && (c2 =? 58)
    && is_digit tb s1 && is_digit tb s2 && (c3 =? 44)
    && is_digit tb f1 && is_digit tb f2 && is_digit tb f3
  | _ => false
  end.

(** A well-formed record as the round-trip property words it: a positive
    number, two timestamps, a content that is stripped and not empty. *)
Definition well_formed (e : SRTEntry) : Prop :=
  0 < number e
  /\ is_timestamp (start_time e) = true
  /\ is_timestamp (end_time e) = true
  /\ content e <> []
  /\ strip tb (content e) = content e.

(** No line of the content is empty. *)
Definition no_empty_line (t : str) : Prop :=
  Forall (fun l => l <> []) (split_nl t).

(** Whitespace-collapsed normalization: every run of whitespace becomes
    one space and the ends are trimmed. *)
Fixpoint words (cur : str) (t : str) : list str :=
  match t with
  | [] => match cur with [] => [] | _ => [rev cur] end
  | c :: rest =>
    if is_space tb c
    then match cur with [] => words [] rest | _ => rev cur :: words [] rest end
    else words (c :: cur) rest
  end.

Definition collapse_whitespace (t : str) : str := join [SP] (words [] t).

End WithTables.

(** The numbers present in a file. *)
Definition numbers (es : list SRTEntry) : gset N := list_to_set (map number es).

(** [missing] and [extra] of the verification. *)
Definition missing (source output : list SRTEntry) : gset N :=
  numbers source ∖ numbers output.
Definition extra (source output : list SRTEntry) : gset N :=
  numbers output ∖ numbers source.

(** The record a file holds under a number, [file[n]]: the last one
    read when the number occurs more than once. *)
Definition record_numbered (n : N) (es : list SRTEntry) : option SRTEntry :=
  last (List.filter (fun e => number e =? n) es).

(** [n] is a time mismatch: both files hold it and the start or the end
    time differs. *)
Definition time_mismatch (source output : list SRTEntry) (n : N) : Prop :=
  exists src dst,
    record_numbered n source = Some src
    /\ record_numbered n output = Some dst
    /\ (start_time src <> start_time dst \/ end_time src <> end_time dst).

(** A record [t] of the output is a time mismatch when every record is
    looked at: the source holds its number, with another start or end
    time. *)
Definition entry_mismatch (source : list SRTEntry) (t : SRTEntry) : Prop :=
  exists src,
    record_numbered (number t) source = Some src
    /\ (start_time src <> start_time t \/ end_time src <> end_time t).

(** A job is perfect. *)
Definition perfect (source output : list SRTEntry) : Prop :=
  missing source output = ∅
  /\ extra source output = ∅
  /\ (forall n, ~ time_mismatch source output n)
  /\ length source = length output.

(** The contract of [get_opcodes] in the documentation of [difflib]: the
    first tuple starts at [(0, 0)], every tuple starts where the one
    before it ends, the last one ends at the two lengths; [equal] joins
    equal slices, [delete] takes nothing of the second text and [insert]
    nothing of the first. *)
Fixpoint opcodes_from (a b : str) (i j : nat) (ops : list Gui.opcode) : Prop :=
  match ops with
  | [] => i = length a /\ j = length b
  | (tg, i1, i2, j1, j2) :: rest =>
    i1 = i /\ j1 = j /\ (i1 <= i2 <= length a)%nat /\ (j1 <= j2 <= length b)%nat
    /\ match tg with
       | Gui.equal => Gui.slice a i1 i2 = Gui.slice b j1 j2
       | Gui.delete => j1 = j2
       | Gui.insert => i1 = i2
       | Gui.replace => True
       end
    /\ opcodes_from a b i2 j2 rest
  end.

Definition valid_opcodes (a b : str) (ops : list Gui.opcode) : Prop :=
  opcodes_from a b 0 0 ops.

End Spec.

(** ** Instances used to evaluate examples *)

Module Examples.
Import Py Srt.

(** The text of a JSON array of string literals. *)
Definition json_array (items : list str) : str :=
  [91] ++ join (lit ", ") (map (fun x => DQUOTE :: x ++ [DQUOTE]) items) ++ [93].

Definition json_space (c : N) : bool :=
  (c =? 32) || (c =? 9) || (c =? 10) || (c =? 13).

Fixpoint skip_json_space (t : str) : str :=
  match t with
  | c :: rest => if json_space c then skip_json_space rest else t
  | [] => []
  end.

(** A string literal without escapes, up to its closing quote. *)
Fixpoint json_string (cur : str) (t : str) : option (str * str) :=
  match t with
  | [] => None
  | c :: rest =>
    if c =? DQUOTE then Some (rev cur, rest)
    else if (c =? 92) || (c <? 32) then None
    else json_string (c :: cur) rest
  end.

Fixpoint json_items (fuel : nat) (t : str) : option (list str) :=
  match fuel with
  | O => None
  | S f =>
    match skip_json_space t with
    | c :: rest =>
      if c =? DQUOTE then
        match json_string [] rest with
        | Some (x, rest') =>
          match skip_json_space rest' with
          | d :: rest'' =>
            if d =? 44 then option_map (cons x) (json_items f rest'')
            else if d =? 93 then
              match skip_json_space rest'' with
              | [] => Some [x]
              | _ => None
              end
            else None
          | [] => None
          end
        | None => None
        end
      else None
    | [] => None
    end
  end.

(** A decoder for the arrays of plain string literals, on which it agrees
    with [json.loads]; any other text is refused. *)
Definition json_loads_list (t : str) : option (list str) :=
  match skip_json_space t with
  | c :: rest =>
    if c =? 91 then
      match skip_json_space rest with
      | d :: rest' =>
        if d =? 93 then
          match skip_json_space rest' with [] => Some [] | _ => None end
        else json_items (length t) rest
      | [] => None
      end
    else None
  | [] => None
  end.

(** The preparation of a request when the prompts are built without an
    exception: fields of the form [HH:MM:SS,mmm] are read without one
    and give a duration that is counted without one; any other field is
    taken to raise, as does the field of three parts that is evaluated
    below. *)
Definition preparation : Polisher.preparation :=
  Polisher.Preparation
    (fun e => negb (Spec.is_timestamp py_tables (start_time e)
                    && Spec.is_timestamp py_tables (end_time e)))
    (fun _ => false) false false.

End Examples.

(** ** Notions used in the statements *)

Module Notions.
Import Py Re Srt Eff.

(** The delay after attempt [attempt]: [min(2 ** attempt, 10)]. *)
Definition backoff (attempt : nat) : N := N.min (2 ^ N.of_nat attempt) 10.

(** The world after [n] failed attempts: [n] calls and a delay after each
    attempt but the last. *)
Definition world_after (w : world) (n : nat) : world :=
  World (calls w + n) (rev (map backoff (seq 0 (n - 1))) ++ slept w).

(** The world in which an attempt of a retry loop starts when the [k]
    attempts before it have raised and [delay] seconds were slept after
    each of them; [None] when one of them has returned. *)
Fixpoint after_failures {A} (attempt : M A) (delay : N) (k : nat) (w : world)
  : option world :=
  match k with
  | O => Some w
  | S k' =>
    match attempt w with
    | (Raised, w1) =>
      after_failures attempt delay k' (World (calls w1) (delay :: slept w1))
    | (Returned _, _) => None
    end
  end.

(** An entry of the output passes the loop of the checker: the source
    holds its number with the same two times. *)
Definition entry_passes (source : list SRTEntry) (t : SRTEntry) : Prop :=
  exists src, Spec.record_numbered (number t) source = Some src
              /\ start_time src = start_time t /\ end_time src = end_time t.

(** What a finished call of [polish_subtitle_batch] gives: as many
    entries as the slice has, with the identity fields of the slice, in
    order. *)
Definition finishes_on (entries : list SRTEntry) (start_idx end_idx : nat)
    (r : outcome (option (list SRTEntry)) * world) : Prop :=
  exists l w', r = (Returned (Some l), w')
    /\ map Spec.identity l
       = map Spec.identity (take (end_idx - start_idx) (drop start_idx entries)).

(** The analysis of the entry at [target_idx] raises. *)
Definition analysis_raises (pr : Polisher.preparation) (entries : list SRTEntry)
    (target_idx : nat) : bool :=
  match Polisher.analyze_subtitle_context pr entries target_idx world0 with
  | (Raised, _) => true
  | (Returned _, _) => false
  end.

(** Nothing raises before the request for the records from [start_idx]
    up to [end_idx] is sent: every one of them is analysed and the
    prompts are built. *)
Definition batch_prepared (pr : Polisher.preparation) (entries : list SRTEntry)
    (start_idx end_idx : nat) : bool :=
  forallb (fun i => negb (analysis_raises pr entries i))
          (seq start_idx (end_idx - start_idx))
  && negb (Polisher.polish_prompt_raises pr)
  && negb (Polisher.system_message_raises pr).

(** The text that is left does not start with whitespace. *)
Definition starts_nonspace (tb : tables) (rest : str) : Prop :=
  match rest with [] => True | y :: _ => is_space tb y = false end.

(** A line of a content: not empty, without a line feed. *)
Definition line_ok (l : str) : Prop := l <> [] /\ NL ∉ l.

(** Lines, each one ended by a line feed. *)
Definition text_of (ls : list str) : str := concat (map (fun l => l ++ [NL]) ls).

(** The body of group 4 of [SRT_PATTERN], [.+(?:\n|$)]. *)
Definition line_body : re := Seq (plus dot) (Alt (chr NL) Eol).

(** The groups of the match of a rendered record. *)
Definition entry_caps (e : SRTEntry) : caps :=
  [(4, content e ++ [NL]); (3, end_time e); (2, start_time e);
   (1, str_of_N (number e))]%nat.

(** A record for the examples. *)
Definition sample_entry (n : N) (t : string) : SRTEntry :=
  Entry n (lit "00:00:01,000") (lit "00:00:02,000") (lit t).

(** The order of the merged records: by sequence number. *)
Definition by_number (a b : SRTEntry) : Prop := number a <= number b.

(** What the corrector returns for an entry when the correction gives no
    result: the entry itself when its content needs no correction and
    formatting leaves it as it is, else a new entry with the formatted
    content. *)
Definition formatted_entry (tb : tables) (o : Corrector.format_options)
    (entry : SRTEntry) : SRTEntry :=
  let formatted := Corrector.format_subtitle_content tb o (content entry) in
  if negb (Corrector._needs_correction formatted)
     && eqs formatted (content entry)
  then entry
  else mk_entry tb (number entry) (start_time entry) (end_time entry) formatted.

(** What the polisher returns for an entry of a batch when it falls back
    on the original content: the content goes through the cleanup. *)
Definition cleaned_entry (tb : tables) (corner_quotes : bool)
    (entry : SRTEntry) : SRTEntry :=
  mk_entry tb (number entry) (start_time entry) (end_time entry)
           (Polisher.clean_polished_content tb corner_quotes
                                            (Some (content entry))).

(** A piece that is not tagged as inserted, resp. as deleted. *)
Definition not_inserted (p : Gui.part) : Prop :=
  match p with Gui.Inserted _ => False | _ => True end.
Definition not_deleted (p : Gui.part) : Prop :=
  match p with Gui.Deleted _ => False | _ => True end.

(** An annotated text without its tags. *)
Definition untagged (ps : list Gui.part) : str := concat (map Gui.part_text ps).

End Notions.

(* ================================================================== *)
(** * Part II: properties                                              *)
(* ================================================================== *)

(** ** Facts about strings *)

Section StringFacts.
Import Py.
Context (tb : tables) (Htb : tables_ok tb).

Lemma space_NL : is_space tb NL = true.
Proof. by rewrite (space_ascii tb Htb). Qed.

Lemma space_SP : is_space tb SP = true.
Proof. by rewrite (space_ascii tb Htb). Qed.

Lemma not_space_not_NL (c : N) : is_space tb c = false -> c <> NL.
Proof. intros H ->. by rewrite space_NL in H. Qed.

Lemma digit_not_NL (c : N) : is_digit tb c = true -> c <> NL.
Proof. intros H. apply not_space_not_NL. by apply (digit_not_space tb Htb). Qed.

Lemma ascii_digit_is_digit (c : N) : ascii_digit c = true -> is_digit tb c = true.
Proof.
  intros H. rewrite (digit_ascii tb Htb); [done|].
  unfold ascii_digit, in_range in H. apply andb_true_iff in H as [_ H%N.leb_le]. lia.
Qed.

Lemma lstrip_nonspace (c : N) (t : str) :
  is_space tb c = false -> lstrip tb (c :: t) = c :: t.
Proof. intros H. cbn. by rewrite H. Qed.

Lemma lstrip_length (t : str) : (length (lstrip tb t) <= length t)%nat.
Proof.
  induction t as [|c t IH]; [done|]. cbn [lstrip].
  destruct (is_space tb c); cbn [length]; lia.
Qed.

Lemma lstrip_same_length (t : str) :
  length (lstrip tb t) = length t -> lstrip tb t = t.
Proof.
  destruct t as [|c t]; [done|]. cbn [lstrip].
  destruct (is_space tb c); [|done].
  intros H. pose proof (lstrip_length t). cbn [length] in H. lia.
Qed.

Lemma rstrip_length (t : str) : (length (rstrip tb t) <= length t)%nat.
Proof.
  unfold rstrip. rewrite length_rev. etrans; [apply lstrip_length|].
  by rewrite length_rev.
Qed.

Lemma strip_fixed (t : str) :
  strip tb t = t -> lstrip tb t = t /\ rstrip tb t = t.
Proof.
  intros H. assert (Hl : lstrip tb t = t).
  { apply lstrip_same_length. pose proof (lstrip_length t).
    pose proof (rstrip_length (lstrip tb t)). unfold strip in H.
    rewrite H in *. lia. }
  split; [done|]. unfold strip in H. by rewrite Hl in H.
Qed.

Lemma strip_fixed_head (c : N) (t : str) :
  strip tb (c :: t) = c :: t -> is_space tb c = false.
Proof.
  intros [Hl _]%strip_fixed. cbn [lstrip] in Hl.
  destruct (is_space tb c) eqn:E; [|done].
  pose proof (lstrip_length t). rewrite Hl in *. cbn [length] in *. lia.
Qed.

Lemma rstrip_snoc_space (t : str) (c : N) :
  is_space tb c = true -> rstrip tb (t ++ [c]) = rstrip tb t.
Proof. intros H. unfold rstrip. rewrite rev_unit. cbn [lstrip]. by rewrite H. Qed.

Lemma strip_idempotent (t : str) : strip tb (strip tb t) = strip tb t.
Proof.
  assert (Hl : forall u, lstrip tb (lstrip tb u) = lstrip tb u).
  { induction u as [|c u IH]; [done|]. cbn [lstrip].
    destruct (is_space tb c) eqn:E; [done|]. cbn [lstrip]. by rewrite E. }
  assert (Hr : forall u, rstrip tb (rstrip tb u) = rstrip tb u).
  { intros u. unfold rstrip. by rewrite rev_involutive, Hl. }
  assert (Hlr : forall u, lstrip tb u = u -> lstrip tb (rstrip tb u) = rstrip tb u).
  { intros u Hu. unfold rstrip.
    destruct (lstrip tb (rev u)) as [|d v] eqn:Ev; [done|].
    destruct u as [|c u]; [done|].
    assert (Hc : is_space tb c = false).
    { cbn [lstrip] in Hu. destruct (is_space tb c) eqn:E; [|done].
      pose proof (lstrip_length u). rewrite Hu in *. cbn [length] in *. lia. }
    (* rev (d :: v) is a prefix of c :: u that is not empty *)
    assert (Hpre : exists k, rev (c :: u) = k ++ d :: v).
    { clear -Ev. revert Ev. generalize (rev (c :: u)). intros l.
      induction l as [|x l IH]; [done|]. cbn [lstrip].
      destruct (is_space tb x).
      - intros [k Hk]%IH. exists (x :: k). by rewrite Hk.
      - intros [= -> ->]. by exists []. }
    destruct Hpre as [k Hk].
    assert (Hrev : c :: u = rev (d :: v) ++ rev k).
    { rewrite <- (rev_involutive (c :: u)), Hk, rev_app_distr. done. }
    destruct (rev (d :: v)) as [|y w] eqn:Ey.
    { apply (f_equal (@length _)) in Ey. rewrite length_rev in Ey. done. }
    injection Hrev as <- _. cbn [lstrip]. by rewrite Hc. }
  unfold strip. rewrite Hlr by apply Hl. by rewrite Hr.
Qed.

Lemma strip_snoc_NL (t : str) :
  t <> [] -> strip tb t = t -> strip tb (t ++ [NL]) = t.
Proof.
  intros Hne Hfix. destruct (strip_fixed t Hfix) as [Hl Hr].
  destruct t as [|c t]; [done|].
  unfold strip. cbn [app]. rewrite lstrip_nonspace by apply (strip_fixed_head c t Hfix).
  change (c :: t ++ [NL]) with ((c :: t) ++ [NL]).
  by rewrite rstrip_snoc_space by apply space_NL.
Qed.

(** Lines *)

Lemma split_chr_acc (sep : N) (cur t : str) :
  exists l ls, split_chr sep cur t = (rev cur ++ l) :: ls
               /\ split_chr sep [] t = l :: ls.
Proof.
  revert cur. induction t as [|c t IH]; intros cur; cbn [split_chr].
  - exists [], []. by rewrite app_nil_r.
  - destruct (c =? sep).
    + exists [], (split_chr sep [] t). by rewrite app_nil_r.
    + destruct (IH (c :: cur)) as (l & ls & E1 & E2).
      destruct (IH [c]) as (l' & ls' & E1' & E2').
      rewrite E2 in E2'. injection E2' as <- <-.
      exists (c :: l), ls. split; [|done].
      rewrite E1. cbn [rev]. by rewrite <- app_assoc.
Qed.

Lemma split_nl_cons_other (c : N) (t : str) :
  c <> NL ->
  exists l ls, split_nl t = l :: ls /\ split_nl (c :: t) = (c :: l) :: ls.
Proof.
  intros Hc. unfold split_nl. cbn [split_chr].
  destruct (N.eqb_spec c NL) as [|_]; [done|].
  destruct (split_chr_acc NL [c] t) as (l & ls & E1 & E2).
  exists l, ls. by rewrite E1, E2.
Qed.

Lemma split_nl_cons_NL (t : str) : split_nl (NL :: t) = [] :: split_nl t.
Proof. reflexivity. Qed.

Lemma join_split_nl (t : str) : join [NL] (split_nl t) = t.
Proof.
  induction t as [|c t IH]; [done|].
  destruct (N.eqb_spec c NL) as [-> | Hc].
  - rewrite split_nl_cons_NL. cbn [join].
    destruct (split_nl t) as [|l ls] eqn:E.
    + exfalso. revert E. unfold split_nl.
      destruct (split_chr_acc NL [] t) as (l & ls & E1 & _). by rewrite E1.
    + cbn [app]. by rewrite IH.
  - destruct (split_nl_cons_other c t Hc) as (l & ls & E1 & E2).
    rewrite E2. rewrite E1 in IH. rewrite <- IH. by destruct ls.
Qed.

Lemma split_nl_no_NL (t : str) : Forall (fun l => NL ∉ l) (split_nl t).
Proof.
  induction t as [|c t IH].
  - repeat constructor. by intros ?%elem_of_nil.
  - destruct (N.eqb_spec c NL) as [-> | Hc].
    + rewrite split_nl_cons_NL. constructor; [by intros ?%elem_of_nil | done].
    + destruct (split_nl_cons_other c t Hc) as (l & ls & E1 & E2).
      rewrite E2. rewrite E1 in IH. apply Forall_cons in IH as [Hl Hls].
      constructor; [|done]. intros [?|?]%elem_of_cons; done.
Qed.

End StringFacts.

(** ** Facts about the matcher *)

Section MatcherFacts.
Import Py Re.

Lemma run_cls_cons (p : N -> bool) (k : cont) (bef t : str) (x : N) (c : caps) :
  run (Cls p) k (Cur bef (x :: t)) c
  = if p x then k (Cur (x :: bef) t) c else None.
Proof. reflexivity. Qed.

Lemma run_chr_cons (a : N) (k : cont) (bef t : str) (c : caps) :
  run (chr a) k (Cur bef (a :: t)) c = k (Cur (a :: bef) t) c.
Proof. unfold chr. rewrite run_cls_cons. by rewrite N.eqb_refl. Qed.

Lemma run_seqs_cons (r : re) (rs : list re) (k : cont) (z : cursor) (c : caps) :
  run (seqs (r :: rs)) k z c = run r (run (seqs rs) k) z c.
Proof. destruct rs; reflexivity. Qed.

Lemma run_text (t : str) (k : cont) (bef rest : str) (c : caps) :
  run (text t) k (Cur bef (t ++ rest)) c = k (Cur (rev t ++ bef) rest) c.
Proof.
  unfold text. revert bef. induction t as [|a t IH]; intros bef; [done|].
  cbn [map]. rewrite run_seqs_cons. cbn [app]. rewrite run_chr_cons, IH.
  cbn [rev]. by rewrite <- app_assoc.
Qed.

(** A loop whose body cannot start leaves at once. *)
Lemma star_loop_stop (body : cont -> cont) (g : bool) (k : cont) (f : nat)
    (z : cursor) (c : caps) :
  (forall k', body k' z c = None) ->
  star_loop body g k (S f) z c = k z c.
Proof.
  intros H. cbn [star_loop]. rewrite H. destruct g; [done|].
  by destruct (k z c).
Qed.

(** A greedy loop over a class runs to the end of the characters of the
    class; when what follows the loop succeeds there, that is the
    result. *)
Lemma star_cls_greedy (p : N -> bool) (k : cont) (res : cursor * caps) :
  forall xs bef rest c f,
    Forall (fun x => p x = true) xs ->
    (length xs < f)%nat ->
    k (Cur (rev xs ++ bef) rest) c = Some res ->
    match rest with [] => True | y :: _ => p y = false end ->
    star_loop (run (Cls p)) true k f (Cur bef (xs ++ rest)) c = Some res.
Proof.
  induction xs as [|x xs IH]; intros bef rest c f Hall Hf Hk Hrest.
  - destruct f as [|f]; [lia|]. rewrite star_loop_stop; [done|].
    intros k'. cbn. destruct rest as [|y rest]; [done|]. cbn. by rewrite Hrest.
  - destruct f as [|f]; [cbn in Hf; lia|].
    apply Forall_cons in Hall as [Hx Hall].
    cbn [star_loop app]. rewrite run_cls_cons, Hx. cbn [after length].
    destruct (Nat.ltb_spec (length (xs ++ rest)) (S (length (xs ++ rest))));
      [|lia].
    rewrite (IH (x :: bef) rest c f); [done | done | cbn in Hf; lia | | done].
    cbn [rev] in Hk. by rewrite <- app_assoc in Hk.
Qed.

Lemma run_star_cls_greedy (p : N -> bool) (k : cont) (res : cursor * caps)
    (xs bef rest : str) (c : caps) :
  Forall (fun x => p x = true) xs ->
  k (Cur (rev xs ++ bef) rest) c = Some res ->
  match rest with [] => True | y :: _ => p y = false end ->
  run (star (Cls p)) k (Cur bef (xs ++ rest)) c = Some res.
Proof.
  intros Hall Hk Hrest. unfold star. cbn [run after].
  apply star_cls_greedy; try done. rewrite length_app. lia.
Qed.

Lemma run_plus_cls_greedy (p : N -> bool) (k : cont) (res : cursor * caps)
    (x : N) (xs bef rest : str) (c : caps) :
  Forall (fun x => p x = true) (x :: xs) ->
  k (Cur (rev (x :: xs) ++ bef) rest) c = Some res ->
  match rest with [] => True | y :: _ => p y = false end ->
  run (plus (Cls p)) k (Cur bef ((x :: xs) ++ rest)) c = Some res.
Proof.
  intros [Hx Hall]%Forall_cons Hk Hrest. unfold plus.
  change (run (Seq ?a ?b) ?k ?z ?c) with (run a (run b k) z c).
  cbn [app]. rewrite run_cls_cons, Hx.
  apply (run_star_cls_greedy p k res xs (x :: bef) rest c); try done.
  cbn [rev] in Hk. by rewrite <- app_assoc in Hk.
Qed.

(** The result of a match is a result of its continuation, reached
    without moving backwards. *)
Lemma run_through (r : re) :
  forall k z c res,
    run r k z c = Some res ->
    exists z1 c1, k z1 c1 = Some res
                  /\ (length (after z1) <= length (after z))%nat.
Proof.
  induction r as [|p|a IHa b IHb|a IHa b IHb|g a IHa| | |n a IHa|p|a IHa];
    intros k z c res H; cbn [run] in H.
  - eauto.
  - destruct z as [bef [|x t]]; cbn in H; [done|].
    destruct (p x); [|done]. exists (Cur (x :: bef) t), c. split; [done|]. cbn. lia.
  - apply IHa in H as (z1 & c1 & H & Hl1).
    apply IHb in H as (z2 & c2 & H & Hl2). exists z2, c2. split; [done|]. lia.
  - destruct (run a k z c) eqn:E.
    + injection H as <-. by apply IHa in E.
    + by apply IHb in H.
  - remember (S (length (after z))) as f eqn:Hf. clear Hf. revert z c res H.
    induction f as [|f IHf]; intros z c res H; [done|]. cbn [star_loop] in H.
    assert (Hbody : forall res',
      run a (fun z' c' =>
               if (length (after z') <? length (after z))%nat
               then star_loop (run a) g k f z' c' else None) z c = Some res' ->
      exists z1 c1, k z1 c1 = Some res'
                    /\ (length (after z1) <= length (after z))%nat).
    { intros res' Hb. apply IHa in Hb as (z1 & c1 & Hb & Hl1).
      destruct (Nat.ltb_spec (length (after z1)) (length (after z))); [|done].
      apply IHf in Hb as (z2 & c2 & Hb & Hl2). exists z2, c2. split; [done|]. lia. }
    destruct g.
    + destruct (run a _ z c) eqn:E.
      * injection H as <-. by apply Hbody.
      * eauto.
    + destruct (k z c) eqn:E.
      * injection H as <-. eauto.
      * by apply Hbody.
  - destruct (at_bol z); [eauto | done].
  - destruct (at_eol z); [eauto | done].
  - apply IHa in H as (z1 & c1 & H & Hl). eauto.
  - destruct (before z) as [|x ?]; [done|]. destruct (p x); [eauto | done].
  - destruct (run a _ z c) as [[? c']|]; [eauto | done].
Qed.

End MatcherFacts.

(** ** Batch partitioning *)

Section Partition.
Import Py Srt.
Local Open Scope nat_scope.

Lemma total_batches_ceil (B n : nat) :
  0 < B -> Polisher.total_batches B n = Spec.ceil_div n B.
Proof.
  intros HB. unfold Polisher.total_batches, Spec.ceil_div.
  pose proof (Nat.div_mod_eq n B) as Hn.
  pose proof (Nat.mod_upper_bound n B ltac:(lia)) as Hr.
  destruct (Nat.eqb_spec (n mod B) 0) as [Hz | Hz].
  - symmetry. apply Nat.div_unique with (r := B - 1); lia.
  - symmetry. apply Nat.div_unique with (r := n mod B - 1); lia.
Qed.

Lemma batch_bounds (B n k : nat) :
  1 <= k ->
  Polisher.batch_start B k = (k - 1) * B
  /\ Polisher.batch_end B n k = Nat.min (k * B) n.
Proof.
  intros Hk. unfold Polisher.batch_end, Polisher.batch_start. split; [done|].
  f_equal. nia.
Qed.

Lemma index_in_one_batch (B n i : nat) :
  0 < B -> i < n ->
  exists k, (1 <= k <= Polisher.total_batches B n
             /\ Polisher.batch_start B k <= i < Polisher.batch_end B n k)
            /\ forall k', 1 <= k' <= Polisher.total_batches B n
                          /\ Polisher.batch_start B k' <= i < Polisher.batch_end B n k'
                          -> k' = k.
Proof.
  intros HB Hi. exists (i / B + 1).
  pose proof (Nat.div_mod_eq i B) as Hd.
  pose proof (Nat.mod_upper_bound i B ltac:(lia)) as Hr.
  rewrite total_batches_ceil by done.
  unfold Spec.ceil_div, Polisher.batch_end, Polisher.batch_start.
  pose proof (Nat.div_mod_eq n B) as Hn.
  pose proof (Nat.mod_upper_bound n B ltac:(lia)) as Hrn.
  assert (Hle : i / B <= n / B) by (apply Nat.Div0.div_le_mono; lia).
  split.
  - replace (i / B + 1 - 1) with (i / B) by lia.
    assert (Hib : B * (i / B) <= i) by lia.
    assert (Hmon : B * (i / B) <= B * (n / B)) by nia.
    split.
    + split; [lia|].
      destruct (Nat.eqb_spec (n mod B) 0) as [Hz | Hz]; [|lia].
      assert (i / B <> n / B) by (intros Heq; rewrite Heq in Hd; lia). lia.
    + split; [nia|]. apply Nat.min_glb_lt; nia.
  - intros k' [[Hk1 Hk2] [Hs He]].
    assert (Hlo : (k' - 1) * B <= i) by lia.
    assert (Hhi : i < (k' - 1) * B + B) by lia.
    assert (k' - 1 = i / B); [|lia].
    apply Nat.div_unique with (r := i - (k' - 1) * B); nia.
Qed.

Lemma total_batches_step (B n : nat) :
  0 < B -> 0 < n ->
  Polisher.total_batches B n = S (Polisher.total_batches B (n - B)).
Proof.
  intros HB Hn. unfold Polisher.total_batches.
  destruct (Nat.le_gt_cases n B) as [Hsmall | Hbig].
  - replace (n - B + B - 1) with (B - 1) by lia.
    rewrite (Nat.div_small (B - 1)) by lia.
    symmetry. apply Nat.div_unique with (r := n - 1); lia.
  - replace (n + B - 1) with ((n - B + B - 1) + 1 * B) by lia.
    rewrite Nat.div_add by lia. lia.
Qed.

Lemma batches_from_length (B : nat) :
  0 < B -> forall fuel (es : list SRTEntry),
  length es <= fuel ->
  length (Corrector.batches_from fuel B es) = Polisher.total_batches B (length es).
Proof.
  intros HB. induction fuel as [|f IH]; intros es Hf.
  - destruct es; [|simpl in Hf; lia].
    unfold Polisher.total_batches. simpl. symmetry. apply Nat.div_small. lia.
  - destruct es as [|e es'].
    + unfold Polisher.total_batches. simpl. symmetry. apply Nat.div_small. lia.
    + cbn [Corrector.batches_from]. rewrite length_cons, IH.
      2:{ rewrite length_drop. simpl in Hf. simpl. lia. }
      rewrite length_drop.
      rewrite (total_batches_step B (length (e :: es'))); [done | done | simpl; lia].
Qed.

Lemma batches_from_lookup (B : nat) :
  0 < B -> forall fuel (es : list SRTEntry) k,
  length es <= fuel -> k * B < length es ->
  Corrector.batches_from fuel B es !! k = Some (take B (drop (k * B) es)).
Proof.
  intros HB. induction fuel as [|f IH]; intros es k Hf Hk.
  - lia.
  - destruct es as [|e es']; [simpl in Hk; lia|].
    cbn [Corrector.batches_from]. destruct k as [|k].
    + done.
    + cbn [lookup list_lookup]. rewrite IH.
      * rewrite drop_drop. do 2 f_equal; lia.
      * rewrite length_drop. simpl in *. lia.
      * rewrite length_drop. simpl in *. nia.
Qed.

Lemma batches_from_concat (B : nat) :
  0 < B -> forall fuel (es : list SRTEntry),
  length es <= fuel -> concat (Corrector.batches_from fuel B es) = es.
Proof.
  intros HB. induction fuel as [|f IH]; intros es Hf.
  - destruct es; [done | simpl in Hf; lia].
  - destruct es as [|e es']; [done|].
    cbn [Corrector.batches_from concat]. rewrite IH.
    + apply take_drop.
    + rewrite length_drop. simpl in *. lia.
Qed.

(** C8.  For a positive batch size [B] and [n] records: the number of
    batches is [ceil(n / B)]; batch [k] (counted from 1) covers the
    indices from [(k-1) * B] to [min(k * B, n)]; every index below [n]
    lies in exactly one batch among [1 .. total_batches]; and the list
    comprehension of the corrector cuts the records into the same
    slices, whose number is [total_batches] and whose concatenation is
    the sequence itself. *)
Theorem batch_partition_is_arithmetic (B : nat) (entries : list SRTEntry) :
  0 < B ->
  let n := length entries in
  Polisher.total_batches B n = Spec.ceil_div n B
  /\ (forall k, 1 <= k ->
        Polisher.batch_start B k = (k - 1) * B
        /\ Polisher.batch_end B n k = Nat.min (k * B) n)
  /\ (forall i, i < n ->
        exists k, (1 <= k <= Polisher.total_batches B n
                   /\ Polisher.batch_start B k <= i < Polisher.batch_end B n k)
                  /\ forall k', 1 <= k' <= Polisher.total_batches B n
                                /\ Polisher.batch_start B k' <= i
                                   < Polisher.batch_end B n k'
                                -> k' = k)
  /\ length (Corrector.batches B entries) = Polisher.total_batches B n
  /\ (forall k, 1 <= k <= Polisher.total_batches B n ->
        Corrector.batches B entries !! (k - 1)
        = Some (take (Polisher.batch_end B n k - Polisher.batch_start B k)
                     (drop (Polisher.batch_start B k) entries)))
  /\ concat (Corrector.batches B entries) = entries.
Proof.
  intros HB n. split; [by apply total_batches_ceil|].
  split; [intros k Hk; by apply batch_bounds|].
  split; [intros i Hi; by apply index_in_one_batch|].
  split; [by apply batches_from_length|].
  split; [|by apply batches_from_concat].
  intros k [Hk1 Hk2]. unfold Corrector.batches.
  assert (Hlt : (k - 1) * B < n).
  { rewrite total_batches_ceil in Hk2 by done. unfold Spec.ceil_div in Hk2.
    pose proof (Nat.div_mod_eq n B) as Hn.
    pose proof (Nat.mod_upper_bound n B ltac:(lia)) as Hr.
    destruct (Nat.eqb_spec (n mod B) 0); nia. }
  rewrite batches_from_lookup by (done || lia).
  unfold Polisher.batch_end, Polisher.batch_start. f_equal.
  destruct (Nat.le_gt_cases ((k - 1) * B + B) n) as [Hfull | Hpart].
  - rewrite Nat.min_l by lia.
    replace ((k - 1) * B + B - (k - 1) * B) with B by lia. done.
  - rewrite Nat.min_r by lia.
    rewrite !take_ge; [done | |]; rewrite length_drop; fold n; lia.
Qed.

Lemma batch_partition_is_arithmetic_witness :
  let es := [Entry 1 [] [] []; Entry 2 [] [] []; Entry 3 [] [] []] in
  0 < 2
  /\ Polisher.total_batches 2 (length es) = 2
  /\ Corrector.batches 2 es = [take 2 es; drop 2 es].
Proof.
  intros es.
  pose proof (batch_partition_is_arithmetic 2 es ltac:(lia)) as [H1 _].
  split; [lia|]. split; [exact H1 | reflexivity].
Defined.

End Partition.

(** ** The transformation client under transport failure *)

Section Client.
Import Py Srt Eff Corrector Notions.
Local Open Scope nat_scope.
Context (tb : tables).

Lemma correct_text_attempts_fail (post : nat -> http_outcome) (text : str)
    (retry_count : nat) :
  forall remaining attempt w,
    attempt + remaining = retry_count -> 0 < remaining ->
    (forall i, i < remaining -> post (calls w + i) = RequestException) ->
    correct_text_attempts tb post text retry_count remaining attempt w
    = (Returned None,
       World (calls w + remaining)
             (rev (map backoff (seq attempt (remaining - 1))) ++ slept w)).
Proof.
  induction remaining as [|rest IH]; intros attempt w Hsum Hpos Hfail; [lia|].
  assert (Hp0 : post (calls w) = RequestException)
    by (rewrite <- (Nat.add_0_r (calls w)); apply Hfail; lia).
  cbn [correct_text_attempts]. unfold bind at 1. unfold remote at 1. rewrite Hp0.
  destruct (Nat.ltb_spec attempt (retry_count - 1)) as [Hlt | Hge].
  - unfold bind, sleep. cbn [calls slept].
    rewrite IH; cbn [calls slept]; [| lia | lia |].
    + f_equal. f_equal; [lia|].
      destruct rest as [|rest']; [lia|].
      replace (S (S rest') - 1) with (S rest') by lia.
      replace (S rest' - 1) with rest' by lia.
      cbn [seq map rev]. rewrite <- app_assoc. done.
    + intros i Hi. replace (S (calls w) + i) with (calls w + S i) by lia.
      apply Hfail. lia.
  - assert (rest = 0) by lia. subst rest. unfold ret. cbn.
    do 2 f_equal. lia.
Qed.

Lemma correct_batch_attempts_fail (post : nat -> http_outcome)
    (entries_batch : list SRTEntry) (retry_count : nat) :
  forall remaining attempt w,
    attempt + remaining = retry_count -> 0 < remaining ->
    (forall i, i < remaining -> post (calls w + i) = RequestException) ->
    correct_batch_attempts tb post entries_batch retry_count remaining attempt w
    = (Returned (Some (replicate (length entries_batch) None)),
       World (calls w + remaining)
             (rev (map backoff (seq attempt (remaining - 1))) ++ slept w)).
Proof.
  induction remaining as [|rest IH]; intros attempt w Hsum Hpos Hfail; [lia|].
  assert (Hp0 : post (calls w) = RequestException)
    by (rewrite <- (Nat.add_0_r (calls w)); apply Hfail; lia).
  cbn [correct_batch_attempts]. unfold bind at 1. unfold remote at 1. rewrite Hp0.
  destruct (Nat.ltb_spec attempt (retry_count - 1)) as [Hlt | Hge].
  - unfold bind, sleep. cbn [calls slept].
    rewrite IH; cbn [calls slept]; [| lia | lia |].
    + f_equal. f_equal; [lia|].
      destruct rest as [|rest']; [lia|].
      replace (S (S rest') - 1) with (S rest') by lia.
      replace (S rest' - 1) with rest' by lia.
      cbn [seq map rev]. rewrite <- app_assoc. done.
    + intros i Hi. replace (S (calls w) + i) with (calls w + S i) by lia.
      apply Hfail. lia.
  - assert (rest = 0) by lia. subst rest. unfold ret. cbn.
    do 2 f_equal. lia.
Qed.

(** C6.  When every one of the [retry_count] attempts ends in a
    transport failure ([RequestException]), the client makes exactly
    [retry_count] calls, sleeps [min(2^attempt, 10)] seconds after each
    attempt but the last, and returns the "no result" value without
    raising: [None] for one text, a list of [None], one per entry, for a
    batch.  With the default of 5 attempts the delays are 1, 2, 4 and 8
    seconds. *)
Theorem transport_failure_backoff (post : nat -> http_outcome) (text : str)
    (entries_batch : list SRTEntry) (retry_count : nat) (w : world) :
  0 < retry_count ->
  (forall i, i < retry_count -> post (calls w + i) = RequestException) ->
  correct_text_with_context tb post text retry_count w
  = (Returned None, world_after w retry_count)
  /\ (entries_batch <> [] ->
      correct_batch_texts tb post entries_batch retry_count w
      = (Returned (Some (replicate (length entries_batch) None)),
         world_after w retry_count))
  /\ map backoff (seq 0 (MAX_API_RETRIES - 1)) = [1; 2; 4; 8]%N.
Proof.
  intros Hpos Hfail. split; [|split].
  - unfold correct_text_with_context, world_after.
    by rewrite correct_text_attempts_fail.
  - intros Hne. unfold correct_batch_texts, world_after.
    destruct entries_batch as [|e es]; [done|].
    by rewrite correct_batch_attempts_fail.
  - reflexivity.
Qed.

End Client.

Lemma transport_failure_backoff_witness :
  let post := fun _ : nat => Corrector.RequestException in
  let e := Srt.Entry 1 (Py.lit "00:00:01,000") (Py.lit "00:00:02,000") (Py.lit "a") in
  (0 < 5)%nat
  /\ Corrector.correct_text_with_context Py.py_tables post (Py.lit "a") 5 Eff.world0
     = (Eff.Returned None, Eff.World 5 [8; 4; 2; 1]%N)
  /\ Corrector.correct_batch_texts Py.py_tables post [e; e] 5 Eff.world0
     = (Eff.Returned (Some [None; None]), Eff.World 5 [8; 4; 2; 1]%N).
Proof.
  intros post e.
  destruct (transport_failure_backoff Py.py_tables post (Py.lit "a") [e; e] 5
              Eff.world0 ltac:(lia) ltac:(reflexivity)) as (H1 & H2 & _).
  split; [lia|]. split; [exact H1 | exact (H2 ltac:(discriminate))].
Defined.

(** ** Verification *)

Section Verification.
Import Py Srt Polisher Checker Notions.

Lemma eqs_true (a b : str) : eqs a b = true <-> a = b.
Proof. unfold eqs. by rewrite bool_decide_eq_true. Qed.

Lemma eqs_false (a b : str) : eqs a b = false <-> a <> b.
Proof. unfold eqs. by rewrite bool_decide_eq_false. Qed.

Lemma record_numbered_snoc (n : N) (es : list SRTEntry) (e : SRTEntry) :
  Spec.record_numbered n (es ++ [e])
  = if number e =? n then Some e else Spec.record_numbered n es.
Proof.
  unfold Spec.record_numbered. rewrite List.filter_app. cbn [List.filter].
  destruct (number e =? n).
  - apply last_snoc.
  - by rewrite app_nil_r.
Qed.

Lemma entry_dict_lookup (es : list SRTEntry) (n : N) :
  entry_dict es !! n = Spec.record_numbered n es.
Proof.
  unfold entry_dict. induction es as [|e es IH] using rev_ind; [done|].
  rewrite foldl_app, record_numbered_snoc. cbn [foldl].
  destruct (N.eqb_spec (number e) n) as [-> | Hne].
  - by rewrite lookup_insert_eq.
  - by rewrite lookup_insert_ne.
Qed.

Lemma entry_dict_dom (es : list SRTEntry) :
  dom (entry_dict es) = Spec.numbers es.
Proof.
  unfold entry_dict, Spec.numbers.
  induction es as [|e es IH] using rev_ind; [apply dom_empty_L|].
  rewrite foldl_app, map_app, list_to_set_app_L. cbn [foldl].
  rewrite dom_insert_L, IH. cbn. rewrite union_empty_r_L. apply union_comm_L.
Qed.

Lemma record_numbered_is_Some (es : list SRTEntry) (n : N) :
  is_Some (Spec.record_numbered n es) <-> n ∈ Spec.numbers es.
Proof.
  rewrite <- entry_dict_lookup, <- entry_dict_dom. by rewrite elem_of_dom.
Qed.

Lemma record_numbered_number (es : list SRTEntry) (n : N) (e : SRTEntry) :
  Spec.record_numbered n es = Some e -> number e = n /\ e ∈ es.
Proof.
  unfold Spec.record_numbered. intros H%last_Some_elem_of.
  apply list_elem_of_In, List.filter_In in H as [Hin Hn].
  split; [by apply N.eqb_eq | by apply list_elem_of_In].
Qed.

Lemma sorted_numbers_nil (X : gset N) : is_nil (sorted_numbers X) = true <-> X = ∅.
Proof.
  unfold sorted_numbers. split.
  - intros H. destruct (merge_sort N.le (elements X)) as [|x l] eqn:E; [|done].
    pose proof (merge_sort_Permutation N.le (elements X)) as Hp.
    rewrite E in Hp. symmetry in Hp. apply Permutation_nil_r in Hp.
    apply leibniz_equiv. by apply elements_empty_inv.
  - intros ->. by rewrite elements_empty.
Qed.

Lemma elem_of_sorted_numbers (X : gset N) (n : N) :
  n ∈ sorted_numbers X <-> n ∈ X.
Proof.
  unfold sorted_numbers. by rewrite merge_sort_Permutation, elem_of_elements.
Qed.

Lemma time_issues_nil (src dst : SRTEntry) :
  time_issues src dst = []
  <-> start_time src = start_time dst /\ end_time src = end_time dst.
Proof.
  unfold time_issues.
  destruct (eqs (start_time src) (start_time dst)) eqn:E1;
    destruct (eqs (end_time src) (end_time dst)) eqn:E2; cbn;
    first [apply eqs_true in E1 | apply eqs_false in E1];
    first [apply eqs_true in E2 | apply eqs_false in E2];
    (split; [intros H; try discriminate H; by split | intros [? ?]; done]).
Qed.

Lemma flat_map_is_nil {A B} (f : A -> list B) (l : list A) :
  flat_map f l = [] <-> Forall (fun x => f x = []) l.
Proof.
  induction l as [|x l IH]; cbn [flat_map].
  - split; [constructor | done].
  - rewrite Forall_cons, <- IH. split.
    + by intros [? ?]%app_eq_nil.
    + by intros [-> ->].
Qed.

Lemma time_mismatches_nil (source output : list SRTEntry) :
  is_nil (time_mismatches (entry_dict source) (entry_dict output)) = true
  <-> forall n, ~ Spec.time_mismatch source output n.
Proof.
  unfold time_mismatches. split.
  - intros Hnil n (src & dst & Hs & Hd & Hdiff).
    assert (Hin : n ∈ sorted_numbers (dom (entry_dict source) ∩ dom (entry_dict output))).
    { apply elem_of_sorted_numbers. rewrite !entry_dict_dom.
      apply elem_of_intersection; split; apply record_numbered_is_Some; eauto. }
    destruct (flat_map _ _) as [|x l] eqn:E in Hnil; [|done].
    pose proof (proj1 (flat_map_is_nil _ _) E) as Hall.
    rewrite Forall_forall in Hall.
    specialize (Hall n Hin). cbn beta in Hall.
    rewrite !entry_dict_lookup, Hs, Hd in Hall.
    destruct (time_issues src dst) eqn:Ei; [|done].
    apply time_issues_nil in Ei. destruct Hdiff; tauto.
  - intros Hno.
    match goal with |- is_nil ?l = true => assert (Hl : l = []); [|by rewrite Hl] end.
    apply flat_map_is_nil, Forall_forall. intros n Hn.
    rewrite !entry_dict_lookup.
    destruct (Spec.record_numbered n source) as [src|] eqn:Hs; [|done].
    destruct (Spec.record_numbered n output) as [dst|] eqn:Hd; [|done].
    destruct (time_issues src dst) eqn:Ei; [done|].
    exfalso. apply (Hno n). exists src, dst. split; [done|]. split; [done|].
    destruct (decide (start_time src = start_time dst)) as [E1|]; [|by left].
    destruct (decide (end_time src = end_time dst)) as [E2|]; [|by right].
    assert (time_issues src dst = []) by (by apply time_issues_nil). congruence.
Qed.

Lemma auto_verify_result_perfect (source output : list SRTEntry) :
  auto_verify_result source output = true <-> Spec.perfect source output.
Proof.
  unfold auto_verify_result, Spec.perfect, Spec.missing, Spec.extra.
  rewrite !andb_true_iff, !sorted_numbers_nil, time_mismatches_nil,
    !entry_dict_dom, Nat.eqb_eq. tauto.
Qed.

Lemma check_entry_perfect (source : list SRTEntry) (st : check_state)
    (t : SRTEntry) :
  perfect_match (check_entry (entry_dict source) st t) = true
  <-> perfect_match st = true /\ entry_passes source t.
Proof.
  unfold check_entry, entry_passes. rewrite entry_dict_lookup.
  destruct (Spec.record_numbered (number t) source) as [src|] eqn:Hs.
  - destruct (time_issues src t) eqn:Ei.
    + apply time_issues_nil in Ei. split; [eauto|tauto].
    + cbn. split; [done|]. intros [_ (src' & Heq & H1 & H2)].
      injection Heq as <-.
      assert (time_issues src t = []) by (by apply time_issues_nil). congruence.
  - cbn. split; [done|]. by intros [_ (src' & Heq & _)].
Qed.

Lemma check_loop_perfect (source translated : list SRTEntry) (st : check_state) :
  perfect_match (foldl (check_entry (entry_dict source)) st translated) = true
  <-> perfect_match st = true /\ Forall (entry_passes source) translated.
Proof.
  revert st. induction translated as [|t ts IH]; intros st; cbn [foldl].
  - split; [by intros ?; split | tauto].
  - rewrite IH, check_entry_perfect, Forall_cons. tauto.
Qed.

Lemma record_numbered_NoDup (es : list SRTEntry) (e : SRTEntry) :
  NoDup (map number es) -> e ∈ es -> Spec.record_numbered (number e) es = Some e.
Proof.
  induction es as [|x es IH] using rev_ind; intros Hnd Hin; [by apply elem_of_nil in Hin|].
  rewrite record_numbered_snoc. rewrite map_app in Hnd.
  apply NoDup_app in Hnd as (Hnd1 & Hdisj & _).
  apply elem_of_app in Hin as [Hin | Hin%list_elem_of_singleton].
  - destruct (N.eqb_spec (number x) (number e)) as [Heq | Hne]; [|by apply IH].
    exfalso. apply (Hdisj (number e)); [by apply list_elem_of_fmap_2|].
    cbn. rewrite Heq. apply list_elem_of_here.
  - subst. by rewrite N.eqb_refl.
Qed.

Lemma check_srt_files_perfect (source output : list SRTEntry) :
  NoDup (map number output) ->
  check_srt_files source output = true <-> Spec.perfect source output.
Proof.
  intros Hnd. unfold check_srt_files, Spec.perfect, Spec.missing, Spec.extra.
  fold (Spec.numbers output). fold (Spec.numbers source).
  destruct (bool_decide_reflect (Spec.numbers source ∖ Spec.numbers output = ∅))
    as [Hmiss | Hmiss]; [|split; [done | tauto]].
  rewrite check_loop_perfect. cbn [perfect_match]. rewrite Nat.eqb_eq.
  split.
  - intros [Hlen Hall]. rewrite Forall_forall in Hall.
    split; [done|]. split; [|split; [|done]].
    + apply set_eq. intros n. split; [|by intros ?%elem_of_empty].
      intros [Hin Hnot]%elem_of_difference. exfalso. apply Hnot.
      apply elem_of_list_to_set, list_elem_of_fmap in Hin as (t & -> & Ht).
      destruct (Hall t Ht) as (src & Hs & _).
      apply record_numbered_is_Some. eauto.
    + intros n (src & dst & Hs & Hd & Hdiff).
      apply record_numbered_number in Hd as Hd'. destruct Hd' as [<- Hin].
      destruct (Hall dst Hin) as (src' & Hs' & H1 & H2).
      rewrite Hs in Hs'. injection Hs' as <-. destruct Hdiff; congruence.
  - intros (_ & Hextra & Hno & Hlen). split; [done|].
    apply Forall_forall. intros t Ht.
    assert (Hin : number t ∈ Spec.numbers source).
    { destruct (decide (number t ∈ Spec.numbers source)) as [|Hn]; [done|].
      exfalso. assert (Hx : number t ∈ Spec.numbers output ∖ Spec.numbers source).
      { apply elem_of_difference. split; [|done].
        apply elem_of_list_to_set, list_elem_of_fmap. eauto. }
      rewrite Hextra in Hx. by apply elem_of_empty in Hx. }
    apply record_numbered_is_Some in Hin as [src Hs].
    exists src. split; [done|].
    pose proof (record_numbered_NoDup output t Hnd Ht) as Hd.
    destruct (decide (start_time src = start_time t)) as [E1|N1]; cycle 1.
    { exfalso. apply (Hno (number t)). exists src, t. eauto. }
    destruct (decide (end_time src = end_time t)) as [E2|N2]; [done|].
    exfalso. apply (Hno (number t)). exists src, t. eauto.
Qed.

Lemma entries_pass_iff (source output : list SRTEntry) :
  Forall (entry_passes source) output
  <-> Spec.extra source output = ∅
      /\ (forall t, t ∈ output -> ~ Spec.entry_mismatch source t).
Proof.
  rewrite Forall_forall. unfold Spec.extra. split.
  - intros Hall. split.
    + apply set_eq. intros n. split; [|by intros ?%elem_of_empty].
      intros [Hin Hnot]%elem_of_difference. exfalso. apply Hnot.
      apply elem_of_list_to_set, list_elem_of_fmap in Hin as (t & -> & Ht).
      destruct (Hall t Ht) as (src & Hs & _).
      apply record_numbered_is_Some. eauto.
    + intros t Ht (src & Hs & Hdiff).
      destruct (Hall t Ht) as (src' & Hs' & H1 & H2).
      rewrite Hs in Hs'. injection Hs' as <-. destruct Hdiff; congruence.
  - intros [Hextra Hno] t Ht.
    assert (Hin : number t ∈ Spec.numbers source).
    { destruct (decide (number t ∈ Spec.numbers source)) as [|Hn]; [done|].
      exfalso. assert (Hx : number t ∈ Spec.numbers output ∖ Spec.numbers source).
      { apply elem_of_difference. split; [|done].
        apply elem_of_list_to_set, list_elem_of_fmap. eauto. }
      rewrite Hextra in Hx. by apply elem_of_empty in Hx. }
    apply record_numbered_is_Some in Hin as [src Hs].
    exists src. split; [done|].
    destruct (decide (start_time src = start_time t)) as [E1|N1]; cycle 1.
    { exfalso. apply (Hno t Ht). exists src. eauto. }
    destruct (decide (end_time src = end_time t)) as [E2|N2]; [done|].
    exfalso. apply (Hno t Ht). exists src. eauto.
Qed.

Lemma check_srt_files_true (source output : list SRTEntry) :
  check_srt_files source output = true
  <-> Spec.missing source output = ∅
      /\ Spec.extra source output = ∅
      /\ (forall t, t ∈ output -> ~ Spec.entry_mismatch source t)
      /\ length source = length output.
Proof.
  unfold check_srt_files, Spec.missing.
  fold (Spec.numbers output). fold (Spec.numbers source).
  destruct (bool_decide_reflect (Spec.numbers source ∖ Spec.numbers output = ∅))
    as [Hmiss | Hmiss]; [|split; [done | tauto]].
  rewrite check_loop_perfect. cbn [perfect_match]. rewrite Nat.eqb_eq.
  rewrite entries_pass_iff. tauto.
Qed.

(** C4 (amended).  [auto_verify_result] reports a job as perfect exactly
    when [missing], [extra] and the time mismatches are all empty and
    the two files hold the same number of entries, the record of a
    number being the last one read under it.  [check_srt_files] returns
    [True] exactly when [missing] and [extra] are empty, the two files
    hold the same number of entries and no record of the output, the
    last of its number or not, differs in start or end time from the
    record of the source with its number.  When no number occurs twice
    in the output the two verdicts are the same. *)
Theorem verification_perfect_iff (source output : list SRTEntry) :
  (auto_verify_result source output = true <-> Spec.perfect source output)
  /\ (check_srt_files source output = true
      <-> Spec.missing source output = ∅
          /\ Spec.extra source output = ∅
          /\ (forall t, t ∈ output -> ~ Spec.entry_mismatch source t)
          /\ length source = length output)
  /\ (NoDup (map number output) ->
      (check_srt_files source output = true <-> Spec.perfect source output)).
Proof.
  split; [apply auto_verify_result_perfect|].
  split; [apply check_srt_files_true | apply check_srt_files_perfect].
Qed.

End Verification.

(** C4 (as stated).  A source that holds number 1 twice and an output
    that holds it twice, the first time with another start time: no
    number is missing or extra, the records compared under number 1 (the
    last ones) have the same times and the counts are equal, so the job
    is perfect and [auto_verify_result] says so, while [check_srt_files]
    compares the first record of the output as well and returns
    [False]. *)
Lemma checker_rejects_perfect_job :
  let s := Srt.Entry 1 (Py.lit "00:00:01,000") (Py.lit "00:00:03,000") (Py.lit "a") in
  let x := Srt.Entry 1 (Py.lit "00:00:02,000") (Py.lit "00:00:03,000") (Py.lit "a") in
  Spec.perfect [s; s] [x; s]
  /\ Polisher.auto_verify_result [s; s] [x; s] = true
  /\ Checker.check_srt_files [s; s] [x; s] = false.
Proof.
  intros s x. split; [|split].
  - apply auto_verify_result_perfect. vm_compute. reflexivity.
  - vm_compute. reflexivity.
  - vm_compute. reflexivity.
Qed.

Lemma verification_perfect_iff_witness :
  let a := Srt.Entry 1 (Py.lit "00:00:01,000") (Py.lit "00:00:03,000") (Py.lit "a") in
  let b := Srt.Entry 2 (Py.lit "00:00:03,000") (Py.lit "00:00:05,000") (Py.lit "b") in
  let b' := Srt.Entry 2 (Py.lit "00:00:03,000") (Py.lit "00:00:05,000") (Py.lit "B") in
  NoDup (map Srt.number [a; b'])
  /\ Spec.perfect [a; b] [a; b']
  /\ ~ Spec.perfect [a; b] [a].
Proof.
  intros a b b'.
  assert (Hnd : NoDup (map Srt.number [a; b'])).
  { apply NoDup_cons. split; [|apply NoDup_singleton].
    intros H%list_elem_of_singleton. discriminate H. }
  split; [exact Hnd|]. split.
  - apply (proj1 (proj2 (proj2 (verification_perfect_iff [a; b] [a; b'])) Hnd)).
    vm_compute. reflexivity.
  - intros H.
    apply (proj2 (proj2 (proj2 (verification_perfect_iff [a; b] [a]))
                    ltac:(apply NoDup_singleton))) in H.
    vm_compute in H. discriminate.
Defined.

(** ** The batch call of the polisher *)

Section PolishBatch.
Import Py Srt Eff Polisher Notions.
Local Open Scope nat_scope.
Context (tb : tables) (json_loads_list : str -> option (list str))
        (pr : Polisher.preparation).

Lemma identity_mk_entry (n : N) (st en c : str) :
  Spec.identity (mk_entry tb n st en c) = (n, st, en).
Proof. reflexivity. Qed.

Lemma parse_json_array_length (t : option str) (n : nat) (l : list str) :
  _parse_json_array tb json_loads_list t n = Some l -> length l = n.
Proof.
  unfold _parse_json_array. destruct t as [x|]; [|done].
  destruct (json_loads_list x) as [data|]; [|done].
  destruct (Nat.eqb_spec (length data) n) as [Heq|]; [|done].
  intros [= <-]. by rewrite length_map.
Qed.

Lemma fill_missing_length (pc : list (option str)) (batch : list SRTEntry) :
  length (fill_missing pc batch) = length pc.
Proof. unfold fill_missing. apply length_imap. Qed.

Lemma heal_length_same (l : list str) (batch : list SRTEntry) :
  length l = length batch -> heal_length l batch = l.
Proof.
  intros H. unfold heal_length. rewrite H.
  by rewrite Nat.ltb_irrefl.
Qed.

Lemma slice_split (es : list SRTEntry) (a m b : nat) :
  a <= m <= b ->
  take (b - a) (drop a es) = take (m - a) (drop a es) ++ take (b - m) (drop m es).
Proof.
  intros H. replace (b - a) with ((m - a) + (b - m)) by lia.
  rewrite <- take_take_drop, drop_drop. do 3 f_equal. lia.
Qed.

Lemma slice_length (es : list SRTEntry) (a b : nat) :
  a <= b <= length es -> length (take (b - a) (drop a es)) = b - a.
Proof. intros H. rewrite length_take, length_drop. lia. Qed.

Lemma try_except_returned {A} (m h : M A) (w w' : world) (a : A) :
  m w = (Returned a, w') -> try_except m h w = (Returned a, w').
Proof. unfold try_except. by intros ->. Qed.

Lemma built_entries_identity (batch : list SRTEntry) (filled : list str)
    (f : str -> str) :
  length filled = length batch ->
  map Spec.identity
      (map (fun '(entry, p) =>
              mk_entry tb (number entry) (start_time entry) (end_time entry) (f p))
           (zip batch filled))
  = map Spec.identity batch.
Proof.
  revert filled. induction batch as [|e es IH]; intros [|p ps] Hlen; try done.
  cbn [zip zip_with map]. rewrite identity_mk_entry. f_equal.
  apply IH. simpl in Hlen. lia.
Qed.

Lemma built_entries_content (batch : list SRTEntry) (filled : list str)
    (f : str -> str) :
  length filled = length batch ->
  map content
      (map (fun '(entry, p) =>
              mk_entry tb (number entry) (start_time entry) (end_time entry) (f p))
           (zip batch filled))
  = map (fun p => strip tb (f p)) filled.
Proof.
  revert filled. induction batch as [|e es IH]; intros [|p ps] Hlen; try done.
  cbn [zip zip_with map]. f_equal. apply IH. simpl in Hlen. lia.
Qed.

Lemma raise_when_run (b : bool) (w : world) :
  raise_when b w = (if b then Raised else Returned tt, w).
Proof. by destruct b. Qed.

Lemma analyze_subtitle_context_run (entries : list SRTEntry) (i : nat)
    (w : world) :
  analyze_subtitle_context pr entries i w
  = (if analysis_raises pr entries i then Raised else Returned tt, w).
Proof.
  unfold analysis_raises, analyze_subtitle_context, item, calculate_duration,
    calculate_optimal_char_count, raise_when, bind, raise, ret.
  destruct (entries !! i) as [t|]; [|done].
  destruct (duration_raises pr t); [done|].
  destruct (char_count_raises pr t); [done|].
  destruct (0 <? i).
  - destruct (entries !! (i - 1)) as [p|]; [|done].
    destruct (duration_raises pr p); [done|].
    destruct (i <? length entries - 1); [|done].
    destruct (entries !! (i + 1)) as [n|]; [|done].
    by destruct (duration_raises pr n).
  - destruct (i <? length entries - 1); [|done].
    destruct (entries !! (i + 1)) as [n|]; [|done].
    by destruct (duration_raises pr n).
Qed.

Lemma analyses_run (entries : list SRTEntry) (l : list nat) (w : world) :
  map_m (analyze_subtitle_context pr entries) l w
  = (if forallb (fun i => negb (analysis_raises pr entries i)) l
     then Returned (map (fun _ => tt) l) else Raised, w).
Proof.
  induction l as [|i l IH]; [done|].
  cbn [map_m forallb map]. unfold bind at 1.
  rewrite analyze_subtitle_context_run.
  destruct (analysis_raises pr entries i); [done|]. cbn [negb andb].
  unfold bind at 1. rewrite IH. by destruct (forallb _ l).
Qed.

(** What comes before the request in the two [try] blocks. *)
Lemma single_prelude {A} (k : M A) (entries : list SRTEntry) (i : nat)
    (w : world) :
  (do analyze_subtitle_context pr entries i then
   do raise_when (system_message_raises pr) then k)%eff w
  = if analysis_raises pr entries i || system_message_raises pr
    then (Raised, w) else k w.
Proof.
  unfold bind at 1. rewrite analyze_subtitle_context_run.
  destruct (analysis_raises pr entries i); [done|].
  unfold bind at 1. rewrite raise_when_run.
  by destruct (system_message_raises pr).
Qed.

Lemma batch_prelude {A} (k : M A) (entries : list SRTEntry)
    (start_idx end_idx : nat) (w : world) :
  (do map_m (analyze_subtitle_context pr entries)
            (seq start_idx (end_idx - start_idx)) then
   do raise_when (polish_prompt_raises pr) then
   do raise_when (system_message_raises pr) then k)%eff w
  = if batch_prepared pr entries start_idx end_idx then k w else (Raised, w).
Proof.
  unfold batch_prepared. unfold bind at 1. rewrite analyses_run.
  destruct (forallb _ _); [|done]. cbn [andb].
  unfold bind at 1. rewrite raise_when_run.
  destruct (polish_prompt_raises pr); [done|]. cbn [negb andb].
  unfold bind at 1. rewrite raise_when_run.
  by destruct (system_message_raises pr).
Qed.

Lemma polish_subtitle_batch_finishes (corner_quotes : bool)
    (translate : nat -> translate_outcome) (entries : list SRTEntry) :
  forall fuel start_idx end_idx retry_count w,
    start_idx < end_idx <= length entries ->
    11 * (end_idx - start_idx) - Nat.min retry_count 10 < fuel ->
    finishes_on entries start_idx end_idx
      (polish_subtitle_batch tb json_loads_list pr fuel corner_quotes translate
                             entries start_idx end_idx retry_count w).
Proof.
  induction fuel as [|f IH]; intros start_idx end_idx retry_count w Hrange Hfuel;
    [lia|].
  unfold finishes_on. cbn [polish_subtitle_batch].
  destruct (Nat.leb_spec end_idx start_idx) as [|_]; [lia|].
  destruct (Nat.ltb_spec (length entries) end_idx) as [|_]; [lia|].
  cbn [orb].
  pose proof (slice_length entries start_idx end_idx ltac:(lia)) as Hlen.
  remember (take (end_idx - start_idx) (drop start_idx entries))
    as batch_entries eqn:Hbatch.
  (* the two halves, used by the handler *)
  assert (Hhalves : 1 < end_idx - start_idx -> forall w0,
    finishes_on entries start_idx end_idx
      ((let* first_half :=
          polish_subtitle_batch tb json_loads_list pr f corner_quotes translate
            entries start_idx ((start_idx + end_idx) / 2) 0 in
        let* second_half :=
          polish_subtitle_batch tb json_loads_list pr f corner_quotes translate
            entries ((start_idx + end_idx) / 2) end_idx 0 in
        ret (append_results first_half second_half))%eff w0)).
  { intros Hbig w0. set (mid := (start_idx + end_idx) / 2).
    assert (Hmid : start_idx < mid < end_idx).
    { unfold mid. split.
      - apply Nat.div_le_lower_bound; lia.
      - apply Nat.Div0.div_lt_upper_bound; lia. }
    destruct (IH start_idx mid 0 w0 ltac:(lia) ltac:(lia))
      as (l1 & w1 & E1 & I1).
    destruct (IH mid end_idx 0 w1 ltac:(lia) ltac:(lia))
      as (l2 & w2 & E2 & I2).
    exists (l1 ++ l2), w2. unfold bind. rewrite E1, E2. split; [done|].
    rewrite map_app, I1, I2, <- map_app. f_equal. symmetry.
    apply slice_split. lia. }
  destruct batch_entries as [|entry [|entry2 rest]];
    [simpl in Hlen; lia | |].
  - (* one entry *)
    unfold try_except. rewrite single_prelude.
    destruct (_ || _); [eexists _, _; split; [reflexivity | done]|].
    unfold call_translate, bind, remote. cbn beta.
    destruct (translate _) as [|polished]; cbn.
    + eexists _, _. split; [reflexivity|]. done.
    + eexists _, _. split; [reflexivity|]. done.
  - (* a batch *)
    assert (Hbig : 1 < end_idx - start_idx) by (simpl in Hlen; lia).
    destruct (Nat.ltb_spec 1 (end_idx - start_idx)) as [_|]; [|lia].
    set (n := length (entry :: entry2 :: rest)) in *.
    unfold try_except at 1.
    match goal with
    | |- context [match ?body w with _ => _ end] =>
      destruct (body w) as [[res|] wb] eqn:Ebody
    end; [|rewrite Hbatch; apply Hhalves; exact Hbig].
    (* the body returned: follow it *)
    revert Ebody. rewrite batch_prelude.
    destruct (batch_prepared pr entries start_idx end_idx); [|done].
    unfold bind at 1. unfold call_translate at 1.
    unfold bind at 1. unfold remote at 1. cbn beta. cbn [calls slept].
    destruct (translate _) as [|polished_combined]; [done|].
    cbn [ret]. unfold bind at 1.
    set (w1 := {| calls := S (calls w); slept := slept w |}).
    match goal with
    | |- context [match ?p w1 with _ => _ end] =>
      destruct (p w1) as [[parsed|] w2] eqn:Eparsed
    end; [|done].
    assert (Hparsed : forall l, parsed = Some l -> length l = n).
    { intros l ->. revert Eparsed.
      destruct (_parse_json_array tb json_loads_list polished_combined n)
        as [l1|] eqn:E1.
      - intros [= <- _]. by apply parse_json_array_length in E1.
      - unfold call_translate, bind, remote. cbn beta.
        destruct (translate _) as [|strict_resp]; [done|].
        cbn. intros [= E2 _]. by apply parse_json_array_length in E2. }
    set (polished_contents :=
           match parsed with
           | Some l => map Some l
           | None => replicate n None
           end).
    assert (Hpc : length polished_contents = n).
    { unfold polished_contents. destruct parsed as [l|].
      - rewrite length_map. by apply Hparsed.
      - apply length_replicate. }
    destruct (existsb (_bad tb) polished_contents && (retry_count <? 10)) eqn:Eretry.
    + (* the whole batch is polished again *)
      apply andb_true_iff in Eretry as [_ Hrc%Nat.ltb_lt].
      intros Ebody.
      destruct (IH start_idx end_idx (retry_count + 1) w2 ltac:(lia) ltac:(lia))
        as (l & w' & E & I).
      rewrite E in Ebody. injection Ebody as <- <-.
      exists l, w'. split; [done|]. rewrite I. by rewrite Hbatch.
    + rewrite heal_length_same by (rewrite fill_missing_length; lia).
      rewrite fill_missing_length, Hpc, Nat.eqb_refl. cbn [negb].
      unfold ret. intros Ebody. injection Ebody as Hres Hw. subst res wb.
      eexists _, _. split; [reflexivity|].
      refine (built_entries_identity (entry :: entry2 :: rest)
                (fill_missing polished_contents (entry :: entry2 :: rest))
                (fun p => clean_polished_content tb corner_quotes (Some p)) _).
      rewrite fill_missing_length. lia.
Qed.

End PolishBatch.

(** ** Identity fields through the corrector *)

Section CorrectorIdentity.
Import Py Srt Eff Corrector.
Local Open Scope nat_scope.
Context (tb : tables).

Lemma correct_subtitle_entry_identity (o : format_options)
    (post : nat -> http_outcome) (entry : SRTEntry) (w : world) :
  match correct_subtitle_entry tb o post entry w with
  | (Returned e, _) => Spec.identity e = Spec.identity entry
  | (Raised, _) => True
  end.
Proof.
  unfold correct_subtitle_entry.
  destruct (negb (_needs_correction _)).
  - destruct (negb (eqs _ _)); cbn; done.
  - unfold bind.
    destruct (correct_text_with_context tb post _ MAX_API_RETRIES w)
      as [[[c|]|] w']; cbn; done.
Qed.

Lemma correct_entries_identity (o : format_options)
    (post : nat -> http_outcome) (entries : list SRTEntry) :
  forall w, exists l w',
    correct_entries tb o post entries w = (Returned l, w')
    /\ map Spec.identity l = map Spec.identity entries.
Proof.
  unfold correct_entries.
  induction entries as [|e es IH]; intros w; cbn [map_m].
  - by exists [], w.
  - unfold bind at 1. unfold try_except at 1.
    pose proof (correct_subtitle_entry_identity o post e w) as He.
    destruct (correct_subtitle_entry tb o post e w) as [[e'|] w1].
    + destruct (IH w1) as (l & w' & E & I). unfold bind. rewrite E.
      exists (e' :: l), w'. split; [done|]. cbn [map]. by rewrite He, I.
    + cbn [ret]. destruct (IH w1) as (l & w' & E & I). unfold bind. rewrite E.
      exists (e :: l), w'. split; [done|]. cbn [map]. by rewrite I.
Qed.

Lemma batch_retry_returns (post : nat -> http_outcome)
    (need_correction : list SRTEntry) :
  forall remaining attempt last w, exists r w',
    batch_retry tb post need_correction remaining attempt last w = (Returned r, w').
Proof.
  induction remaining as [|rest IH]; intros attempt last w; cbn [batch_retry].
  - by exists last, w.
  - unfold bind at 1. unfold try_except.
    match goal with
    | |- context [match ?body w with _ => _ end] =>
      destruct (body w) as [[step|] w1] eqn:Ebody
    end.
    + destruct step as [r|r]; [by exists r, w1 | apply IH].
    + destruct (attempt =? MAX_BATCH_RETRIES - 1); cbn [ret]; apply IH.
Qed.

Lemma filter_partition_Permutation {A} (p : A -> bool) (l : list A) :
  List.filter p l ++ List.filter (fun x => negb (p x)) l ≡ₚ l.
Proof.
  induction l as [|x l IH]; [done|]. cbn [List.filter].
  destruct (p x); cbn [negb app].
  - by constructor.
  - rewrite <- Permutation_middle. by constructor.
Qed.

Lemma zipped_entries_identity (need : list SRTEntry) (results : list (option str)) :
  length results = length need ->
  map Spec.identity
    (map (fun '(entry, corrected_text) =>
            match corrected_text with
            | Some t => mk_entry tb (number entry) (start_time entry)
                                 (end_time entry) t
            | None => entry
            end) (zip need results))
  = map Spec.identity need.
Proof.
  revert results. induction need as [|e es IH]; intros [|r rs] Hlen; try done.
  cbn [zip zip_with map]. f_equal; [by destruct r|].
  apply IH. simpl in Hlen. lia.
Qed.

Lemma true_batch_corrected (post : nat -> http_outcome) (need : list SRTEntry)
    (w : world) :
  exists corrected w',
    (match need with
     | [] => ret []
     | _ =>
       (let* r := batch_retry tb post need MAX_BATCH_RETRIES 0 None in
        let corrected_results :=
          match r with
          | Some ((_ :: _) as l) =>
            if length l =? length need then l
            else replicate (length need) None
          | _ => replicate (length need) None
          end in
        ret (map (fun '(entry, corrected_text) =>
                    match corrected_text with
                    | Some t => mk_entry tb (number entry) (start_time entry)
                                         (end_time entry) t
                    | None => entry
                    end)
                 (zip need corrected_results)))%eff
     end) w = (Returned corrected, w')
    /\ map Spec.identity corrected = map Spec.identity need.
Proof.
  destruct need as [|e es] eqn:En; [by exists [], w|]. rewrite <- En.
  destruct (batch_retry_returns post need MAX_BATCH_RETRIES 0 None w)
    as (r & w' & E).
  unfold bind. rewrite E. eexists _, w'. split; [reflexivity|].
  apply zipped_entries_identity.
  destruct r as [[|x l]|]; try apply length_replicate.
  destruct (_ =? _) eqn:E1; [by apply Nat.eqb_eq in E1 | apply length_replicate].
Qed.

Lemma true_batch_identity (o : format_options) (post : nat -> http_outcome)
    (interrupt : option nat) (batch : list SRTEntry) (w : world) :
  exists l w',
    _process_single_true_batch tb o post interrupt batch w = (Returned l, w')
    /\ Forall (fun r => exists e, e ∈ batch /\ Spec.identity r = Spec.identity e) l
    /\ (interrupt = None -> map Spec.identity l ≡ₚ map Spec.identity batch).
Proof.
  unfold _process_single_true_batch. cbv zeta.
  set (formatted := map _ batch).
  assert (Hf : map Spec.identity formatted = map Spec.identity batch).
  { unfold formatted. clear. induction batch as [|e es IH]; [done|].
    cbn [map]. by rewrite IH. }
  set (need := List.filter _ formatted).
  set (rest := List.filter _ formatted).
  destruct (true_batch_corrected post need w) as (corrected & w' & E & I).
  cbv zeta in E. unfold bind at 1. rewrite E.
  assert (Hperm : map Spec.identity (corrected ++ rest) ≡ₚ map Spec.identity batch).
  { rewrite map_app, I, <- map_app, <- Hf. apply Permutation_map.
    apply filter_partition_Permutation. }
  assert (Hall : Forall (fun r => exists e, e ∈ batch
                                    /\ Spec.identity r = Spec.identity e)
                        (corrected ++ rest)).
  { apply Forall_forall. intros r Hr.
    assert (Hin : Spec.identity r ∈ map Spec.identity batch).
    { rewrite <- Hperm. by apply list_elem_of_fmap_2. }
    apply list_elem_of_fmap in Hin as (e & He & Hin). eauto. }
  destruct interrupt as [k|]; cbn [ret].
  - eexists _, w'. split; [reflexivity|]. split; [|done].
    apply Forall_app. split.
    + apply Forall_take. by apply Forall_app in Hall as [Hc _].
    + apply Forall_forall. intros e He. eauto.
  - eexists _, w'. split; [reflexivity|]. split; [done|]. done.
Qed.

End CorrectorIdentity.

Section Claims27.
Import Py Srt Eff.
Local Open Scope nat_scope.

(** C7.  Every record that a transformation produces has the sequence
    number, start time and end time of the record it was made from.  For
    [polish_subtitle_batch] on a valid range the result lists the
    identity fields of the slice in order, whatever the service answers
    or raises; [correct_subtitle_entry] keeps them, and so does the
    sequential loop around it when the correction raises; the entries
    returned by [_process_single_true_batch] carry identity fields of
    entries of the batch, also through its exception handler, and
    without an exception they are those of the batch up to order. *)
Theorem identity_fields_preserved (tb : tables)
    (json_loads_list : str -> option (list str))
    (pr : Polisher.preparation) :
  (forall corner_quotes translate entries start_idx end_idx retry_count w,
     start_idx < end_idx <= length entries ->
     exists l w',
       Polisher.polish_subtitle_batch tb json_loads_list pr
         (Polisher.polish_fuel start_idx end_idx) corner_quotes translate
         entries start_idx end_idx retry_count w = (Returned (Some l), w')
       /\ map Spec.identity l
          = map Spec.identity (take (end_idx - start_idx) (drop start_idx entries)))
  /\ (forall o post entry w,
        match Corrector.correct_subtitle_entry tb o post entry w with
        | (Returned e, _) => Spec.identity e = Spec.identity entry
        | (Raised, _) => True
        end)
  /\ (forall o post entries w, exists l w',
        Corrector.correct_entries tb o post entries w = (Returned l, w')
        /\ map Spec.identity l = map Spec.identity entries)
  /\ (forall o post interrupt batch w, exists l w',
        Corrector._process_single_true_batch tb o post interrupt batch w
        = (Returned l, w')
        /\ Forall (fun r => exists e, e ∈ batch
                                      /\ Spec.identity r = Spec.identity e) l
        /\ (interrupt = None ->
            map Spec.identity l ≡ₚ map Spec.identity batch)).
Proof.
  split; [|split; [|split]].
  - intros corner_quotes translate entries start_idx end_idx retry_count w Hr.
    apply polish_subtitle_batch_finishes; [done|].
    unfold Polisher.polish_fuel. lia.
  - apply correct_subtitle_entry_identity.
  - apply correct_entries_identity.
  - apply true_batch_identity.
Qed.

End Claims27.

Lemma identity_fields_preserved_witness :
  let entries := [Notions.sample_entry 1 "hello"; Notions.sample_entry 2 "world"] in
  let translate := fun _ : nat =>
    Polisher.TReturn (Some (Examples.json_array [Py.lit "HELLO"; Py.lit "WORLD"])) in
  (0 < 2 <= length entries)%nat
  /\ exists l w',
       Polisher.polish_subtitle_batch Py.py_tables Examples.json_loads_list
         Examples.preparation
         (Polisher.polish_fuel 0 2) false translate entries 0 2 0 Eff.world0
       = (Eff.Returned (Some l), w')
       /\ map Spec.identity l = map Spec.identity entries.
Proof.
  intros entries translate.
  split; [cbn; lia|].
  exact (proj1 (identity_fields_preserved Py.py_tables Examples.json_loads_list
                  Examples.preparation)
           false translate entries 0%nat 2%nat 0%nat Eff.world0
           ltac:(cbn; lia)).
Defined.

(** C2 (evaluation at the failing input).  A batch of one record whose
    response is the echoed time line [00:00:01,000 --> 00:00:02,000]:
    the single-entry path does not test the response, the cleanup
    removes all of it, and the entry returned has an empty content
    instead of the original ["hello"].  In a batch of two, an element
    ["---"] passes [_bad] and is emptied by the cleanup as well. *)
Lemma polish_leaves_empty_content :
  Polisher.polish_subtitle_batch Py.py_tables Examples.json_loads_list
    Examples.preparation
    (Polisher.polish_fuel 0 1) false
    (fun _ => Polisher.TReturn (Some (Py.lit "00:00:01,000 --> 00:00:02,000")))
    [Notions.sample_entry 1 "hello"] 0 1 0 Eff.world0
  = (Eff.Returned (Some [Notions.sample_entry 1 ""]), Eff.World 1 [])
  /\ Polisher.polish_subtitle_batch Py.py_tables Examples.json_loads_list
       Examples.preparation
       (Polisher.polish_fuel 0 2) false
       (fun _ => Polisher.TReturn
                   (Some (Examples.json_array [Py.lit "---"; Py.lit "ok"])))
       [Notions.sample_entry 1 "hello"; Notions.sample_entry 2 "world"] 0 2 0 Eff.world0
     = (Eff.Returned (Some [Notions.sample_entry 1 ""; Notions.sample_entry 2 "ok"]),
        Eff.World 1 []).
Proof. split; vm_compute; reflexivity. Qed.

(** ** Rendering and parsing *)

Section RoundTrip.
Import Py Re Srt Notions.
Context (tb : tables) (Htb : tables_ok tb).

(** Numbers *)

Lemma digits_fuel_spec (f : nat) :
  forall n acc, n < 2 ^ N.of_nat f ->
    exists ds, digits_fuel f n acc = ds ++ acc
               /\ Forall (fun x => ascii_digit x = true) ds
               /\ (f <> 0%nat -> ds <> [])
               /\ forall a0, fold_left (fun a c => a * 10 + digit_value tb c) ds a0
                             = a0 * 10 ^ N.of_nat (length ds) + n.
Proof.
  induction f as [|f IH]; intros n acc Hn.
  - exists []. cbn. split; [done|]. split; [done|]. split; [done|].
    intros a0. cbn in Hn. lia.
  - cbn [digits_fuel]. destruct (N.ltb_spec n 10) as [Hlt | Hge].
    + exists [48 + n mod 10]. split; [done|]. split.
      { constructor; [|done]. unfold ascii_digit, in_range.
        rewrite N.mod_small by done. apply andb_true_iff.
        split; apply N.leb_le; [apply N.le_add_r | lia]. }
      split; [done|]. intros a0. cbn.
      rewrite (digit_value_ascii tb Htb).
      2:{ unfold ascii_digit, in_range. rewrite N.mod_small by done.
          apply andb_true_iff. split; apply N.leb_le; [apply N.le_add_r | lia]. }
      rewrite N.mod_small by done.
      replace (48 + n - 48) with n by (rewrite N.add_comm; symmetry; apply N.add_sub).
      done.
    + assert (Hdiv : n / 10 < 2 ^ N.of_nat f).
      { rewrite Nat2N.inj_succ, N.pow_succ_r' in Hn.
        apply N.Div0.div_lt_upper_bound.
        eapply N.lt_le_trans; [exact Hn|]. apply N.mul_le_mono_r. lia. }
      destruct (IH (n / 10) ((48 + n mod 10) :: acc) Hdiv)
        as (ds & E & Hall & _ & Hval).
      exists (ds ++ [48 + n mod 10]). rewrite E, <- app_assoc. split; [done|].
      pose proof (N.mod_upper_bound n 10 ltac:(lia)) as Hm.
      assert (Hd : ascii_digit (48 + n mod 10) = true).
      { unfold ascii_digit, in_range. apply andb_true_iff.
        split; apply N.leb_le; [apply N.le_add_r | lia]. }
      split; [apply Forall_app; split; [done | by constructor]|].
      split; [by destruct ds|]. intros a0.
      rewrite fold_left_app, Hval. cbn [fold_left].
      rewrite (digit_value_ascii tb Htb) by done.
      rewrite length_app, Nat2N.inj_add. cbn [length].
      change (N.of_nat 1) with 1. rewrite N.pow_add_r, N.pow_1_r.
      pose proof (N.div_mod n 10 ltac:(lia)) as Hdm.
      replace (48 + n mod 10 - 48) with (n mod 10)
        by (rewrite N.add_comm; symmetry; apply N.add_sub).
      rewrite Hdm at 3. ring.
Qed.

Lemma str_of_N_spec (n : N) :
  exists d ds, str_of_N n = d :: ds
               /\ Forall (fun x => is_digit tb x = true) (d :: ds)
               /\ int_of_str tb (d :: ds) = n.
Proof.
  unfold str_of_N.
  destruct (digits_fuel_spec (S (N.to_nat (N.log2 n))) n []) as (ds & E & Hall & Hne & Hval).
  { rewrite Nat2N.inj_succ, N2Nat.id. destruct n as [|p]; [done|].
    apply N.log2_spec. lia. }
  rewrite app_nil_r in E. destruct ds as [|d ds]; [by destruct Hne|].
  exists d, ds. split; [done|]. split.
  - eapply Forall_impl; [exact Hall|]. intros x. apply ascii_digit_is_digit, Htb.
  - unfold int_of_str. rewrite Hval. lia.
Qed.

(** Positions *)

Lemma consumed_app (bef a x b : str) :
  consumed (Cur bef a) (Cur (rev x ++ bef) b) = x.
Proof.
  unfold consumed, pos. cbn [before]. rewrite length_app, length_rev.
  replace (length x + length bef - length bef)%nat with (length (rev x))
    by (rewrite length_rev; lia).
  by rewrite take_app_length, rev_involutive.
Qed.

(** Pieces of the pattern *)

Lemma run_timestamp (t : str) (k : cont) (bef rest : str) (c : caps) :
  Spec.is_timestamp tb t = true ->
  run (timestamp tb) k (Cur bef (t ++ rest)) c = k (Cur (rev t ++ bef) rest) c.
Proof.
  intros H.
  do 12 (destruct t as [|? t]; [discriminate H|]).
  destruct t; [|discriminate H]. cbn [Spec.is_timestamp] in H.
  repeat (apply andb_true_iff in H as [H ?]).
  repeat match goal with E : (_ =? _) = true |- _ => apply N.eqb_eq in E; subst end.
  unfold timestamp, seqs, d, chr. cbn [run after before app].
  repeat match goal with E : is_digit tb _ = true |- _ => rewrite E; clear E end.
  reflexivity.
Qed.

Lemma run_ws_skip (k : cont) (bef rest : str) (c : caps) :
  starts_nonspace tb rest ->
  run (ws tb) k (Cur bef rest) c = k (Cur bef rest) c.
Proof.
  intros H. unfold ws, star. cbn [run]. apply star_loop_stop.
  intros k'. unfold s. destruct rest as [|y rest]; [done|].
  rewrite run_cls_cons. cbn in H. by rewrite H.
Qed.

Lemma run_ws_nl (k : cont) (bef rest : str) (c : caps) :
  starts_nonspace tb rest ->
  run (ws tb) (run (chr NL) k) (Cur bef (NL :: rest)) c
  = k (Cur (NL :: bef) rest) c.
Proof.
  intros H. unfold ws, star, s.
  change (run (Star true ?a) ?k ?z ?c)
    with (star_loop (run a) true k (S (length (after z))) z c).
  cbn [star_loop after length].
  rewrite run_cls_cons, (space_NL tb Htb). cbn [after length].
  destruct (Nat.ltb_spec (length rest) (S (length rest))); [|lia].
  assert (Hfail : run (chr NL) k (Cur (NL :: bef) rest) c = None).
  { destruct rest as [|y rest]; [done|]. unfold chr. rewrite run_cls_cons.
    cbn in H. apply (not_space_not_NL tb Htb) in H.
    destruct (N.eqb_spec NL y); [congruence | done]. }
  destruct rest as [|y rest].
  - cbn [length star_loop]. by rewrite run_chr_cons.
  - cbn [length star_loop]. rewrite run_cls_cons. cbn in H. rewrite H.
    rewrite Hfail. apply run_chr_cons.
Qed.

Lemma run_ws_space (k : cont) (res : cursor * caps) (bef rest : str) (c : caps) :
  starts_nonspace tb rest ->
  k (Cur (SP :: bef) rest) c = Some res ->
  run (ws tb) k (Cur bef (SP :: rest)) c = Some res.
Proof.
  intros H Hk. unfold ws, s.
  apply (run_star_cls_greedy (is_space tb) k res [SP] bef rest c); try done.
  constructor; [apply (space_SP tb Htb) | done].
Qed.

Lemma line_ok_dot (l : str) :
  line_ok l -> exists x xs, l = x :: xs
    /\ Forall (fun y => negb (y =? NL) = true) (x :: xs).
Proof.
  intros [Hne Hnl]. destruct l as [|x xs]; [done|]. exists x, xs. split; [done|].
  apply Forall_forall. intros y Hy. apply negb_true_iff, N.eqb_neq. by intros ->.
Qed.

Lemma run_line_body (k : cont) (res : cursor * caps) (l bef rest : str) (c : caps) :
  line_ok l ->
  k (Cur (rev (l ++ [NL]) ++ bef) rest) c = Some res ->
  run line_body k (Cur bef ((l ++ [NL]) ++ rest)) c = Some res.
Proof.
  intros (x & xs & -> & Hall)%line_ok_dot Hk. unfold line_body.
  change (run (Seq ?a ?b) ?k ?z ?c) with (run a (run b k) z c).
  rewrite <- app_assoc. unfold dot, not_chr.
  apply run_plus_cls_greedy; [done | | reflexivity].
  cbn [run app]. rewrite run_chr_cons.
  rewrite rev_app_distr in Hk. cbn [rev app] in Hk. cbn [rev].
  by rewrite Hk.
Qed.

Lemma star_lazy_lines (k : cont) (res : cursor * caps) (tail : str) (c : caps) :
  forall ls bef f,
    Forall line_ok ls ->
    (length (text_of ls ++ tail) < f)%nat ->
    (forall pre post, ls = pre ++ post -> post <> [] ->
       k (Cur (rev (text_of pre) ++ bef) (text_of post ++ tail)) c = None) ->
    k (Cur (rev (text_of ls) ++ bef) tail) c = Some res ->
    star_loop (run line_body) false k f (Cur bef (text_of ls ++ tail)) c
    = Some res.
Proof.
  induction ls as [|l ls IH]; intros bef f Hall Hf Hmid Hend.
  - destruct f as [|f]; [lia|]. unfold text_of in *.
    cbn [map concat app rev] in *. cbn [star_loop]. by rewrite Hend.
  - destruct f as [|f]; [lia|]. cbn [star_loop].
    pose proof (Hmid [] (l :: ls) eq_refl ltac:(done)) as H0.
    change (rev (text_of []) ++ bef) with bef in H0. rewrite H0. clear H0.
    apply Forall_cons in Hall as [Hl Hall].
    unfold text_of. cbn [map concat]. fold (text_of ls).
    rewrite <- app_assoc.
    apply run_line_body; [done|]. cbn [after].
    unfold text_of in Hf. cbn [map concat] in Hf. fold (text_of ls) in Hf.
    rewrite <- app_assoc in Hf. rewrite !length_app in Hf. cbn [length] in Hf.
    destruct (Nat.ltb_spec (length (text_of ls ++ tail))
                (length ((l ++ [NL]) ++ text_of ls ++ tail))) as [_|Hbad].
    2:{ rewrite !length_app in Hbad. cbn [length] in Hbad. lia. }
    apply IH; [done | rewrite !length_app in *; lia | |].
    + intros pre post -> Hpost.
      specialize (Hmid (l :: pre) post eq_refl Hpost).
      unfold text_of in Hmid. cbn [map concat] in Hmid. fold (text_of pre) in Hmid.
      by rewrite rev_app_distr, <- app_assoc in Hmid.
    + unfold text_of in Hend. cbn [map concat] in Hend. fold (text_of ls) in Hend.
      by rewrite rev_app_distr, <- app_assoc in Hend.
Qed.


Lemma join_text_of (l : str) (ls : list str) :
  join [NL] (l :: ls) ++ [NL] = text_of (l :: ls).
Proof.
  revert l. induction ls as [|l' ls IH]; intros l.
  - unfold text_of. cbn. by rewrite app_nil_r.
  - change (join [NL] (l :: l' :: ls)) with (l ++ [NL] ++ join [NL] (l' :: ls)).
    rewrite <- !app_assoc, IH. unfold text_of. cbn [map concat].
    rewrite <- !app_assoc. reflexivity.
Qed.

Lemma content_lines (t : str) :
  Spec.no_empty_line t ->
  exists l ls, t ++ [NL] = text_of (l :: ls) /\ Forall line_ok (l :: ls).
Proof.
  intros Hne. pose proof (split_nl_no_NL t) as Hnl.
  pose proof (join_split_nl t) as Hj. unfold Spec.no_empty_line in Hne.
  destruct (split_nl t) as [|l ls] eqn:E.
  { unfold split_nl in E.
    destruct (split_chr_acc NL [] t) as (? & ? & _ & E'). congruence. }
  exists l, ls. split; [by rewrite <- Hj, join_text_of|].
  apply Forall_forall. intros x Hx. split.
  - by apply (proj1 (Forall_forall _ _) Hne).
  - by apply (proj1 (Forall_forall _ _) Hnl).
Qed.

Lemma timestamp_head (t : str) :
  Spec.is_timestamp tb t = true ->
  exists c t', t = c :: t' /\ is_space tb c = false.
Proof.
  intros H. destruct t as [|c t]; [discriminate H|]. exists c, t. split; [done|].
  apply (digit_not_space tb Htb).
  do 11 (destruct t as [|? t]; [discriminate H|]).
  destruct t; [|discriminate H]. cbn [Spec.is_timestamp] in H.
  repeat (apply andb_true_iff in H as [H ?]). done.
Qed.

(** The end of the pattern, [(?:\n|$)], cannot start inside the content. *)
Lemma closing_fails_inside (l : str) (bef rest : str) (c : caps) :
  line_ok l ->
  run (Alt (chr NL) Eol) accept (Cur bef (l ++ rest)) c = None.
Proof.
  intros (x & xs & -> & Hall)%line_ok_dot.
  apply Forall_cons in Hall as [Hx _]. apply negb_true_iff in Hx.
  cbn [run app after at_eol chr]. rewrite Hx.
  rewrite N.eqb_sym in Hx. by rewrite Hx.
Qed.

Lemma run_grp (n : nat) (a : re) (k : cont) (z : cursor) (c : caps) :
  run (Grp n a) k z c
  = run a (fun z' c' => k z' ((n, consumed z z') :: c')) z c.
Proof. reflexivity. Qed.

Lemma run_seq (a b : re) (k : cont) (z : cursor) (c : caps) :
  run (Seq a b) k z c = run a (run b k) z c.
Proof. reflexivity. Qed.

Lemma run_seq_k (a b : re) (k : cont) :
  run (Seq a b) k = run a (run b k).
Proof. reflexivity. Qed.

Lemma run_arrow (k : cont) (bef rest : str) (c : caps) :
  run arrow k (Cur bef (45 :: 45 :: 62 :: rest)) c
  = k (Cur (62 :: 45 :: 45 :: bef) rest) c.
Proof. exact (run_text [45; 45; 62] k bef rest c). Qed.

Lemma run_star (g : bool) (a : re) (k : cont) (z : cursor) (c : caps) :
  run (Star g a) k z c = star_loop (run a) g k (S (length (after z))) z c.
Proof. reflexivity. Qed.

(** One record of a rendered file is matched as a whole, up to and with
    the empty line that follows it. *)
Lemma match_entry (e : SRTEntry) (bef sep rest : str) :
  Spec.well_formed tb e -> Spec.no_empty_line (content e) ->
  (sep = [] /\ rest = []) \/ sep = [NL] ->
  exists bef',
    match_at (SRT_PATTERN tb) (Cur bef (to_string e ++ sep ++ rest))
    = Some (Cur bef' rest, entry_caps e).
Proof.
  intros (Hpos & Hst & Hen & Hne & Hstrip) Hlines Hsep.
  destruct (str_of_N_spec (number e)) as (d0 & ds & Hnum & Hdig & _).
  destruct (content_lines _ Hlines) as (l & ls & Htext & Hok).
  destruct (timestamp_head _ Hst) as (s0 & st' & Est & Hs0).
  destruct (timestamp_head _ Hen) as (e0 & en' & Een & He0).
  assert (Hc0 : starts_nonspace tb (content e ++ [NL] ++ sep ++ rest)).
  { destruct (content e) as [|c0 ct] eqn:Ec; [done|].
    cbn. by apply (strip_fixed_head tb c0 ct). }
  exists (rev sep ++ rev (content e ++ [NL]) ++ NL :: rev (end_time e)
          ++ SP :: 62 :: 45 :: 45 :: SP :: rev (start_time e)
          ++ NL :: rev (str_of_N (number e)) ++ bef).
  unfold match_at, SRT_PATTERN, to_string, entry_caps.
  cbn [seqs]. rewrite !run_seq_k.
  change (lit " --> ") with ([SP] ++ [45; 45; 62] ++ [SP]).
  rewrite <- !app_assoc. rewrite Hnum.
  (* the number *)
  rewrite run_grp.
  unfold d. apply run_plus_cls_greedy; [done | | ].
  2:{ cbn [app]. destruct (is_digit tb NL) eqn:E; [|done].
      by apply (digit_not_NL tb Htb) in E. }
  cbn beta. rewrite consumed_app.
  (* the end of its line *)
  cbn [app].
  rewrite run_ws_nl by (rewrite Est; exact Hs0).
  (* the start time *)
  rewrite run_grp.
  rewrite run_timestamp by done. cbn beta. rewrite consumed_app.
  (* the arrow between two spaces *)
  apply run_ws_space.
  { cbn. apply (space_ascii tb Htb). done. }
  rewrite run_arrow.
  apply run_ws_space.
  { rewrite Een. exact He0. }
  (* the end time and the end of its line *)
  rewrite run_grp.
  rewrite run_timestamp by done. cbn beta. rewrite consumed_app.
  cbn [app].
  rewrite run_ws_nl by exact Hc0.
  (* the content *)
  rewrite run_grp.
  change (content e ++ NL :: sep ++ rest) with (content e ++ [NL] ++ sep ++ rest).
  rewrite (app_assoc (content e)), Htext.
  unfold text_of. cbn [map concat]. fold (text_of ls). rewrite <- app_assoc.
  unfold plus_lazy.
  rewrite run_seq.
  apply Forall_cons in Hok as [Hl Hok].
  apply (run_line_body _ _ l); [done|].
  rewrite run_star.
  cbn [after]. apply star_lazy_lines; [done | lia | |].
  - intros pre post -> Hpost. destruct post as [|l' post]; [done|].
    cbn beta. unfold text_of at 2. cbn [map concat].
    rewrite <- !app_assoc. apply closing_fails_inside.
    apply Forall_app in Hok as [_ Hok]. by apply Forall_cons in Hok as [? _].
  - cbn beta. rewrite app_assoc, <- rev_app_distr, consumed_app.
    unfold text_of in Htext. cbn [map concat] in Htext. fold (text_of ls) in Htext.
    rewrite <- Htext.
    destruct Hsep as [[-> ->] | ->].
    + cbn [run app after at_eol accept]. reflexivity.
    + cbn [app]. cbn [run after chr]. rewrite N.eqb_refl. reflexivity.
Qed.


Lemma to_string_length (e : SRTEntry) : (0 < length (to_string e))%nat.
Proof.
  unfold to_string. destruct (str_of_N_spec (number e)) as (d0 & ds & -> & _).
  cbn [app length]. lia.
Qed.

(** What the parser builds from the groups of a rendered record. *)
Lemma entry_of_rendered (e : SRTEntry) (z z' : cursor) :
  Spec.well_formed tb e ->
  entry_of_match tb (Match z z' (entry_caps e)) = e.
Proof.
  intros (Hpos & Hst & Hen & Hne & Hstrip).
  unfold entry_of_match, entry_caps, mk_entry. cbn [m_caps group Nat.eqb].
  destruct (str_of_N_spec (number e)) as (d0 & ds & -> & _ & ->).
  rewrite (strip_idempotent tb), (strip_snoc_NL tb Htb) by done.
  by destruct e.
Qed.

Lemma finditer_rendered (es : list SRTEntry) :
  Forall (Spec.well_formed tb) es ->
  Forall (fun e => Spec.no_empty_line (content e)) es ->
  forall fuel bef,
    (length (write_srt es) < fuel)%nat ->
    map (entry_of_match tb) (finditer_at (SRT_PATTERN tb) fuel bef (write_srt es))
    = es.
Proof.
  induction es as [|e es IH]; intros Hwf Hlines fuel bef Hfuel.
  - destruct fuel as [|f]; [done|]. reflexivity.
  - apply Forall_cons in Hwf as [He Hwf]. apply Forall_cons in Hlines as [Hl Hlines].
    destruct fuel as [|f]; [lia|]. pose proof (to_string_length e) as Hlen.
    destruct es as [|e' es].
    + cbn [write_srt finditer_at].
      destruct (match_entry e bef [] [] He Hl (or_introl (conj eq_refl eq_refl)))
        as (bef' & Hm).
      cbn [app] in Hm. rewrite app_nil_r in Hm. rewrite Hm. cbn [after length].
      destruct (Nat.ltb_spec 0 (length (to_string e))) as [_|]; [|lia].
      cbn [map]. rewrite (entry_of_rendered e) by done. cbn [before].
      destruct f as [|f]; [done|]. reflexivity.
    + change (write_srt (e :: e' :: es))
        with (to_string e ++ [NL] ++ write_srt (e' :: es)) in *.
      cbn [finditer_at].
      destruct (match_entry e bef [NL] (write_srt (e' :: es)) He Hl
                  (or_intror eq_refl)) as (bef' & Hm).
      rewrite Hm. cbn [after before].
      rewrite !length_app in Hfuel. cbn [length] in Hfuel.
      destruct (Nat.ltb_spec (length (write_srt (e' :: es)))
                  (length (to_string e ++ [NL] ++ write_srt (e' :: es))))
        as [_|Hbad].
      2:{ rewrite !length_app in Hbad. cbn [length] in Hbad. lia. }
      cbn [map]. rewrite (entry_of_rendered e) by done.
      f_equal. apply IH; [done | done | lia].
Qed.

End RoundTrip.

Lemma py_tables_ok : Py.tables_ok Py.py_tables.
Proof.
  split.
  - intros c Hc. cbn [Py.is_space Py.py_tables]. unfold Py.py_space, Py.in_range.
    repeat match goal with
           | |- context [(?a =? ?b)] =>
             destruct (N.eqb_spec a b); [lia|]
           end.
    destruct (N.leb_spec 8192 c); [lia|]. cbn [andb].
    by rewrite !orb_false_r.
  - done.
  - intros c Hd. cbn [Py.is_space Py.is_digit Py.py_tables] in *.
    unfold Py.ascii_digit, Py.py_space, Py.in_range in *.
    apply andb_true_iff in Hd as [H1%N.leb_le H2%N.leb_le].
    repeat match goal with
           | |- context [(?a =? ?b)] =>
             destruct (N.eqb_spec a b); [lia|]
           end.
    repeat match goal with
           | |- context [(?a <=? ?b)] =>
             destruct (N.leb_spec a b); try lia
           end; reflexivity.
  - done.
Qed.

(** C5 (as stated).  A record whose content is stripped and not empty
    but holds an empty line, [a / (empty) / b]: the rendered text is
    parsed into a record with the content [a], the pattern ends the
    record at the empty line, and the second rendering has lost [b]. *)
Lemma round_trip_loses_text_after_empty_line :
  let e := Srt.Entry 1 (Py.lit "00:00:01,000") (Py.lit "00:00:02,000")
                     [97; Py.NL; Py.NL; 98] in
  Spec.well_formed Py.py_tables e
  /\ Srt.parse_srt Py.py_tables (Srt.write_srt [e])
     = [Srt.Entry 1 (Py.lit "00:00:01,000") (Py.lit "00:00:02,000") [97]]
  /\ Srt.write_srt (Srt.parse_srt Py.py_tables (Srt.write_srt [e]))
     <> Srt.write_srt [e].
Proof.
  intros e. split; [|split].
  - repeat split; done.
  - vm_compute. reflexivity.
  - vm_compute. discriminate.
Qed.

(** C5 (amended).  For records with a positive number, two timestamps of
    the form [HH:MM:SS,mmm] and a content that is stripped, not empty
    and without an empty line, parsing the rendered file gives the
    records back, so rendering, parsing and rendering again gives the
    text of the first rendering. *)
Theorem round_trip_without_empty_lines (tb : Py.tables)
    (es : list Srt.SRTEntry) :
  Py.tables_ok tb ->
  Forall (Spec.well_formed tb) es ->
  Forall (fun e => Spec.no_empty_line (Srt.content e)) es ->
  Srt.parse_srt tb (Srt.write_srt es) = es
  /\ Srt.write_srt (Srt.parse_srt tb (Srt.write_srt es)) = Srt.write_srt es.
Proof.
  intros Htb Hwf Hlines.
  assert (H : Srt.parse_srt tb (Srt.write_srt es) = es).
  { unfold Srt.parse_srt, Re.finditer. apply finditer_rendered; try done. lia. }
  split; [exact H | by rewrite H].
Qed.

Lemma round_trip_without_empty_lines_witness :
  let es := [Srt.Entry 1 (Py.lit "00:00:01,000") (Py.lit "00:00:02,000")
                       [97; Py.NL; 98];
             Notions.sample_entry 2 "c"] in
  Srt.parse_srt Py.py_tables (Srt.write_srt es) = es
  /\ Srt.write_srt (Srt.parse_srt Py.py_tables (Srt.write_srt es))
     = Srt.write_srt es.
Proof.
  intros es.
  apply (round_trip_without_empty_lines Py.py_tables es py_tables_ok).
  - repeat constructor; vm_compute; congruence.
  - repeat constructor; vm_compute; congruence.
Defined.

(** ** Merging the batch files *)

Section Merge.
Import Py Srt Eff Polisher Notions.

Lemma insert_by_number_perm (e : SRTEntry) (l : list SRTEntry) :
  insert_by_number e l ≡ₚ e :: l.
Proof.
  induction l as [|x l IH]; [done|]. cbn [insert_by_number].
  destruct (number e <=? number x); [done|].
  rewrite IH. apply Permutation_swap.
Qed.

Lemma sort_by_number_perm (l : list SRTEntry) : sort_by_number l ≡ₚ l.
Proof.
  induction l as [|x l IH]; [done|].
  unfold sort_by_number in *. cbn [foldr].
  by rewrite insert_by_number_perm, IH.
Qed.

Lemma insert_by_number_hd (e a : SRTEntry) (l : list SRTEntry) :
  by_number a e -> HdRel by_number a l -> HdRel by_number a (insert_by_number e l).
Proof.
  intros Hae Hal. destruct l as [|x l]; cbn [insert_by_number].
  - by constructor.
  - destruct (number e <=? number x); constructor; [done|].
    by apply HdRel_inv in Hal.
Qed.

Lemma insert_by_number_sorted (e : SRTEntry) (l : list SRTEntry) :
  Sorted by_number l -> Sorted by_number (insert_by_number e l).
Proof.
  induction 1 as [|x l Hs IH Hhd]; cbn [insert_by_number].
  - by repeat constructor.
  - destruct (N.leb_spec (number e) (number x)) as [Hle | Hgt].
    + constructor; [by constructor|]. by constructor.
    + constructor; [done|]. apply insert_by_number_hd; [|done].
      unfold by_number. lia.
Qed.

Lemma sort_by_number_sorted (l : list SRTEntry) :
  Sorted by_number (sort_by_number l).
Proof.
  induction l as [|x l IH]; [constructor|].
  unfold sort_by_number in *. cbn [foldr]. by apply insert_by_number_sorted.
Qed.

Context (tb : tables).

Lemma elem_of_collect_batches (files : nat -> batch_file) (total : nat)
    (e : SRTEntry) :
  e ∈ collect_batches tb files total
  <-> exists k t, (1 <= k <= total)%nat /\ files k = Present t
                  /\ e ∈ parse_srt_nl tb t.
Proof.
  unfold collect_batches. rewrite list_elem_of_In, in_flat_map. split.
  - intros (k & Hk & He). apply in_seq in Hk.
    destruct (files k) as [| |t] eqn:E; try by destruct He.
    exists k, t. rewrite list_elem_of_In. split; [lia|done].
  - intros (k & t & Hk & E & He). exists k. split; [apply in_seq; lia|].
    rewrite E. by apply list_elem_of_In.
Qed.

(** C10.  Whatever batch files are absent or unreadable, with a writable
    output [merge_batch_files] returns: the text written is the rendering
    (through the cleanup of [write_srt_entries]) of a list of records that
    is sorted by sequence number and is a permutation of the records
    parsed from the files that are present, in the order of the batches;
    a record is in it exactly when a present file among [1 ..
    total_batches] holds it.  A batch whose file is absent or cannot be
    read contributes nothing, and nothing tells so. *)
Theorem merge_skips_missing_batches (files : nat -> batch_file) (total : nat) :
  exists merged,
    merge_batch_files tb files true total
    = Returned (write_srt_entries tb merged)
    /\ Sorted by_number merged
    /\ merged ≡ₚ flat_map (fun k => match files k with
                                    | Present t => parse_srt_nl tb t
                                    | Absent | Unreadable => []
                                    end) (seq 1 total)
    /\ (forall e, e ∈ merged
                  <-> exists k t, (1 <= k <= total)%nat /\ files k = Present t
                                  /\ e ∈ parse_srt_nl tb t).
Proof.
  exists (sort_by_number (collect_batches tb files total)).
  split; [done|]. split; [apply sort_by_number_sorted|].
  split; [apply sort_by_number_perm|].
  intros e. rewrite sort_by_number_perm. apply elem_of_collect_batches.
Qed.

End Merge.

(** ** Falling back when the service gives no result *)

Section Fallback.
Import Py Srt Eff Notions.
Local Open Scope nat_scope.
Context (tb : tables).

Lemma correct_subtitle_entry_no_result (o : Corrector.format_options)
    (post : nat -> Corrector.http_outcome) (entry : SRTEntry) (w w' : world) :
  Corrector.correct_text_with_context tb post
    (Corrector.format_subtitle_content tb o (content entry))
    Corrector.MAX_API_RETRIES w = (Returned None, w') ->
  exists w'',
    Corrector.correct_subtitle_entry tb o post entry w
    = (Returned (formatted_entry tb o entry), w'').
Proof.
  intros H. unfold Corrector.correct_subtitle_entry, formatted_entry.
  destruct (negb (Corrector._needs_correction _)); cbn [andb].
  - destruct (eqs _ _); cbn [negb]; by eexists.
  - unfold bind. rewrite H. by eexists.
Qed.

Lemma correct_entries_no_result (o : Corrector.format_options)
    (post : nat -> Corrector.http_outcome) (entries : list SRTEntry) :
  (forall i, post i = Corrector.RequestException) ->
  forall w, exists w',
    Corrector.correct_entries tb o post entries w
    = (Returned (map (formatted_entry tb o) entries), w').
Proof.
  intros Hpost. unfold Corrector.correct_entries.
  induction entries as [|e es IH]; intros w; cbn [map_m map].
  - by exists w.
  - unfold bind at 1. unfold try_except at 1.
    destruct (correct_subtitle_entry_no_result o post e w
                (world_after w Corrector.MAX_API_RETRIES)) as (w1 & ->).
    { unfold Corrector.correct_text_with_context, world_after.
      apply correct_text_attempts_fail;
        [done | unfold Corrector.MAX_API_RETRIES; lia | by intros]. }
    destruct (IH w1) as (w' & E). unfold bind. rewrite E. by exists w'.
Qed.

Context (json_loads_list : str -> option (list str))
        (pr : Polisher.preparation).

Lemma fill_missing_none (batch : list SRTEntry) :
  Polisher.fill_missing (replicate (length batch) None) batch
  = map content batch.
Proof.
  unfold Polisher.fill_missing. apply list_eq. intros i.
  rewrite list_lookup_imap, list_lookup_fmap.
  destruct (batch !! i) as [e|] eqn:E.
  - rewrite lookup_replicate_2 by (by eapply lookup_lt_Some). done.
  - rewrite lookup_ge_None_2; [done|].
    rewrite length_replicate. by apply lookup_ge_None.
Qed.

Lemma zip_with_content (batch : list SRTEntry) (f : str -> str) :
  map (fun '(entry, p) =>
         mk_entry tb (number entry) (start_time entry) (end_time entry) (f p))
      (zip batch (map content batch))
  = map (fun entry => mk_entry tb (number entry) (start_time entry)
                               (end_time entry) (f (content entry))) batch.
Proof. induction batch as [|e es IH]; [done|]. cbn. by rewrite <- IH. Qed.

Lemma existsb_bad_none (n : nat) :
  0 < n -> existsb (Polisher._bad tb) (replicate n None) = true.
Proof. destruct n; [lia | done]. Qed.

Lemma polish_batch_no_result (corner_quotes : bool)
    (translate : nat -> Polisher.translate_outcome) (entries : list SRTEntry)
    (start_idx end_idx : nat) :
  (forall i, translate i = Polisher.TReturn None) ->
  2 <= end_idx - start_idx -> end_idx <= length entries ->
  batch_prepared pr entries start_idx end_idx = true ->
  forall fuel retry_count w,
    10 - retry_count < fuel ->
    Polisher.polish_subtitle_batch tb json_loads_list pr fuel corner_quotes
      translate entries start_idx end_idx retry_count w
    = (Returned (Some (map (cleaned_entry tb corner_quotes)
                          (take (end_idx - start_idx) (drop start_idx entries)))),
       World (calls w + 2 * (11 - Nat.min retry_count 10)) (slept w)).
Proof.
  intros Hnone Hsize Hend Hprep.
  induction fuel as [|f IH]; intros retry_count w Hfuel; [lia|].
  cbn [Polisher.polish_subtitle_batch].
  destruct (Nat.leb_spec end_idx start_idx) as [|_]; [lia|].
  destruct (Nat.ltb_spec (length entries) end_idx) as [|_]; [lia|].
  cbn [orb].
  pose proof (slice_length entries start_idx end_idx ltac:(lia)) as Hlen.
  remember (take (end_idx - start_idx) (drop start_idx entries))
    as batch eqn:Hbatch.
  destruct batch as [|e1 [|e2 rest]]; [simpl in Hlen; lia | simpl in Hlen; lia |].
  set (b := e1 :: e2 :: rest) in *.
  unfold try_except at 1. rewrite batch_prelude, Hprep.
  unfold bind at 1. unfold Polisher.call_translate at 1.
  unfold bind at 1. unfold remote at 1. cbn beta. rewrite Hnone. cbn [ret].
  unfold bind at 1. cbn [Polisher._parse_json_array].
  unfold bind at 1. unfold Polisher.call_translate at 1.
  unfold bind at 1. unfold remote at 1. cbn beta. rewrite Hnone. cbn [ret].
  cbn [Polisher._parse_json_array calls slept].
  rewrite existsb_bad_none by (unfold b; simpl; lia). cbn [andb].
  destruct (Nat.ltb_spec retry_count 10) as [Hlt | Hge].
  - rewrite IH by lia. cbn [calls slept]. do 2 f_equal. lia.
  - rewrite fill_missing_none.
    rewrite heal_length_same by (by rewrite length_map).
    rewrite length_map, Nat.eqb_refl. cbn [negb]. unfold ret.
    unfold cleaned_entry. rewrite zip_with_content.
    do 2 f_equal. rewrite Nat.min_r by lia. lia.
Qed.

End Fallback.

(** C3 (as stated).  With a service that gives no result at every call:
    the corrector writes the formatted content, [a b] for [a  b] (two
    spaces); the polisher returns an empty content for a batch of one
    record, and for a larger batch the original content after cleanup,
    [x] for [--- x]. *)
Lemma fallback_output_differs_from_input :
  (exists w, Corrector.correct_subtitle_entry Py.py_tables
               Corrector.default_format_options
               (fun _ => Corrector.RequestException)
               (Notions.sample_entry 1 "a  b") Eff.world0
             = (Eff.Returned (Notions.sample_entry 1 "a b"), w))
  /\ (exists w, Polisher.polish_subtitle_batch Py.py_tables
                  Examples.json_loads_list Examples.preparation
                  (Polisher.polish_fuel 0 1) false
                  (fun _ => Polisher.TReturn None)
                  [Notions.sample_entry 1 "a  b"] 0 1 0 Eff.world0
                = (Eff.Returned (Some [Notions.sample_entry 1 ""]), w))
  /\ (exists w, Polisher.polish_subtitle_batch Py.py_tables
                  Examples.json_loads_list Examples.preparation
                  (Polisher.polish_fuel 0 2) false
                  (fun _ => Polisher.TReturn None)
                  [Notions.sample_entry 1 "a  b"; Notions.sample_entry 2 "--- x"]
                  0 2 0 Eff.world0
                = (Eff.Returned (Some [Notions.sample_entry 1 "a  b";
                                       Notions.sample_entry 2 "x"]), w)).
Proof. repeat split; eexists; vm_compute; reflexivity. Qed.

(** C3 (amended).  When the service gives no result, every record of the
    output has the identity fields of the input record and a content
    computed from the original content alone, which is not the original
    text in general.  In the corrector an entry whose correction returns
    [None] becomes [formatted_entry]: the formatted content, or the
    entry itself when formatting changes nothing and no correction is
    needed; when every request fails this holds for all entries of the
    sequential loop.  In the polisher a batch of two or more records
    for which nothing raises before the request is sent, and whose
    calls all return [None], is asked for again until the retry count
    is 10 and then gives, for every record, the original content passed
    through [clean_polished_content]. *)
Theorem fallback_keeps_processed_original (tb : Py.tables)
    (json_loads_list : Py.str -> option (list Py.str))
    (pr : Polisher.preparation) :
  (forall o post entry w w',
     Corrector.correct_text_with_context tb post
       (Corrector.format_subtitle_content tb o (Srt.content entry))
       Corrector.MAX_API_RETRIES w = (Eff.Returned None, w') ->
     exists w'',
       Corrector.correct_subtitle_entry tb o post entry w
       = (Eff.Returned (Notions.formatted_entry tb o entry), w''))
  /\ (forall o post entries w,
        (forall i, post i = Corrector.RequestException) ->
        exists w',
          Corrector.correct_entries tb o post entries w
          = (Eff.Returned (map (Notions.formatted_entry tb o) entries), w'))
  /\ (forall corner_quotes translate entries start_idx end_idx retry_count w,
        (forall i, translate i = Polisher.TReturn None) ->
        (2 <= end_idx - start_idx)%nat -> (end_idx <= length entries)%nat ->
        Notions.batch_prepared pr entries start_idx end_idx = true ->
        Polisher.polish_subtitle_batch tb json_loads_list pr
          (Polisher.polish_fuel start_idx end_idx) corner_quotes translate
          entries start_idx end_idx retry_count w
        = (Eff.Returned
             (Some (map (Notions.cleaned_entry tb corner_quotes)
                        (take (end_idx - start_idx) (drop start_idx entries)))),
           Eff.World (Eff.calls w + 2 * (11 - Nat.min retry_count 10))
                     (Eff.slept w)))
  /\ (forall o cq entry,
        Spec.identity (Notions.formatted_entry tb o entry) = Spec.identity entry
        /\ Spec.identity (Notions.cleaned_entry tb cq entry) = Spec.identity entry).
Proof.
  split; [|split; [|split]].
  - intros o post entry w w'. apply correct_subtitle_entry_no_result.
  - intros o post entries w Hpost. by apply correct_entries_no_result.
  - intros cq translate entries s e rc w Hnone Hsize Hend Hprep.
    apply polish_batch_no_result; try done.
    unfold Polisher.polish_fuel. lia.
  - intros o cq entry. split; [|done].
    unfold Notions.formatted_entry. by destruct (_ && _).
Qed.

Lemma fallback_keeps_processed_original_witness :
  let post := fun _ : nat => Corrector.RequestException in
  let translate := fun _ : nat => Polisher.TReturn None in
  let entries := [Notions.sample_entry 1 "a  b"; Notions.sample_entry 2 "--- x"] in
  (exists w',
     Corrector.correct_entries Py.py_tables Corrector.default_format_options
       post entries Eff.world0
     = (Eff.Returned (map (Notions.formatted_entry Py.py_tables
                             Corrector.default_format_options) entries), w'))
  /\ Polisher.polish_subtitle_batch Py.py_tables Examples.json_loads_list
       Examples.preparation
       (Polisher.polish_fuel 0 2) false translate entries 0 2 0 Eff.world0
     = (Eff.Returned (Some (map (Notions.cleaned_entry Py.py_tables false) entries)),
        Eff.World 22 []).
Proof.
  intros post translate entries.
  destruct (fallback_keeps_processed_original Py.py_tables
              Examples.json_loads_list Examples.preparation)
    as (_ & H2 & H3 & _).
  split.
  - apply (H2 Corrector.default_format_options post entries Eff.world0).
    intros i. reflexivity.
  - apply (H3 false translate entries 0%nat 2%nat 0%nat Eff.world0).
    + intros i. reflexivity.
    + simpl. lia.
    + simpl. lia.
    + vm_compute. reflexivity.
Defined.

(** ** The annotated difference of two texts *)

Section Highlight.
Import Py Gui Notions.
Local Open Scope nat_scope.

Lemma slice_then_rest (t : str) (i1 i2 : nat) :
  i1 <= i2 -> slice t i1 i2 ++ drop i2 t = drop i1 t.
Proof.
  intros H. unfold slice.
  replace (drop i2 t) with (drop (i2 - i1) (drop i1 t)).
  - apply take_drop.
  - rewrite drop_drop. f_equal. lia.
Qed.

Lemma original_parts_untagged (a b : str) (ops : list opcode) :
  forall i j, Spec.opcodes_from a b i j ops ->
    untagged (flat_map (original_part a) ops) = drop i a
    /\ Forall not_inserted (flat_map (original_part a) ops).
Proof.
  unfold untagged.
  induction ops as [|[[[[tg i1] i2] j1] j2] ops IH]; intros i j H.
  - destruct H as [-> _]. by rewrite drop_all.
  - destruct H as (-> & -> & [Hi1 Hi2] & _ & Htag & Hrest).
    destruct (IH _ _ Hrest) as [IH1 IH2].
    cbn [flat_map]. rewrite map_app, concat_app, IH1.
    split; [|apply Forall_app; split; [|done]; destruct tg; by repeat constructor].
    destruct tg; cbn [original_part map concat part_text];
      rewrite ?app_nil_r; try by apply slice_then_rest.
    by subst.
Qed.

Lemma corrected_parts_untagged (a b : str) (ops : list opcode) :
  forall i j, Spec.opcodes_from a b i j ops ->
    untagged (flat_map (corrected_part b) ops) = drop j b
    /\ Forall not_deleted (flat_map (corrected_part b) ops).
Proof.
  unfold untagged.
  induction ops as [|[[[[tg i1] i2] j1] j2] ops IH]; intros i j H.
  - destruct H as [_ ->]. by rewrite drop_all.
  - destruct H as (-> & -> & _ & [Hj1 Hj2] & Htag & Hrest).
    destruct (IH _ _ Hrest) as [IH1 IH2].
    cbn [flat_map]. rewrite map_app, concat_app, IH1.
    split; [|apply Forall_app; split; [|done]; destruct tg; by repeat constructor].
    destruct tg; cbn [corrected_part map concat part_text];
      rewrite ?app_nil_r; try by apply slice_then_rest.
    by subst.
Qed.

Lemma equal_parts_verbatim (a b : str) (ops : list opcode) :
  forall i j, Spec.opcodes_from a b i j ops ->
    Forall (fun '(tg, i1, i2, j1, j2) =>
              tg = equal ->
              original_part a (tg, i1, i2, j1, j2) = [Plain (slice a i1 i2)]
              /\ corrected_part b (tg, i1, i2, j1, j2) = [Plain (slice a i1 i2)])
           ops.
Proof.
  induction ops as [|[[[[tg i1] i2] j1] j2] ops IH]; intros i j H; [constructor|].
  destruct H as (-> & -> & _ & _ & Htag & Hrest). constructor; [|by eapply IH].
  intros ->. cbn. by rewrite Htag.
Qed.

End Highlight.

(** C9 (as stated).  The texts are compared after replacing every line
    feed by a space and trimming the ends: a run of spaces inside the
    text stays.  For two equal texts [a  b] (two spaces) the result is
    [a  b] twice, not the whitespace-collapsed [a b]. *)
Lemma highlight_keeps_inner_whitespace :
  (forall get_opcodes,
     Gui.highlight_differences Py.py_tables get_opcodes
       (Py.lit "a  b") (Py.lit "a  b") = (Py.lit "a  b", Py.lit "a  b"))
  /\ Spec.collapse_whitespace Py.py_tables (Py.lit "a  b") = Py.lit "a b"
  /\ Py.lit "a  b" <> Py.lit "a b".
Proof.
  split; [|split].
  - intros get_opcodes. vm_compute. reflexivity.
  - vm_compute. reflexivity.
  - vm_compute. discriminate.
Qed.

(** C9 (amended).  The two texts are normalized by replacing line feeds
    by spaces and trimming the ends.  When the opcodes returned for the
    normalized texts meet the contract of [get_opcodes], the pieces of
    the first annotated text, without their tags, join to the normalized
    original and none of them is tagged as inserted; the pieces of the
    second join to the normalized transformed text and none of them is
    tagged as deleted; and the pieces of an [equal] opcode are the same
    plain text on both sides. *)
Theorem highlight_parts_partition_normalized (tb : Py.tables)
    (get_opcodes : Py.str -> Py.str -> list Gui.opcode)
    (original corrected : Py.str) :
  let a := Gui.clean_text tb original in
  let b := Gui.clean_text tb corrected in
  Spec.valid_opcodes a b (get_opcodes a b) ->
  let '(original_parts, corrected_parts) :=
    Gui.highlight_parts tb get_opcodes original corrected in
  Notions.untagged original_parts = a
  /\ Notions.untagged corrected_parts = b
  /\ Forall Notions.not_inserted original_parts
  /\ Forall Notions.not_deleted corrected_parts
  /\ Gui.highlight_differences tb get_opcodes original corrected
     = (concat (map Gui.render_part original_parts),
        concat (map Gui.render_part corrected_parts))
  /\ Forall (fun '(tg, i1, i2, j1, j2) =>
               tg = Gui.equal ->
               Gui.original_part a (tg, i1, i2, j1, j2)
               = [Gui.Plain (Gui.slice a i1 i2)]
               /\ Gui.corrected_part b (tg, i1, i2, j1, j2)
                  = [Gui.Plain (Gui.slice a i1 i2)])
            (get_opcodes a b).
Proof.
  intros a b Hops.
  pose proof (equal_parts_verbatim a b _ 0%nat 0%nat Hops) as Heq.
  unfold Gui.highlight_differences, Gui.highlight_parts. fold a b.
  destruct (Py.eqs a b) eqn:E.
  - apply eqs_true in E. unfold Notions.untagged. cbn. rewrite !app_nil_r.
    repeat split; try done; by repeat constructor.
  - destruct (original_parts_untagged a b _ 0%nat 0%nat Hops) as [H1 H2].
    destruct (corrected_parts_untagged a b _ 0%nat 0%nat Hops) as [H3 H4].
    repeat split; done.
Qed.

Lemma highlight_parts_partition_normalized_witness :
  let get_opcodes := fun _ _ : Py.str =>
    [(Gui.equal, 0, 2, 0, 2); (Gui.replace, 2, 3, 2, 3)]%nat in
  Gui.highlight_differences Py.py_tables get_opcodes (Py.lit "abc") (Py.lit "abd")
  = (Py.lit "ab[-c-]", Py.lit "ab[+d+]")
  /\ Notions.untagged (fst (Gui.highlight_parts Py.py_tables get_opcodes
                              (Py.lit "abc") (Py.lit "abd"))) = Py.lit "abc".
Proof.
  intros get_opcodes.
  pose proof (highlight_parts_partition_normalized Py.py_tables get_opcodes
                (Py.lit "abc") (Py.lit "abd")) as H.
  cbv zeta in H.
  assert (Hops : Spec.valid_opcodes
                   (Gui.clean_text Py.py_tables (Py.lit "abc"))
                   (Gui.clean_text Py.py_tables (Py.lit "abd"))
                   (get_opcodes (Gui.clean_text Py.py_tables (Py.lit "abc"))
                                (Gui.clean_text Py.py_tables (Py.lit "abd")))).
  { vm_compute. repeat split; lia. }
  specialize (H Hops).
  destruct (Gui.highlight_parts Py.py_tables get_opcodes
              (Py.lit "abc") (Py.lit "abd")) as [p1 p2] eqn:E.
  destruct H as (H1 & _ & _ & _ & H5 & _).
  split; [|exact H1].
  rewrite H5. revert E. vm_compute. intros [= <- <-]. reflexivity.
Defined.

(** ** Timestamps and the substitutions that remove them *)

Section Timestamps.
Import Py Re Srt Polisher Notions.
Context (tb : tables) (Htb : tables_ok tb).

Lemma run_cls_inv (p : N -> bool) (k : cont) (z : cursor) (c : caps)
    (res : cursor * caps) :
  run (Cls p) k z c = Some res ->
  exists x t, after z = x :: t /\ p x = true
              /\ k (Cur (x :: before z) t) c = Some res.
Proof.
  cbn [run]. destruct (after z) as [|x t]; [done|].
  destruct (p x) eqn:E; [|done]. intros H. by exists x, t.
Qed.

(** A match of [\d{2}:\d{2}:\d{2},\d{3}] reads a timestamp. *)
Lemma run_timestamp_inv (k : cont) (z : cursor) (c : caps)
    (res : cursor * caps) :
  run (timestamp tb) k z c = Some res ->
  exists t rest, after z = t ++ rest /\ Spec.is_timestamp tb t = true
                 /\ k (Cur (rev t ++ before z) rest) c = Some res.
Proof.
  unfold timestamp, d, chr. cbn [seqs]. rewrite !run_seq_k. intros H.
  repeat match type of H with
         | run (Cls _) _ _ _ = Some _ =>
           apply run_cls_inv in H as (? & ? & ? & ? & H); cbn [after before] in *
         end.
  repeat match goal with E : (_ =? _) = true |- _ => apply N.eqb_eq in E end.
  subst.
  eexists [_; _; _; _; _; _; _; _; _; _; _; _], _.
  split; [cbn [app]; eassumption|]. split; [|exact H].
  cbn [Spec.is_timestamp].
  repeat match goal with E : is_digit tb _ = true |- _ => rewrite E; clear E end.
  reflexivity.
Qed.

Lemma timestamp_chars (t : str) :
  Spec.is_timestamp tb t = true ->
  length t = 12%nat /\ Forall (fun x => x <> SP) t.
Proof.
  intros H. do 12 (destruct t as [|? t]; [discriminate H|]).
  destruct t; [|discriminate H]. split; [done|]. cbn [Spec.is_timestamp] in H.
  repeat (apply andb_true_iff in H as [H ?]).
  repeat match goal with E : (_ =? _) = true |- _ => apply N.eqb_eq in E; subst end.
  assert (Hd : forall x, is_digit tb x = true -> x <> SP).
  { intros x Hx ->. apply (digit_not_space tb Htb) in Hx.
    by rewrite (space_SP tb Htb) in Hx. }
  repeat constructor; (by apply Hd) || done.
Qed.

(** [\s*] followed by the end of the pattern never fails. *)
Lemma run_ws_accept (z : cursor) (c : caps) : run (ws tb) accept z c <> None.
Proof.
  unfold ws, star. rewrite run_star. cbn [star_loop].
  by destruct (run (s tb) _ z c).
Qed.

(** Where a timestamp starts, [\s*T\s*] matches. *)
Lemma inline_single_time_matches (t rest bef : str) :
  Spec.is_timestamp tb t = true ->
  match_at (inline_single_time tb) (Cur bef (t ++ rest)) <> None.
Proof.
  intros Ht. unfold match_at, inline_single_time. cbn [seqs].
  rewrite !run_seq_k.
  destruct (timestamp_head tb Htb t Ht) as (c0 & t' & E & Hc0).
  rewrite run_ws_skip by (rewrite ?E; done).
  rewrite run_timestamp by done. apply run_ws_accept.
Qed.

(** A match of [\s*T\s*] is not empty. *)
Lemma inline_single_time_consumes (z z' : cursor) (c : caps) :
  match_at (inline_single_time tb) z = Some (z', c) ->
  (length (after z') < length (after z))%nat.
Proof.
  unfold match_at, inline_single_time. cbn [seqs]. rewrite !run_seq_k.
  intros H. apply run_through in H as (z1 & c1 & H & Hl1).
  apply run_timestamp_inv in H as (t & rest & E & Ht & H).
  apply run_through in H as (z2 & c2 & H & Hl2). injection H as <- <-.
  apply timestamp_chars in Ht as [Hlen _]. cbn [after] in Hl2.
  rewrite E, length_app in Hl1. lia.
Qed.

(** A text in which no timestamp starts anywhere. *)
Lemma sub_single_time_prefix (fuel : nat) :
  forall (t rest bef aft : str),
    Forall (fun x => x <> SP) t ->
    sub_at (inline_single_time tb) (fun _ => [SP]) fuel bef aft = t ++ rest ->
    (length aft < fuel)%nat ->
    exists rest', aft = t ++ rest'.
Proof.
  induction fuel as [|f IH]; intros t rest bef aft Ht E Hf; [lia|].
  destruct t as [|y t]; [by exists aft|].
  apply Forall_cons in Ht as [Hy Ht]. cbn [sub_at] in E.
  destruct (match_at (inline_single_time tb) (Cur bef aft)) as [[z' c]|].
  - destruct (_ <? _)%nat; [|destruct aft]; cbn in E; congruence.
  - destruct aft as [|x aft]; [done|]. cbn [app] in E. injection E as -> E.
    apply IH in E as [rest' ->]; [by exists rest' | done | simpl in Hf; lia].
Qed.

Lemma sub_single_time_clean (fuel : nat) :
  forall (bef aft pre t rest : str),
    (length aft < fuel)%nat ->
    sub_at (inline_single_time tb) (fun _ => [SP]) fuel bef aft
    = pre ++ t ++ rest ->
    Spec.is_timestamp tb t = true -> False.
Proof.
  induction fuel as [|f IH]; intros bef aft pre t rest Hf E Ht; [lia|].
  pose proof (timestamp_chars t Ht) as [Hlen Hsp].
  assert (Hhead : forall r, [SP] ++ r <> t ++ rest).
  { intros r Hr. destruct t as [|y t]; [done|].
    apply Forall_cons in Hsp as [Hy _]. cbn in Hr. congruence. }
  pose proof E as E0. cbn [sub_at] in E.
  destruct (match_at (inline_single_time tb) (Cur bef aft)) as [[z' c]|] eqn:Em.
  - pose proof (inline_single_time_consumes _ _ _ Em) as Hc. cbn [after] in Hc.
    destruct (Nat.ltb_spec (length (after z')) (length aft)) as [_|]; [|lia].
    destruct pre as [|p pre]; [by apply Hhead in E|].
    cbn [app] in E. injection E as _ E.
    refine (IH _ _ pre t rest _ E Ht). lia.
  - destruct aft as [|x aft].
    { destruct pre; [|done]. destruct t; [done|]. done. }
    destruct pre as [|p pre].
    + cbn [app] in E0.
      apply (sub_single_time_prefix (S f) t rest bef (x :: aft)) in E0
        as [rest' E']; [|done|done].
      rewrite E' in Em. by apply inline_single_time_matches in Em.
    + cbn [app] in E. injection E as _ E.
      refine (IH _ _ pre t rest _ E Ht). simpl in Hf. lia.
Qed.

(** Searching finds nothing when no position matches. *)
Lemma search_at_none (r : re) :
  forall aft bef,
    (forall pre post, aft = pre ++ post ->
                      match_at r (Cur (rev pre ++ bef) post) = None) ->
    search_at r bef aft = None.
Proof.
  induction aft as [|x aft IH]; intros bef H; cbn [search_at].
  - pose proof (H [] [] eq_refl) as H0. cbn [rev app] in H0. by rewrite H0.
  - pose proof (H [] (x :: aft) eq_refl) as H0. cbn [rev app] in H0.
    rewrite H0. apply IH.
    intros pre post ->. specialize (H (x :: pre) post eq_refl).
    cbn [rev] in H. by rewrite <- app_assoc in H.
Qed.

Lemma not_found_intro (r : re) (text : str) :
  (forall pre post bef, text = pre ++ post -> match_at r (Cur bef post) = None) ->
  found r text = false.
Proof.
  intros H. unfold found, search. rewrite search_at_none; [done|].
  intros pre post E. by eapply H.
Qed.

(** After the substitution of [\s*T\s*] by a space the text holds no
    timestamp, hence no time range. *)
Lemma sub_single_time_leaves_none (text : str) :
  found (timestamp tb) (sub (inline_single_time tb) [SP] text) = false
  /\ found (timecode tb) (sub (inline_single_time tb) [SP] text) = false.
Proof.
  assert (H : forall pre t rest,
    sub (inline_single_time tb) [SP] text = pre ++ t ++ rest ->
    Spec.is_timestamp tb t = true -> False).
  { intros pre t rest E Ht. unfold sub, sub_with in E.
    eapply sub_single_time_clean; [|exact E|exact Ht]. lia. }
  split; apply not_found_intro; intros pre post bef E;
    destruct (match_at _ (Cur bef post)) as [res|] eqn:Em; try done; exfalso;
    unfold match_at in Em.
  - apply run_timestamp_inv in Em as (t & rest & Ea & Ht & _).
    cbn [after] in Ea. subst post. by eapply H.
  - unfold timecode in Em. cbn [seqs] in Em. rewrite !run_seq_k in Em.
    apply run_timestamp_inv in Em as (t & rest & Ea & Ht & _).
    cbn [after] in Ea. subst post. by eapply H.
Qed.

End Timestamps.

(** ** Contaminated chunks *)

(** C1 (evaluation at the failing input).  A chunk with a time range is
    accepted when the retry ceiling is reached, and in a batch of one
    record at once.  With a service that always answers the same two
    chunks, the first one holding a time range and two timestamps cut
    by separator tokens, the batch is returned after 11 calls; the
    cleanup of the entry takes the time range out and one layer of the
    tokens, the write pass takes out the tokens that are left after its
    own timestamp substitutions, and the content written is
    [x 00:00:01,000 --> 00:00:02,000]. *)
Lemma contaminated_chunk_reaches_output :
  let chunk := Py.lit "x 00:00:03,000 --> 00:00:04,000 00:00:0===SUBTITLE_SEP===SUBTITLE_SEPARATOR===ARATOR===1,000 --> 00:00:0===SUBTITLE_SEP===SUBTITLE_SEPARATOR===ARATOR===2,000" in
  let translate := fun _ : nat =>
    Polisher.TReturn (Some (Examples.json_array [chunk; Py.lit "ok"])) in
  let entries := [Notions.sample_entry 1 "hello"; Notions.sample_entry 2 "world"] in
  Re.found (Polisher.timecode Py.py_tables) chunk = true
  /\ (exists e1 e2 w,
        Polisher.polish_subtitle_batch Py.py_tables Examples.json_loads_list
          Examples.preparation
          (Polisher.polish_fuel 0 2) false translate entries 0 2 0 Eff.world0
        = (Eff.Returned (Some [e1; e2]), w)
        /\ Eff.calls w = 11%nat
        /\ Srt.content (Polisher.write_clean_entry Py.py_tables e1)
           = Py.lit "x 00:00:01,000 --> 00:00:02,000"
        /\ Re.found (Polisher.timecode Py.py_tables)
             (Srt.content (Polisher.write_clean_entry Py.py_tables e1)) = true)
  /\ Polisher.polish_subtitle_batch Py.py_tables Examples.json_loads_list
       Examples.preparation
       (Polisher.polish_fuel 0 1) false
       (fun _ => Polisher.TReturn
                   (Some (Py.lit "hi 00:00:03,000 --> 00:00:04,000 there")))
       [Notions.sample_entry 1 "hello"] 0 1 0 Eff.world0
     = (Eff.Returned (Some [Notions.sample_entry 1 "hi there"]), Eff.World 1 []).
Proof.
  intros chunk translate entries. split; [|split].
  - vm_compute. reflexivity.
  - eexists _, _, _. split; [vm_compute; reflexivity|].
    split; [reflexivity|]. split; vm_compute; reflexivity.
  - vm_compute. reflexivity.
Qed.

(** X19.  The removal of timestamps in [clean_polished_content] leaves
    none: in the text that its four timestamp substitutions return no
    [HH:MM:SS,mmm] occurs, and so no time range; the same holds for any
    text after the substitution of [\s*T\s*] by a space, which the
    write pass applies as well. *)
Theorem timestamp_removal_leaves_none (tb : Py.tables) :
  Py.tables_ok tb ->
  (forall r,
     Re.found (Re.timestamp tb) (Polisher.clean_timecodes tb r) = false
     /\ Re.found (Polisher.timecode tb) (Polisher.clean_timecodes tb r) = false)
  /\ (forall text,
        Re.found (Re.timestamp tb)
          (Re.sub (Polisher.inline_single_time tb) [Py.SP] text) = false
        /\ Re.found (Polisher.timecode tb)
             (Re.sub (Polisher.inline_single_time tb) [Py.SP] text) = false).
Proof.
  intros Htb. split.
  - intros r. unfold Polisher.clean_timecodes.
    by apply sub_single_time_leaves_none.
  - intros text. by apply sub_single_time_leaves_none.
Qed.

Lemma timestamp_removal_leaves_none_witness :
  let chunk := Py.lit "x 00:00:03,000 --> 00:00:04,000 y 00:00:05,000" in
  Re.found (Re.timestamp Py.py_tables) chunk = true
  /\ Re.found (Re.timestamp Py.py_tables)
       (Polisher.clean_timecodes Py.py_tables chunk) = false
  /\ Re.found (Polisher.timecode Py.py_tables)
       (Polisher.clean_timecodes Py.py_tables chunk) = false.
Proof.
  intros chunk. split; [vm_compute; reflexivity|].
  apply (proj1 (timestamp_removal_leaves_none Py.py_tables py_tables_ok) chunk).
Defined.

(** ** More on [polish_subtitle_batch] *)

Section PolishMore.
Import Py Srt Eff Polisher Notions.
Local Open Scope nat_scope.
Context (tb : tables) (json_loads_list : str -> option (list str))
        (pr : Polisher.preparation).

Lemma polish_raising_service (corner_quotes : bool)
    (translate : nat -> translate_outcome) (entries : list SRTEntry) :
  (forall i, translate i = TRaise) ->
  forall fuel start_idx end_idx retry_count w,
    start_idx < end_idx <= length entries ->
    end_idx - start_idx <= fuel ->
    exists w',
      polish_subtitle_batch tb json_loads_list pr fuel corner_quotes translate
        entries start_idx end_idx retry_count w
      = (Returned (Some (take (end_idx - start_idx) (drop start_idx entries))),
         w').
Proof.
  intros Hraise.
  induction fuel as [|f IH]; intros start_idx end_idx retry_count w Hrange Hfuel;
    [lia|].
  cbn [polish_subtitle_batch].
  destruct (Nat.leb_spec end_idx start_idx) as [|_]; [lia|].
  destruct (Nat.ltb_spec (length entries) end_idx) as [|_]; [lia|].
  cbn [orb].
  pose proof (slice_length entries start_idx end_idx ltac:(lia)) as Hlen.
  remember (take (end_idx - start_idx) (drop start_idx entries))
    as batch eqn:Hbatch.
  destruct batch as [|entry [|entry2 rest]]; [simpl in Hlen; lia | |].
  - unfold try_except. rewrite single_prelude.
    destruct (_ || _); [by eexists|].
    unfold call_translate, bind, remote. cbn beta.
    rewrite Hraise. cbn. by eexists.
  - assert (Hbig : 1 < end_idx - start_idx) by (simpl in Hlen; lia).
    destruct (Nat.ltb_spec 1 (end_idx - start_idx)) as [_|]; [|lia].
    set (mid := (start_idx + end_idx) / 2).
    assert (Hmid : start_idx < mid < end_idx).
    { unfold mid. split.
      - apply Nat.div_le_lower_bound; lia.
      - apply Nat.Div0.div_lt_upper_bound; lia. }
    clearbody mid.
    assert (Hhalves : forall w1, exists w3,
      (let* first_half :=
         polish_subtitle_batch tb json_loads_list pr f corner_quotes translate
           entries start_idx mid 0 in
       let* second_half :=
         polish_subtitle_batch tb json_loads_list pr f corner_quotes translate
           entries mid end_idx 0 in
       ret (append_results first_half second_half))%eff w1
      = (Returned (Some (entry :: entry2 :: rest)), w3)).
    { intros w1.
      destruct (IH start_idx mid 0 w1 ltac:(lia) ltac:(lia)) as (w2 & E1).
      destruct (IH mid end_idx 0 w2 ltac:(lia) ltac:(lia)) as (w3 & E2).
      exists w3. unfold bind. rewrite E1, E2. cbn [append_results]. unfold ret.
      rewrite Hbatch. rewrite (slice_split entries start_idx mid end_idx) by lia.
      reflexivity. }
    unfold try_except at 1. rewrite batch_prelude.
    destruct (batch_prepared pr entries start_idx end_idx); [|apply Hhalves].
    unfold bind at 1. unfold call_translate at 1.
    unfold bind at 1. unfold remote at 1. cbn beta. rewrite Hraise.
    unfold raise at 1. apply Hhalves.
Qed.

(** X1.  On a valid range [polish_subtitle_batch] returns without an
    exception exactly one entry per record of the slice, whatever the
    service answers or raises; on an empty or out-of-range slice it
    returns the empty list and does not call the service. *)
Theorem polish_batch_one_entry_per_record (corner_quotes : bool)
    (translate : nat -> translate_outcome) (entries : list SRTEntry)
    (start_idx end_idx retry_count : nat) (w : world) :
  (start_idx < end_idx <= length entries ->
   exists l w',
     polish_subtitle_batch tb json_loads_list pr (polish_fuel start_idx end_idx)
       corner_quotes translate entries start_idx end_idx retry_count w
     = (Returned (Some l), w')
     /\ length l = end_idx - start_idx
     /\ map number l
        = map number (take (end_idx - start_idx) (drop start_idx entries)))
  /\ (end_idx <= start_idx \/ length entries < end_idx ->
      polish_subtitle_batch tb json_loads_list pr (polish_fuel start_idx end_idx)
        corner_quotes translate entries start_idx end_idx retry_count w
      = (Returned (Some []), w)).
Proof.
  split.
  - intros Hrange.
    destruct (polish_subtitle_batch_finishes tb json_loads_list pr corner_quotes
                translate entries (polish_fuel start_idx end_idx)
                start_idx end_idx retry_count w Hrange
                ltac:(unfold polish_fuel; lia)) as (l & w' & E & I).
    exists l, w'. split; [done|].
    apply (f_equal (map (fun x : N * str * str => x.1.1))) in I as In.
    rewrite !map_map in In. cbn in In.
    split; [|exact In].
    apply (f_equal length) in I. rewrite !length_map in I.
    rewrite I. apply slice_length. lia.
  - intros Hbad. unfold polish_fuel.
    replace (11 * (end_idx - start_idx) + 1)
      with (S (11 * (end_idx - start_idx))) by lia.
    cbn [polish_subtitle_batch].
    destruct Hbad as [H | H].
    + destruct (Nat.leb_spec end_idx start_idx); [done | lia].
    + destruct (Nat.ltb_spec (length entries) end_idx); [|lia].
      by rewrite orb_true_r.
Qed.

(** X2.  When every call of the service raises, [polish_subtitle_batch]
    halves the batch down to single records and returns the records of
    the slice themselves, unchanged and in order. *)
Theorem polish_batch_raising_service_keeps_entries (corner_quotes : bool)
    (translate : nat -> translate_outcome) (entries : list SRTEntry)
    (start_idx end_idx retry_count : nat) (w : world) :
  (forall i, translate i = TRaise) ->
  start_idx < end_idx <= length entries ->
  exists w',
    polish_subtitle_batch tb json_loads_list pr (polish_fuel start_idx end_idx)
      corner_quotes translate entries start_idx end_idx retry_count w
    = (Returned (Some (take (end_idx - start_idx) (drop start_idx entries))),
       w').
Proof.
  intros Hraise Hrange. apply polish_raising_service; [done | done |].
  unfold polish_fuel. lia.
Qed.

End PolishMore.

Lemma polish_batch_one_entry_per_record_witness :
  let entries := [Notions.sample_entry 1 "a"; Notions.sample_entry 2 "b";
                  Notions.sample_entry 3 "c"] in
  let translate := fun _ : nat => Polisher.TReturn (Some (Py.lit "not json")) in
  (exists l w',
     Polisher.polish_subtitle_batch Py.py_tables Examples.json_loads_list
       Examples.preparation
       (Polisher.polish_fuel 0 3) false translate entries 0 3 0 Eff.world0
     = (Eff.Returned (Some l), w')
     /\ length l = (3 - 0)%nat
     /\ map Srt.number l = map Srt.number (take (3 - 0) (drop 0 entries)))
  /\ Polisher.polish_subtitle_batch Py.py_tables Examples.json_loads_list
       Examples.preparation
       (Polisher.polish_fuel 2 5) false translate entries 2 5 0 Eff.world0
     = (Eff.Returned (Some []), Eff.world0).
Proof.
  intros entries translate. split.
  - apply (proj1 (polish_batch_one_entry_per_record Py.py_tables
                    Examples.json_loads_list Examples.preparation false
                    translate entries 0%nat 3%nat 0%nat Eff.world0)).
    simpl. lia.
  - apply (proj2 (polish_batch_one_entry_per_record Py.py_tables
                    Examples.json_loads_list Examples.preparation false
                    translate entries 2%nat 5%nat 0%nat Eff.world0)).
    right. simpl. lia.
Defined.

Lemma polish_batch_raising_service_keeps_entries_witness :
  let entries := [Notions.sample_entry 1 "a"; Notions.sample_entry 2 "b";
                  Notions.sample_entry 3 "c"] in
  exists w',
    Polisher.polish_subtitle_batch Py.py_tables Examples.json_loads_list
      Examples.preparation
      (Polisher.polish_fuel 0 3) false (fun _ => Polisher.TRaise) entries
      0 3 0 Eff.world0
    = (Eff.Returned (Some (take (3 - 0) (drop 0 entries))), w').
Proof.
  intros entries.
  apply (polish_batch_raising_service_keeps_entries Py.py_tables
           Examples.json_loads_list Examples.preparation false
           (fun _ => Polisher.TRaise) entries 0%nat 3%nat 0%nat Eff.world0).
  - intros i. reflexivity.
  - simpl. lia.
Defined.

(** ** The client when an attempt is answered *)

Section ClientAnswers.
Import Py Srt Eff Corrector Notions.
Local Open Scope nat_scope.
Context (tb : tables).

Lemma backoff_seq_snoc (attempt k : nat) :
  rev (map backoff (seq (S attempt) k)) ++ [backoff attempt]
  = rev (map backoff (seq attempt (S k))).
Proof. cbn [seq map rev]. done. Qed.

Lemma correct_text_attempts_skip (post : nat -> http_outcome) (text : str)
    (retry_count : nat) :
  forall k remaining attempt w,
    attempt + remaining = retry_count -> k < remaining ->
    (forall i, i < k -> post (calls w + i) = RequestException) ->
    correct_text_attempts tb post text retry_count remaining attempt w
    = correct_text_attempts tb post text retry_count (remaining - k) (attempt + k)
        (World (calls w + k) (rev (map backoff (seq attempt k)) ++ slept w)).
Proof.
  induction k as [|k IH]; intros remaining attempt w Hsum Hk Hfail.
  - rewrite Nat.sub_0_r, !Nat.add_0_r. by destruct w.
  - destruct remaining as [|rest]; [lia|].
    assert (Hp0 : post (calls w) = RequestException)
      by (rewrite <- (Nat.add_0_r (calls w)); apply Hfail; lia).
    cbn [correct_text_attempts]. unfold bind at 1. unfold remote at 1.
    rewrite Hp0.
    destruct (Nat.ltb_spec attempt (retry_count - 1)) as [_|]; [|lia].
    unfold bind, sleep. cbn [calls slept].
    rewrite IH; cbn [calls slept]; [| lia | lia |].
    + replace (S rest - S k) with (rest - k) by lia.
      replace (S attempt + k) with (attempt + S k) by lia.
      replace (S (calls w) + k) with (calls w + S k) by lia.
      do 2 f_equal. rewrite <- backoff_seq_snoc, <- app_assoc. done.
    + intros i Hi. replace (S (calls w) + i) with (calls w + S i) by lia.
      apply Hfail. lia.
Qed.

Lemma correct_batch_attempts_skip (post : nat -> http_outcome)
    (entries_batch : list SRTEntry) (retry_count : nat) :
  forall k remaining attempt w,
    attempt + remaining = retry_count -> k < remaining ->
    (forall i, i < k -> post (calls w + i) = RequestException) ->
    correct_batch_attempts tb post entries_batch retry_count remaining attempt w
    = correct_batch_attempts tb post entries_batch retry_count (remaining - k)
        (attempt + k)
        (World (calls w + k) (rev (map backoff (seq attempt k)) ++ slept w)).
Proof.
  induction k as [|k IH]; intros remaining attempt w Hsum Hk Hfail.
  - rewrite Nat.sub_0_r, !Nat.add_0_r. by destruct w.
  - destruct remaining as [|rest]; [lia|].
    assert (Hp0 : post (calls w) = RequestException)
      by (rewrite <- (Nat.add_0_r (calls w)); apply Hfail; lia).
    cbn [correct_batch_attempts]. unfold bind at 1. unfold remote at 1.
    rewrite Hp0.
    destruct (Nat.ltb_spec attempt (retry_count - 1)) as [_|]; [|lia].
    unfold bind, sleep. cbn [calls slept].
    rewrite IH; cbn [calls slept]; [| lia | lia |].
    + replace (S rest - S k) with (rest - k) by lia.
      replace (S attempt + k) with (attempt + S k) by lia.
      replace (S (calls w) + k) with (calls w + S k) by lia.
      do 2 f_equal. rewrite <- backoff_seq_snoc, <- app_assoc. done.
    + intros i Hi. replace (S (calls w) + i) with (calls w + S i) by lia.
      apply Hfail. lia.
Qed.

(** X3.  After [k] transport failures, with attempts left, the client
    stops at the first attempt that ends otherwise: a body is cleaned
    (one text) or cut into one result per entry (a batch) and returned;
    a [KeyError] or [IndexError] on the envelope gives the "no result"
    value at once, without another attempt; any other exception leaves
    the client.  In each case [k + 1] calls were made and the delays
    slept are [min(2^i, 10)] for the [k] failed attempts. *)
Theorem client_stops_at_first_answer (post : nat -> http_outcome) (text : str)
    (entries_batch : list SRTEntry) (retry_count k : nat) (w : world) :
  k < retry_count -> entries_batch <> [] ->
  (forall i, i < k -> post (calls w + i) = RequestException) ->
  let w' := World (calls w + k + 1) (rev (map backoff (seq 0 k)) ++ slept w) in
  (forall t, post (calls w + k) = Body t ->
     correct_text_with_context tb post text retry_count w
     = (Returned (Some (_clean_corrected_text tb (strip tb t) text)), w')
     /\ correct_batch_texts tb post entries_batch retry_count w
        = (Returned (Some (_parse_batch_result tb (strip tb t) entries_batch)), w'))
  /\ (post (calls w + k) = EnvelopeError ->
      correct_text_with_context tb post text retry_count w = (Returned None, w')
      /\ correct_batch_texts tb post entries_batch retry_count w
         = (Returned (Some (replicate (length entries_batch) None)), w'))
  /\ (post (calls w + k) = OtherException ->
      correct_text_with_context tb post text retry_count w = (Raised, w')
      /\ correct_batch_texts tb post entries_batch retry_count w = (Raised, w')).
Proof.
  intros Hk Hne Hfail w'.
  assert (Ht : correct_text_with_context tb post text retry_count w
               = correct_text_attempts tb post text retry_count (retry_count - k)
                   (0 + k)
                   (World (calls w + k) (rev (map backoff (seq 0 k)) ++ slept w)))
    by (by apply correct_text_attempts_skip).
  assert (Hb : correct_batch_texts tb post entries_batch retry_count w
               = correct_batch_attempts tb post entries_batch retry_count
                   (retry_count - k) (0 + k)
                   (World (calls w + k) (rev (map backoff (seq 0 k)) ++ slept w))).
  { unfold correct_batch_texts. destruct entries_batch; [done|].
    by apply correct_batch_attempts_skip. }
  rewrite Ht, Hb. destruct (retry_count - k) as [|rest] eqn:E; [lia|].
  cbn [correct_text_attempts correct_batch_attempts].
  unfold bind, remote, ret, raise. cbn [calls slept]. unfold w'.
  replace (calls w + k + 1) with (S (calls w + k)) by lia.
  split; [|split]; [intros t Hp | intros Hp | intros Hp]; by rewrite Hp.
Qed.

End ClientAnswers.

Lemma client_stops_at_first_answer_witness :
  let post := fun i : nat =>
    if (i <? 2)%nat then Corrector.RequestException
    else Corrector.Body (Py.lit " hello ") in
  (2 < 5)%nat
  /\ Corrector.correct_text_with_context Py.py_tables post (Py.lit "helo") 5
       Eff.world0
     = (Eff.Returned (Some (Py.lit "hello")), Eff.World 3 [2; 1]%N).
Proof.
  intros post.
  destruct (client_stops_at_first_answer Py.py_tables post (Py.lit "helo")
              [Notions.sample_entry 1 "helo"] 5 2 Eff.world0
              ltac:(lia) ltac:(discriminate)) as (H & _ & _).
  { intros i Hi. destruct i as [|[|i]]; [reflexivity | reflexivity | lia]. }
  split; [lia|].
  exact (proj1 (H (Py.lit " hello ") eq_refl)).
Defined.

(** ** Cutting a batch answer *)

Section BatchResult.
Import Py Srt Eff Corrector Notions.
Local Open Scope nat_scope.
Context (tb : tables).

Lemma cut_contents_length (n : nat) :
  forall todo i remaining, length (cut_contents tb n i todo remaining) = todo.
Proof.
  induction todo as [|todo IH]; intros i remaining; [done|].
  cbn [cut_contents].
  destruct (i =? 0); [destruct (1 <? n) | destruct (i <? n - 1)];
    try destruct (split_once _ _ _) as [p0 p1]; cbn [length]; by rewrite IH.
Qed.

Lemma split_once_nil (sep cur : str) :
  sep <> [] -> split_once sep cur [] = (rev cur, None).
Proof. intros H. destruct sep; [done|]. reflexivity. Qed.

Lemma separator_not_nil (i : nat) : separator i <> [].
Proof. done. Qed.

Lemma cut_contents_nil (n : nat) :
  forall todo i, cut_contents tb n i todo [] = replicate todo [].
Proof.
  induction todo as [|todo IH]; intros i; [done|].
  cbn [cut_contents replicate].
  rewrite !split_once_nil by apply separator_not_nil. cbn [rev default].
  destruct (i =? 0); [destruct (1 <? n) | destruct (i <? n - 1)];
    by rewrite IH.
Qed.

Lemma zip_replicate_nil (es : list SRTEntry) :
  map (fun '(entry, corrected_text) =>
         if negb (eqs corrected_text [])
         then Some (_clean_corrected_text tb corrected_text (content entry))
         else Some (content entry))
      (zip es (replicate (length es) []))
  = map (fun e => Some (content e)) es.
Proof. induction es as [|e es IH]; [done|]. cbn. by rewrite <- IH. Qed.

(** X4.  [_parse_batch_result] gives exactly one result per entry of the
    batch, each of them a text and never [None], whatever the answer
    holds; an empty answer gives the original content of every entry. *)
Theorem parse_batch_result_one_text_per_entry (corrected_batch : str)
    (original_entries : list SRTEntry) :
  length (_parse_batch_result tb corrected_batch original_entries)
  = length original_entries
  /\ Forall is_Some (_parse_batch_result tb corrected_batch original_entries)
  /\ _parse_batch_result tb [] original_entries
     = map (fun e => Some (content e)) original_entries.
Proof.
  unfold _parse_batch_result. split; [|split].
  - rewrite length_app, !length_map, length_drop, length_zip_with,
      cut_contents_length. lia.
  - apply Forall_app. split; apply Forall_forall; intros x Hx.
    + apply list_elem_of_fmap in Hx as ([e c] & -> & _). by destruct (negb _).
    + by apply list_elem_of_fmap in Hx as (e & -> & _).
  - rewrite cut_contents_nil, zip_replicate_nil, length_map, drop_all.
    apply app_nil_r.
Qed.

End BatchResult.

(** ** The parser of the polisher and of the checker *)

Section ParserNl.
Import Py Re Srt Notions.
Context (tb : tables) (Htb : tables_ok tb).

Lemma entry_of_rendered_raw (e : SRTEntry) (z z' : cursor) :
  Spec.well_formed tb e ->
  entry_of_match_raw tb (Match z z' (entry_caps e)) = e.
Proof.
  intros (Hpos & Hst & Hen & Hne & Hstrip).
  unfold entry_of_match_raw, entry_caps, mk_entry. cbn [m_caps group Nat.eqb].
  destruct (str_of_N_spec tb Htb (number e)) as (d0 & ds & -> & _ & ->).
  rewrite (strip_snoc_NL tb Htb) by done.
  by destruct e.
Qed.

Lemma finditer_rendered_raw (es : list SRTEntry) :
  Forall (Spec.well_formed tb) es ->
  Forall (fun e => Spec.no_empty_line (content e)) es ->
  forall fuel bef,
    (length (write_srt es) < fuel)%nat ->
    map (entry_of_match_raw tb)
        (finditer_at (SRT_PATTERN tb) fuel bef (write_srt es))
    = es.
Proof.
  induction es as [|e es IH]; intros Hwf Hlines fuel bef Hfuel.
  - destruct fuel as [|f]; [done|]. reflexivity.
  - apply Forall_cons in Hwf as [He Hwf]. apply Forall_cons in Hlines as [Hl Hlines].
    destruct fuel as [|f]; [lia|]. pose proof (to_string_length tb Htb e) as Hlen.
    destruct es as [|e' es].
    + cbn [write_srt finditer_at].
      destruct (match_entry tb Htb e bef [] [] He Hl
                  (or_introl (conj eq_refl eq_refl))) as (bef' & Hm).
      cbn [app] in Hm. rewrite app_nil_r in Hm. rewrite Hm. cbn [after length].
      destruct (Nat.ltb_spec 0 (length (to_string e))) as [_|]; [|lia].
      cbn [map]. rewrite (entry_of_rendered_raw e) by done. cbn [before].
      destruct f as [|f]; [done|]. reflexivity.
    + change (write_srt (e :: e' :: es))
        with (to_string e ++ [NL] ++ write_srt (e' :: es)) in *.
      cbn [finditer_at].
      destruct (match_entry tb Htb e bef [NL] (write_srt (e' :: es)) He Hl
                  (or_intror eq_refl)) as (bef' & Hm).
      rewrite Hm. cbn [after before].
      rewrite !length_app in Hfuel. cbn [length] in Hfuel.
      destruct (Nat.ltb_spec (length (write_srt (e' :: es)))
                  (length (to_string e ++ [NL] ++ write_srt (e' :: es))))
        as [_|Hbad].
      2:{ rewrite !length_app in Hbad. cbn [length] in Hbad. lia. }
      cbn [map]. rewrite (entry_of_rendered_raw e) by done.
      f_equal. apply IH; [done | done | lia].
Qed.

(** A rendered file ends with the content of its last record and a line
    feed. *)
Lemma write_srt_end (es : list SRTEntry) (e : SRTEntry) :
  exists pre, write_srt (es ++ [e]) = pre ++ content e ++ [NL].
Proof.
  induction es as [|x es [pre IH]].
  - cbn [app write_srt]. unfold to_string.
    exists (str_of_N (number e) ++ [NL] ++ start_time e ++ lit " --> "
            ++ end_time e ++ [NL]).
    by rewrite <- !app_assoc.
  - destruct es as [|y es].
    + cbn [app write_srt] in *. exists (to_string x ++ [NL] ++ pre).
      rewrite IH. by rewrite <- !app_assoc.
    + change (write_srt ((x :: y :: es) ++ [e]))
        with (to_string x ++ [NL] ++ write_srt ((y :: es) ++ [e])).
      rewrite IH. exists (to_string x ++ [NL] ++ pre). by rewrite <- !app_assoc.
Qed.

Lemma ends_with_snoc (c x : N) (t : str) :
  ends_with [c] (t ++ [x]) = (c =? x).
Proof.
  unfold ends_with. rewrite rev_unit. cbn. apply andb_true_r.
Qed.

Lemma stripped_last_not_NL (t : str) :
  t <> [] -> strip tb t = t -> exists t' x, t = t' ++ [x] /\ x <> NL.
Proof.
  intros Hne Hfix. destruct (strip_fixed tb t Hfix) as [_ Hr].
  destruct (rev t) as [|x r] eqn:E.
  { apply (f_equal (@rev N)) in E. rewrite rev_involutive in E. done. }
  exists (rev r), x. split.
  - apply (f_equal (@rev N)) in E. rewrite rev_involutive in E. done.
  - intros ->. unfold rstrip in Hr. rewrite E in Hr. cbn [lstrip] in Hr.
    rewrite (space_NL tb Htb) in Hr.
    apply (f_equal (@length N)) in Hr. rewrite length_rev in Hr.
    pose proof (lstrip_length tb r) as Hl.
    apply (f_equal (@length N)) in E. rewrite length_rev in E. cbn in E. lia.
Qed.

(** X5.  The parser of the polisher and of the checker reads a rendered
    file back: for well-formed records whose contents hold no empty
    line it returns the records themselves, and it returns them as well
    when the final line feed of the file is missing. *)
Theorem parser_reads_rendered_file (es : list SRTEntry) :
  Forall (Spec.well_formed tb) es ->
  Forall (fun e => Spec.no_empty_line (content e)) es ->
  parse_srt_nl tb (write_srt es) = es
  /\ (forall t, t ++ [NL] = write_srt es -> parse_srt_nl tb t = es).
Proof.
  intros Hwf Hlines.
  assert (Hparse : map (entry_of_match_raw tb)
                     (finditer (SRT_PATTERN tb) (write_srt es)) = es).
  { unfold finditer. apply finditer_rendered_raw; try done. lia. }
  destruct (decide (es = [])) as [-> | Hne].
  { split; [|intros t Ht; by destruct t].
    assert (Hd : is_digit tb NL = false).
    { destruct (is_digit tb NL) eqn:E; [|done].
      by apply (digit_not_NL tb Htb) in E. }
    unfold parse_srt_nl, ensure_final_newline, finditer, SRT_PATTERN.
    cbn [write_srt ends_with rev starts_with app length finditer_at].
    unfold match_at. cbn [seqs]. rewrite !run_seq_k, run_grp.
    unfold plus, d. rewrite run_seq, run_cls_cons, Hd.
    cbn [run after]. reflexivity. }
  destruct (exists_last Hne) as (es' & e & ->).
  destruct (write_srt_end es' e) as (pre & Hend).
  assert (He : Spec.well_formed tb e).
  { apply Forall_app in Hwf as [_ Hwf]. by apply Forall_cons in Hwf as [? _]. }
  destruct He as (_ & _ & _ & Hcne & Hcfix).
  destruct (stripped_last_not_NL (content e) Hcne Hcfix) as (c' & x & Hc & Hx).
  split.
  - unfold parse_srt_nl, ensure_final_newline. rewrite Hend at 1.
    rewrite !app_assoc, ends_with_snoc, N.eqb_refl. exact Hparse.
  - intros t Ht. unfold parse_srt_nl, ensure_final_newline.
    assert (Et : t = pre ++ content e).
    { rewrite Hend, app_assoc in Ht. by apply app_inj_tail in Ht as [? _]. }
    rewrite Et at 1. rewrite Hc, !app_assoc, ends_with_snoc.
    destruct (N.eqb_spec NL x) as [E|_]; [congruence|].
    rewrite Ht. exact Hparse.
Qed.

End ParserNl.

Lemma parser_reads_rendered_file_witness :
  let es := [Srt.Entry 1 (Py.lit "00:00:01,000") (Py.lit "00:00:02,000")
                       [97; Py.NL; 98];
             Notions.sample_entry 2 "c"] in
  Srt.parse_srt_nl Py.py_tables (Srt.write_srt es) = es.
Proof.
  intros es.
  refine (proj1 (parser_reads_rendered_file Py.py_tables py_tables_ok es _ _)).
  - repeat constructor; vm_compute; congruence.
  - repeat constructor; vm_compute; congruence.
Defined.

(** ** The formatter *)

Section Formatter.
Import Py Srt Corrector Notions.
Local Open Scope nat_scope.
Context (tb : tables).

Lemma elem_of_lstrip (x : N) (t : str) : x ∈ lstrip tb t -> x ∈ t.
Proof.
  induction t as [|c t IH]; [done|]. cbn [lstrip].
  destruct (is_space tb c); [|done]. intros H. right. by apply IH.
Qed.

Lemma elem_of_rev (x : N) (t : str) : x ∈ rev t <-> x ∈ t.
Proof. rewrite !list_elem_of_In. symmetry. apply in_rev. Qed.

Lemma elem_of_strip (x : N) (t : str) : x ∈ strip tb t -> x ∈ t.
Proof.
  unfold strip, rstrip. rewrite elem_of_rev. intros H%elem_of_lstrip.
  rewrite elem_of_rev in H. by apply elem_of_lstrip.
Qed.

Lemma elem_of_join (x : N) (sep : str) (ls : list str) :
  x ∈ join sep ls -> x ∈ sep \/ exists l, l ∈ ls /\ x ∈ l.
Proof.
  induction ls as [|l ls IH]; [by intros ?%elem_of_nil|].
  destruct ls as [|l' ls].
  - cbn [join]. intros H. right. exists l. split; [left|done].
  - change (join sep (l :: l' :: ls)) with (l ++ sep ++ join sep (l' :: ls)).
    rewrite !elem_of_app. intros [H | [H | H]].
    + right. exists l. split; [left|done].
    + by left.
    + destruct (IH H) as [? | (l0 & Hl0 & Hx)]; [by left|].
      right. exists l0. split; [by right|done].
Qed.

Lemma split_nl_single (t : str) : NL ∉ t -> split_nl t = [t].
Proof.
  induction t as [|c t IH]; [done|]. intros H.
  apply not_elem_of_cons in H as [Hc Ht].
  destruct (split_nl_cons_other c t (not_eq_sym Hc)) as (l & ls & E1 & E2).
  rewrite E2. rewrite IH in E1 by done. by injection E1 as <- <-.
Qed.

(** X6.  [_clean_extra_newlines] merges the lines of a text into one:
    the result holds no line feed, and a text without a line feed is
    only stripped. *)
Theorem clean_extra_newlines_single_line (t : str) :
  (NL ∉ _clean_extra_newlines tb t)
  /\ (NL ∉ t -> _clean_extra_newlines tb t = strip tb t).
Proof.
  unfold _clean_extra_newlines. split.
  - intros [H | (l & Hl & Hx)]%elem_of_join.
    + apply elem_of_cons in H as [H | H%elem_of_nil]; done.
    + apply list_elem_of_In, filter_In in Hl as [Hl _].
      apply list_elem_of_In, list_elem_of_fmap in Hl as (l0 & -> & Hl0).
      apply elem_of_strip in Hx.
      by apply (proj1 (Forall_forall _ _) (split_nl_no_NL t) l0).
  - intros H. rewrite split_nl_single by done. cbn [map List.filter].
    unfold nonempty. destruct (strip tb t) as [|c s] eqn:E; done.
Qed.

(** X7.  [_smart_line_break] leaves a text alone when none of its lines
    is longer than 35 characters. *)
Theorem smart_line_break_short_lines (t : str) :
  Forall (fun l => length l <= 35) (split_nl t) ->
  _smart_line_break tb t = t.
Proof.
  intros H. unfold _smart_line_break.
  rewrite <- (join_split_nl t) at 2. f_equal.
  induction H as [|l ls Hl _ IH]; [done|]. cbn [flat_map].
  destruct (Nat.leb_spec (length l) 35) as [_|]; [|lia].
  by rewrite IH.
Qed.

Lemma append_to_last_nonempty (result : list str) (piece : str) :
  Forall (fun l => l <> []) result ->
  Forall (fun l => l <> []) (append_to_last result piece).
Proof.
  intros H. unfold append_to_last.
  destruct (rev result) as [|last front] eqn:E; [constructor|].
  apply (f_equal (@rev str)) in E. rewrite rev_involutive in E. subst result.
  cbn [rev] in H. apply Forall_app in H as [H1 H2].
  apply Forall_app. split; [done|]. constructor; [|constructor].
  by destruct last.
Qed.

Lemma break_loop_nonempty (max_length : nat) :
  forall fuel result remaining,
    Forall (fun l => l <> []) result ->
    Forall (fun l => l <> [])
           (fst (break_loop tb fuel max_length result remaining)).
Proof.
  induction fuel as [|f IH]; intros result remaining H; [done|].
  cbn [break_loop].
  destruct (length remaining <=? max_length); [done|].
  assert (Hadd : forall line : str, 8 <= length line ->
            Forall (fun l => l <> []) (result ++ [line])).
  { intros line Hline. apply Forall_app. split; [done|].
    constructor; [|constructor]. destruct line; [simpl in Hline; lia | done]. }
  destruct (best_break max_length break_points remaining) as [b|].
  - destruct (Nat.leb_spec 8 (length (strip tb (take b remaining)))).
    + apply IH. by apply Hadd.
    + destruct result as [|r rs]; [done|].
      apply IH. by apply append_to_last_nonempty.
  - destruct (Nat.leb_spec 8
                (length (strip tb (take (forced_break max_length remaining)
                                        remaining)))).
    + apply IH. by apply Hadd.
    + destruct result as [|r rs]; [done|].
      apply IH. by apply append_to_last_nonempty.
Qed.

(** X8.  [_break_long_line] never returns an empty list; a line no longer
    than the maximum is returned alone and unchanged; and no line that
    it returns for a non-empty line is empty. *)
Theorem break_long_line_no_empty_line (line : str) (max_length : nat) :
  _break_long_line tb line max_length <> []
  /\ (length line <= max_length -> _break_long_line tb line max_length = [line])
  /\ (line <> [] ->
      Forall (fun l => l <> []) (_break_long_line tb line max_length)).
Proof.
  unfold _break_long_line.
  destruct (Nat.leb_spec (length line) max_length) as [Hle | Hgt].
  { split; [done|]. split; [done|]. intros H. by repeat constructor. }
  destruct (break_loop tb (S (length line)) max_length [] line)
    as [result remaining] eqn:Eloop.
  assert (Hloop : Forall (fun l => l <> []) result).
  { change result with (fst (result, remaining)). rewrite <- Eloop.
    apply break_loop_nonempty. constructor. }
  set (result' :=
         if nonempty (strip tb remaining)
         then match rev result with
              | [] => result ++ [strip tb remaining]
              | last :: _ =>
                if (length (strip tb remaining) <=? 6)
                   && (5 * (length last + length (strip tb remaining))
                       <=? 6 * max_length)
                then append_to_last result (strip tb remaining)
                else result ++ [strip tb remaining]
              end
         else result).
  assert (Hres : Forall (fun l => l <> []) result').
  { unfold result', nonempty, eqs. case_bool_decide as Hr; cbv beta iota delta [negb]; [exact Hloop|].
    assert (Hadd : Forall (fun l : str => l <> [])
                          (result ++ [strip tb remaining])).
    { apply Forall_app. split; [done|]. by repeat constructor. }
    destruct (rev result) as [|last front]; [done|].
    destruct (_ && _); [by apply append_to_last_nonempty | done]. }
  split; [by destruct result' | split; [lia|]].
  intros Hne. destruct result'; [by repeat constructor | done].
Qed.

End Formatter.

Lemma smart_line_break_short_lines_witness :
  Corrector._smart_line_break Py.py_tables [97; 98; Py.NL; 99] = [97; 98; Py.NL; 99].
Proof.
  apply (smart_line_break_short_lines Py.py_tables [97; 98; Py.NL; 99]).
  vm_compute. repeat constructor; lia.
Defined.

(** ** Verification of a file against itself and in both directions *)

Section VerificationMore.
Import Py Srt Polisher Checker Notions.

Lemma perfect_refl (es : list SRTEntry) : Spec.perfect es es.
Proof.
  unfold Spec.perfect, Spec.missing, Spec.extra.
  rewrite difference_diag_L. repeat split; try done.
  intros n (src & dst & Hs & Hd & Hne). rewrite Hs in Hd. injection Hd as ->.
  by destruct Hne.
Qed.

Lemma perfect_sym (source output : list SRTEntry) :
  Spec.perfect source output -> Spec.perfect output source.
Proof.
  intros (Hm & He & Ht & Hl). repeat split; try done.
  intros n (src & dst & Hs & Hd & Hne). apply (Ht n). exists dst, src.
  repeat split; try done. destruct Hne as [H | H]; [left | right]; congruence.
Qed.

(** X9.  The verification of the polisher accepts every file against
    itself and gives the same verdict when source and output are
    exchanged; the checker accepts a file against itself when no
    sequence number occurs twice in it. *)
Theorem verification_reflexive_symmetric :
  (forall es, auto_verify_result es es = true)
  /\ (forall source output,
        auto_verify_result source output = auto_verify_result output source)
  /\ (forall es, NoDup (map number es) -> check_srt_files es es = true).
Proof.
  split; [|split].
  - intros es. apply auto_verify_result_perfect, perfect_refl.
  - intros source output.
    destruct (auto_verify_result source output) eqn:E1;
      destruct (auto_verify_result output source) eqn:E2; try done.
    + apply auto_verify_result_perfect, perfect_sym,
        auto_verify_result_perfect in E1. congruence.
    + apply auto_verify_result_perfect, perfect_sym,
        auto_verify_result_perfect in E2. congruence.
  - intros es Hnd. apply check_srt_files_perfect; [done | apply perfect_refl].
Qed.

End VerificationMore.

Lemma verification_reflexive_symmetric_witness :
  let es := [Notions.sample_entry 1 "a"; Notions.sample_entry 2 "b"] in
  Checker.check_srt_files es es = true.
Proof.
  intros es.
  apply (proj2 (proj2 verification_reflexive_symmetric) es).
  apply NoDup_cons. split; [|apply NoDup_singleton].
  intros H%list_elem_of_singleton. discriminate H.
Defined.

(** ** Corner quotes *)

Section CornerQuotes.
Import Py Srt Polisher Notions.
Context (tb : tables).

Lemma pair_for_depth_chars (depth : nat) :
  (fst (pair_for_depth depth) = 12300 \/ fst (pair_for_depth depth) = 12302)
  /\ (snd (pair_for_depth depth) = 12301 \/ snd (pair_for_depth depth) = 12303).
Proof. unfold pair_for_depth. destruct (_ =? _)%nat; cbn; auto. Qed.

Lemma corner_loop_facts (t : str) :
  forall prev stack,
    length (corner_loop tb prev stack t) = length t
    /\ (8220 ∉ corner_loop tb prev stack t)
    /\ (forall i c, t !! i = Some c -> c <> 8220 -> c <> 8221 -> c <> DQUOTE ->
                    corner_loop tb prev stack t !! i = Some c).
Proof.
  induction t as [|ch rest IH]; intros prev stack.
  { split; [done|]. split; [by intros ?%elem_of_nil | done]. }
  assert (Hcons : forall x p s, x <> 8220 ->
            (ch = x \/ (ch = 8220 \/ ch = 8221 \/ ch = DQUOTE)) ->
            length (x :: corner_loop tb p s rest) = length (ch :: rest)
            /\ (8220 ∉ x :: corner_loop tb p s rest)
            /\ (forall i c, (ch :: rest) !! i = Some c ->
                  c <> 8220 -> c <> 8221 -> c <> DQUOTE ->
                  (x :: corner_loop tb p s rest) !! i = Some c)).
  { intros x p s Hx Hch. destruct (IH p s) as (H1 & H2 & H3).
    split; [cbn; by rewrite H1|]. split.
    - intros [E | H]%elem_of_cons; [by rewrite E in Hx | done].
    - intros [|i] c Hi Hc1 Hc2 Hc3; cbn in *; [|by apply H3].
      injection Hi as ->. destruct Hch as [-> | [-> | [-> | ->]]]; done. }
  destruct (pair_for_depth_chars (length stack + 1)) as [Ho1 Hc1].
  destruct (pair_for_depth_chars (length stack)) as [Ho0 Hc0].
  cbn [corner_loop].
  destruct (N.eqb_spec ch 8220) as [E1 | N1].
  { apply Hcons; [destruct Ho1 as [-> | ->]; done | auto]. }
  destruct (N.eqb_spec ch 8221) as [E2 | N2].
  { destruct stack as [|[|] below].
    - apply Hcons; auto.
    - apply Hcons; [destruct Hc0 as [-> | ->]; done | auto].
    - apply Hcons; auto. }
  destruct (N.eqb_spec ch DQUOTE) as [E3 | N3]; [|apply Hcons; auto].
  destruct (_ || _); [apply Hcons; auto|].
  destruct stack as [|[|] below].
  - apply Hcons; [destruct Ho1 as [-> | ->]; done | auto].
  - apply Hcons; [destruct Ho1 as [-> | ->]; done | auto].
  - apply Hcons; [destruct Hc0 as [-> | ->]; done | auto].
Qed.

(** X10.  [convert_quotes_to_corner] replaces character by character:
    the result has the length of the text, no left curly quote is left
    in it, and every character other than the two curly quotes and the
    straight double quote stays where it is. *)
Theorem convert_quotes_in_place (t : str) :
  length (convert_quotes_to_corner tb t) = length t
  /\ (8220 ∉ convert_quotes_to_corner tb t)
  /\ (forall i c, t !! i = Some c -> c <> 8220 -> c <> 8221 -> c <> DQUOTE ->
                  convert_quotes_to_corner tb t !! i = Some c).
Proof. apply corner_loop_facts. Qed.

End CornerQuotes.

(** ** A batch of the corrector when every request fails *)

Section BatchFailure.
Import Py Srt Eff Corrector Notions.
Local Open Scope nat_scope.
Context (tb : tables).

Lemma existsb_replicate_none (n : nat) :
  existsb (fun r : option str => match r with Some _ => true | None => false end)
          (replicate n None) = false.
Proof. induction n; [done|]. cbn. done. Qed.

Lemma batch_retry_all_fail (post : nat -> http_outcome)
    (need_correction : list SRTEntry) :
  (forall i, post i = RequestException) -> need_correction <> [] ->
  forall remaining attempt last w, 0 < remaining ->
    exists w',
      batch_retry tb post need_correction remaining attempt last w
      = (Returned (Some (replicate (length need_correction) None)), w')
      /\ calls w' = calls w + MAX_API_RETRIES * remaining.
Proof.
  intros Hpost Hne.
  induction remaining as [|rest IH]; intros attempt last w Hpos; [lia|].
  cbn [batch_retry]. unfold bind at 1. unfold try_except at 1.
  unfold bind at 1.
  assert (Hcall : correct_batch_texts tb post need_correction MAX_API_RETRIES w
                  = (Returned (Some (replicate (length need_correction) None)),
                     world_after w MAX_API_RETRIES)).
  { unfold correct_batch_texts. destruct need_correction; [done|].
    apply correct_batch_attempts_fail;
      [done | unfold MAX_API_RETRIES; lia | by intros]. }
  rewrite Hcall.
  destruct need_correction as [|e es]; [done|].
  cbn [length replicate]. rewrite length_replicate, Nat.eqb_refl.
  cbn [andb default]. unfold id. cbn [existsb orb].
  rewrite existsb_replicate_none.
  cbn [andb ret].
  destruct rest as [|rest].
  - cbn [batch_retry ret]. eexists. split; [reflexivity|].
    cbn [calls world_after]. lia.
  - destruct (IH (S attempt) (Some (None :: replicate (length es) None))
                (world_after w MAX_API_RETRIES) ltac:(lia)) as (w' & E & Hc).
    exists w'. split; [exact E|]. rewrite Hc. cbn [calls world_after]. lia.
Qed.

Lemma zip_all_none (need : list SRTEntry) :
  map (fun '(entry, corrected_text) =>
         match corrected_text with
         | Some t => mk_entry tb (number entry) (start_time entry)
                              (end_time entry) t
         | None => entry
         end) (zip need (replicate (length need) (@None str)))
  = need.
Proof. induction need as [|e es IH]; [done|]. cbn. by rewrite IH. Qed.

(** X11.  When every request of the client fails in transport,
    [_process_single_true_batch] returns the formatted entries of the
    batch and none of the original texts is sent on as corrected: first
    the entries that needed a correction, then the others, each with
    its number and times and the formatted content.  With entries to
    correct it has made [MAX_BATCH_RETRIES * MAX_API_RETRIES] = 25
    requests. *)
Theorem true_batch_keeps_formatted_on_failure (o : format_options)
    (post : nat -> http_outcome) (batch : list SRTEntry) (w : world) :
  (forall i, post i = RequestException) ->
  let formatted_batch :=
    map (fun entry => mk_entry tb (number entry) (start_time entry)
                               (end_time entry)
                               (format_subtitle_content tb o (content entry)))
        batch in
  let need := List.filter (fun e => _needs_correction (content e))
                          formatted_batch in
  let rest := List.filter (fun e => negb (_needs_correction (content e)))
                          formatted_batch in
  exists w',
    _process_single_true_batch tb o post None batch w
    = (Returned (need ++ rest), w')
    /\ calls w' = calls w + (if decide (need = []) then 0 else 25).
Proof.
  intros Hpost formatted_batch need rest.
  unfold _process_single_true_batch. fold formatted_batch. fold need. fold rest.
  destruct (decide (need = [])) as [E | Hne].
  - rewrite E. unfold bind, ret. exists w. split; [done | lia].
  - destruct (batch_retry_all_fail post need Hpost Hne MAX_BATCH_RETRIES 0 None w
                ltac:(unfold MAX_BATCH_RETRIES; lia)) as (w' & Hr & Hc).
    exists w'. split; [|rewrite Hc; reflexivity].
    destruct need as [|e es] eqn:En; [done|].
    unfold bind at 1. unfold bind at 1. rewrite Hr.
    cbn [length replicate]. rewrite length_replicate, Nat.eqb_refl.
    unfold ret. do 2 f_equal.
    exact (f_equal (fun l => l ++ rest) (zip_all_none (e :: es))).
Qed.

End BatchFailure.

Lemma true_batch_keeps_formatted_on_failure_witness :
  exists w',
    Corrector._process_single_true_batch Py.py_tables
      Corrector.default_format_options (fun _ => Corrector.RequestException)
      None [Notions.sample_entry 1 "12"; Notions.sample_entry 2 "a  b"]
      Eff.world0
    = (Eff.Returned [Notions.sample_entry 2 "a b"; Notions.sample_entry 1 "12"], w')
    /\ Eff.calls w' = 25%nat.
Proof.
  destruct (true_batch_keeps_formatted_on_failure Py.py_tables
              Corrector.default_format_options
              (fun _ => Corrector.RequestException)
              [Notions.sample_entry 1 "12"; Notions.sample_entry 2 "a  b"]
              Eff.world0 (fun i => eq_refl)) as (w' & E & Hc).
  exists w'. split; [exact E | exact Hc].
Defined.

(** ** The context of an entry *)

Section Context.
Import Py Srt Eff Corrector Notions.
Local Open Scope nat_scope.

Lemma context_range (entries : list SRTEntry) (current_index : nat) :
  forall n a,
    a + n <= length entries ->
    (current_index < a \/ a + n <= current_index) ->
    flat_map (fun i => if i =? current_index then []
                       else match entries !! i with
                            | Some e => [e]
                            | None => []
                            end) (seq a n)
    = take n (drop a entries).
Proof.
  induction n as [|n IH]; intros a Hlen Hout; [done|].
  cbn [seq flat_map].
  destruct (Nat.eqb_spec a current_index) as [|_]; [lia|].
  destruct (lookup_lt_is_Some_2 entries a ltac:(lia)) as [e He].
  rewrite He, IH by lia. cbn [app].
  rewrite (drop_S _ _ _ He). done.
Qed.

(** X12.  For an index inside the list, [_get_context_entries] returns
    the entries at most [context_window] places before the current one
    followed by those at most [context_window] places after it, in
    order and without the current entry: never more than twice the
    window. *)
Theorem context_entries_window (context_window : nat)
    (entries : list SRTEntry) (current_index : nat) :
  current_index < length entries ->
  _get_context_entries context_window entries current_index
  = take (Nat.min context_window current_index)
         (drop (current_index - context_window) entries)
    ++ take context_window (drop (S current_index) entries)
  /\ length (_get_context_entries context_window entries current_index)
     <= 2 * context_window.
Proof.
  intros Hi. set (w := context_window). set (i := current_index).
  assert (E : _get_context_entries w entries i
              = take (Nat.min w i) (drop (i - w) entries)
                ++ take w (drop (S i) entries)).
  { unfold _get_context_entries.
    set (stop := Nat.min (length entries) (i + w + 1)).
    replace (stop - (i - w)) with ((i - (i - w)) + (1 + (stop - S i)))
      by (unfold stop; lia).
    rewrite seq_app, flat_map_app. cbn [seq flat_map Nat.add].
    replace (i - w + (i - (i - w))) with i by lia.
    rewrite Nat.eqb_refl. cbn [app].
    rewrite !context_range by (unfold stop; lia).
    replace (i - (i - w)) with (Nat.min w i) by lia. f_equal.
    destruct (Nat.le_gt_cases (length entries) (i + w + 1)) as [Hle | Hgt].
    - unfold stop. rewrite Nat.min_l by lia.
      rewrite !take_ge; [done | |]; rewrite length_drop; lia.
    - unfold stop. rewrite Nat.min_r by lia. f_equal. lia. }
  split; [exact E|]. rewrite E, length_app, !length_take. lia.
Qed.

End Context.

Lemma context_entries_window_witness :
  let entries := map (fun n => Notions.sample_entry n "x") [1; 2; 3; 4; 5; 6]%N in
  map Srt.number (Corrector._get_context_entries 2 entries 1) = [1; 3; 4]%N.
Proof.
  intros entries.
  rewrite (proj1 (context_entries_window 2 entries 1 ltac:(simpl; lia))).
  reflexivity.
Defined.

(** ** Retrying one entry *)

Section EntryRetry.
Import Py Srt Eff Corrector Notions.
Local Open Scope nat_scope.
Context (tb : tables).

Lemma correct_subtitle_entry_raises (o : format_options)
    (post : nat -> http_outcome) (entry : SRTEntry) (w : world) :
  post (calls w) = OtherException ->
  _needs_correction (format_subtitle_content tb o (content entry)) = true ->
  correct_subtitle_entry tb o post entry w
  = (Raised, World (S (calls w)) (slept w)).
Proof.
  intros Hpost Hneed. unfold correct_subtitle_entry. rewrite Hneed. cbn [negb].
  unfold bind, correct_text_with_context, MAX_API_RETRIES.
  cbn [correct_text_attempts]. unfold bind, remote. by rewrite Hpost.
Qed.

Lemma entry_retry_raising (o : format_options) (post : nat -> http_outcome)
    (entry : SRTEntry) :
  (forall i, post i = OtherException) ->
  _needs_correction (format_subtitle_content tb o (content entry)) = true ->
  forall remaining attempt w,
    attempt + remaining = MAX_ENTRY_RETRIES -> 0 < remaining ->
    entry_retry tb o post entry remaining attempt w
    = (Raised, World (calls w + remaining)
                     (replicate (remaining - 1) 1%N ++ slept w)).
Proof.
  intros Hpost Hneed.
  induction remaining as [|rest IH]; intros attempt w Hsum Hpos; [lia|].
  cbn [entry_retry]. unfold try_except, bind.
  rewrite correct_subtitle_entry_raises by done.
  destruct (Nat.eqb_spec attempt (MAX_ENTRY_RETRIES - 1)) as [Hlast | Hmore].
  - assert (rest = 0) by lia. subst rest. unfold raise. cbn.
    do 2 f_equal. lia.
  - unfold sleep. cbn [calls slept]. rewrite IH by lia. cbn [calls slept].
    do 2 f_equal; [lia|].
    destruct rest as [|rest]; [lia|]. cbn [Nat.sub replicate].
    rewrite Nat.sub_0_r. change (1%N :: slept w) with ([1%N] ++ slept w).
    rewrite app_assoc. f_equal.
    clear. induction rest as [|n IH]; [done|]. cbn. by rewrite IH.
Qed.

Lemma entry_retry_shape (o : format_options) (post : nat -> http_outcome)
    (entry : SRTEntry) :
  forall remaining attempt w,
    attempt + remaining = MAX_ENTRY_RETRIES -> 0 < remaining ->
    match entry_retry tb o post entry remaining attempt w with
    | (Returned (Some e), _) => Spec.identity e = Spec.identity entry
    | (Returned None, _) => False
    | (Raised, _) => True
    end.
Proof.
  induction remaining as [|rest IH]; intros attempt w Hsum Hpos; [lia|].
  cbn [entry_retry]. unfold try_except, bind.
  pose proof (correct_subtitle_entry_identity tb o post entry w) as Hid.
  destruct (correct_subtitle_entry tb o post entry w) as [[e|] w1]; [exact Hid|].
  destruct (Nat.eqb_spec attempt (MAX_ENTRY_RETRIES - 1)) as [Hlast | Hmore];
    [done|].
  unfold sleep. apply IH; lia.
Qed.

Lemma entry_retry_after_failures (o : format_options)
    (post : nat -> http_outcome) (entry : SRTEntry) :
  forall k remaining attempt w wk,
    k < remaining -> attempt + remaining = MAX_ENTRY_RETRIES ->
    after_failures (correct_subtitle_entry tb o post entry) 1 k w = Some wk ->
    entry_retry tb o post entry remaining attempt w
    = entry_retry tb o post entry (remaining - k) (attempt + k) wk.
Proof.
  induction k as [|k IH]; intros remaining attempt w wk Hk Hsum Haf.
  - injection Haf as <-. by rewrite Nat.sub_0_r, Nat.add_0_r.
  - destruct remaining as [|rest]; [lia|].
    cbn [after_failures] in Haf. cbn [entry_retry]. unfold try_except, bind.
    destruct (correct_subtitle_entry tb o post entry w) as [[e|] w1]; [done|].
    destruct (Nat.eqb_spec attempt (MAX_ENTRY_RETRIES - 1)) as [Hlast | _];
      [lia|].
    unfold sleep. cbn [calls slept].
    rewrite (IH rest (S attempt) _ wk) by (lia || done).
    f_equal; lia.
Qed.

(** X13.  [_correct_single_entry_with_retry] returns what the first
    successful call of [correct_subtitle_entry] returns, an entry with
    the identity fields of its argument, and never [None]: when the
    first [k] attempts raise, [k] below [MAX_ENTRY_RETRIES] = 5, and the
    next one returns, its entry is the result, one second having been
    slept after each attempt that raised; when the fifth attempt raises
    as well, so does the function, without sleeping once more.  When
    every request raises an exception that the client lets through,
    this happens after 5 requests and four seconds. *)
Theorem single_entry_retry (o : format_options) (post : nat -> http_outcome)
    (entry : SRTEntry) (w : world) :
  match _correct_single_entry_with_retry tb o post entry w with
  | (Returned (Some e), _) => Spec.identity e = Spec.identity entry
  | (Returned None, _) => False
  | (Raised, _) => True
  end
  /\ (forall k wk e w',
        k < MAX_ENTRY_RETRIES ->
        after_failures (correct_subtitle_entry tb o post entry) 1 k w = Some wk ->
        correct_subtitle_entry tb o post entry wk = (Returned e, w') ->
        _correct_single_entry_with_retry tb o post entry w
        = (Returned (Some e), w'))
  /\ (forall wk w',
        after_failures (correct_subtitle_entry tb o post entry) 1
                       (MAX_ENTRY_RETRIES - 1) w = Some wk ->
        correct_subtitle_entry tb o post entry wk = (Raised, w') ->
        _correct_single_entry_with_retry tb o post entry w = (Raised, w'))
  /\ ((forall i, post i = OtherException) ->
      _needs_correction (format_subtitle_content tb o (content entry)) = true ->
      _correct_single_entry_with_retry tb o post entry w
      = (Raised, World (calls w + 5) ([1; 1; 1; 1]%N ++ slept w))).
Proof.
  unfold _correct_single_entry_with_retry. split; [|split; [|split]].
  - apply entry_retry_shape; unfold MAX_ENTRY_RETRIES; lia.
  - intros k wk e w' Hk Haf Hrun.
    rewrite (entry_retry_after_failures o post entry k _ 0 w wk Hk eq_refl Haf).
    destruct (MAX_ENTRY_RETRIES - k) as [|rest] eqn:Er; [lia|].
    cbn [entry_retry]. unfold try_except, bind. by rewrite Hrun.
  - intros wk w' Haf Hrun.
    rewrite (entry_retry_after_failures o post entry (MAX_ENTRY_RETRIES - 1)
               MAX_ENTRY_RETRIES 0 w wk ltac:(unfold MAX_ENTRY_RETRIES; lia)
               eq_refl Haf).
    unfold MAX_ENTRY_RETRIES. cbn [Nat.sub Nat.add entry_retry].
    unfold try_except, bind. rewrite Hrun. done.
  - intros Hpost Hneed.
    by rewrite entry_retry_raising by (done || unfold MAX_ENTRY_RETRIES; lia).
Qed.

End EntryRetry.

Lemma single_entry_retry_witness :
  let post := fun i : nat =>
    if (i <? 2)%nat then Corrector.OtherException
    else Corrector.Body (Py.lit "abd") in
  exists e,
    Corrector._correct_single_entry_with_retry Py.py_tables
      Corrector.default_format_options post (Notions.sample_entry 1 "abc")
      Eff.world0
    = (Eff.Returned (Some e), Eff.World 3 [1; 1]%N)
    /\ Srt.content e = Py.lit "abd".
Proof.
  intros post. eexists. split.
  - apply (proj1 (proj2 (single_entry_retry Py.py_tables
                           Corrector.default_format_options post
                           (Notions.sample_entry 1 "abc") Eff.world0))
             2%nat (Eff.World 2 [1; 1]%N)).
    + unfold Corrector.MAX_ENTRY_RETRIES. lia.
    + vm_compute. reflexivity.
    + vm_compute. reflexivity.
  - vm_compute. reflexivity.
Defined.

(** ** Older parsers of a batch answer *)

Section OlderParsers.
Import Py Srt Eff Notions.
Local Open Scope nat_scope.
Context (tb : tables).

Lemma split_by_patterns_spec (pats : list Re.re) (text : str) (expected : nat)
    (parts : list str) :
  Polisher.split_by_patterns tb pats text expected = Some parts ->
  length parts = expected /\ Forall (fun p => p <> []) parts.
Proof.
  induction pats as [|p pats IH]; [done|]. cbn [Polisher.split_by_patterns].
  destruct (Nat.eqb_spec
              (length (List.filter (fun x => negb (eqs (strip tb x) []))
                                   (Polisher.re_split p text))) expected)
    as [Hlen | _]; [|exact IH].
  intros [= <-]. split; [by rewrite length_map|].
  apply Forall_forall. intros x Hx.
  apply list_elem_of_fmap in Hx as (y & -> & Hy).
  apply list_elem_of_In, filter_In in Hy as [_ Hy].
  apply negb_true_iff in Hy. unfold eqs in Hy.
  by apply bool_decide_eq_false in Hy.
Qed.

Lemma fill_empty_length (fallback : str) (result : list str) :
  forall last_non_empty,
    length (Polisher.fill_empty fallback last_non_empty result) = length result.
Proof.
  induction result as [|val rest IH]; intros last; [done|].
  cbn [Polisher.fill_empty]. destruct (negb _); cbn; by rewrite IH.
Qed.

Lemma fill_empty_nonempty (fallback : str) (result : list str) :
  fallback <> [] ->
  forall last_non_empty,
    (forall x, last_non_empty = Some x -> x <> []) ->
    Forall (fun p => p <> [])
           (Polisher.fill_empty fallback last_non_empty result).
Proof.
  intros Hf. induction result as [|val rest IH]; intros last Hlast;
    [constructor|].
  cbn [Polisher.fill_empty]. unfold eqs. case_bool_decide as Hv; cbn [negb].
  - constructor; [|by apply IH].
    destruct last as [x|]; cbn; [by apply Hlast | done].
  - constructor; [done|]. apply IH. by intros x [= <-].
Qed.

(** X14.  For a positive number of expected blocks
    [parse_polished_result] returns, without raising, exactly that many
    blocks, whichever of its three ways of cutting applies; and none of
    the blocks is empty unless the whole answer is blank. *)
Theorem parse_polished_result_count (polished_text : str)
    (expected_count : nat) :
  0 < expected_count ->
  exists blocks,
    Polisher.parse_polished_result tb polished_text expected_count
    = Returned blocks
    /\ length blocks = expected_count
    /\ (strip tb polished_text <> [] -> Forall (fun p => p <> []) blocks).
Proof.
  intros Hpos. unfold Polisher.parse_polished_result.
  destruct (Polisher.split_by_patterns tb (Polisher.separator_patterns tb)
              polished_text expected_count) as [parts|] eqn:E.
  { apply split_by_patterns_spec in E as [H1 H2]. by exists parts. }
  destruct (expected_count <=? _).
  - destruct (Nat.eqb_spec expected_count 0) as [|_]; [lia|].
    eexists. split; [reflexivity|].
    split; [by rewrite fill_empty_length, length_map, length_seq|].
    intros Hne. by apply fill_empty_nonempty.
  - exists (replicate expected_count (strip tb polished_text)).
    split; [done|]. split; [apply length_replicate|].
    intros Hne. by apply Forall_replicate.
Qed.

(** X15.  [_fallback_parse_result] returns one text per entry, never
    [None], and nothing for an empty list of entries. *)
Theorem fallback_parse_result_one_text_per_entry (corrected_batch : str)
    (original_entries : list SRTEntry) :
  length (Corrector._fallback_parse_result tb corrected_batch original_entries)
  = length original_entries
  /\ Forall is_Some
            (Corrector._fallback_parse_result tb corrected_batch original_entries).
Proof.
  unfold Corrector._fallback_parse_result.
  destruct (Nat.eqb_spec (length original_entries) 0) as [E | _].
  { split; [by rewrite E | constructor]. }
  split; [apply length_imap|].
  apply Forall_forall. intros x Hx.
  apply list_elem_of_lookup in Hx as [i Hi].
  rewrite list_lookup_imap in Hi.
  destruct (original_entries !! i) as [e|]; [|done]. cbn in Hi.
  injection Hi as <-. by destruct (Corrector.nonempty _).
Qed.

End OlderParsers.

Lemma parse_polished_result_count_witness :
  Polisher.parse_polished_result Py.py_tables
    (Py.lit "a ===SUBTITLE_SEPARATOR_12=== b") 2
  = Eff.Returned [Py.lit "a"; Py.lit "b"].
Proof.
  destruct (parse_polished_result_count Py.py_tables
              (Py.lit "a ===SUBTITLE_SEPARATOR_12=== b") 2 ltac:(lia))
    as (blocks & E & _ & _).
  rewrite E. revert E. vm_compute. intros [= <-]. reflexivity.
Defined.

(** ** The corrected file *)

Section CorrectedFile.
Import Py Srt Eff Corrector Notions.
Local Open Scope nat_scope.
Context (tb : tables).

Lemma insert_by_number_head (e : SRTEntry) (l : list SRTEntry) :
  HdRel by_number e l -> insert_by_number e l = e :: l.
Proof.
  intros H. destruct l as [|x l]; [done|]. cbn [insert_by_number].
  apply HdRel_inv in H. unfold by_number in H.
  by destruct (N.leb_spec (number e) (number x)); [|lia].
Qed.

Lemma sort_by_number_sorted_input (l : list SRTEntry) :
  Sorted by_number l -> sort_by_number l = l.
Proof.
  induction 1 as [|x l Hs IH Hhd]; [done|].
  unfold sort_by_number in *. cbn [foldr]. rewrite IH.
  by apply insert_by_number_head.
Qed.

Lemma sorted_by_identity (l l' : list SRTEntry) :
  map Spec.identity l = map Spec.identity l' ->
  Sorted by_number l' -> Sorted by_number l.
Proof.
  revert l'. induction l as [|x l IH]; intros l' E Hs; [constructor|].
  destruct l' as [|x' l']; [done|].
  inversion E as [[Ex1 Ex2 Ex3 El]].
  apply Sorted_inv in Hs as [Hs Hhd]. constructor; [by eapply IH|].
  destruct l as [|y l]; [constructor|]. destruct l' as [|y' l']; [done|].
  inversion El as [[Ey1 Ey2 Ey3 El']].
  apply HdRel_inv in Hhd. constructor. unfold by_number in *. congruence.
Qed.

(** X16.  The context-aware run of [correct_srt_file] on the entries
    parsed from a file never raises, whatever the service does.  With a
    batch size other than zero and a file that holds some entry it
    writes the rendering of a list of entries that is sorted by number
    and whose identity fields are, up to order, those of the input; for
    an input already sorted by number the entries written are in the
    order of the input, with the same identity fields.  With a batch
    size of zero, or a file without entries, it returns [False]: nothing
    is written and no request is made. *)
Theorem correct_srt_file_writes_sorted_entries (batch_size : Z)
    (o : format_options) (post : nat -> http_outcome)
    (entries : list SRTEntry) (w : world) :
  (batch_size <> 0%Z -> entries <> [] ->
   exists written w',
     correct_srt_file tb batch_size o post entries w
     = (Returned (Some (write_srt written)), w')
     /\ Sorted by_number written
     /\ map Spec.identity written ≡ₚ map Spec.identity entries
     /\ (Sorted by_number entries ->
         map Spec.identity written = map Spec.identity entries))
  /\ (batch_size = 0%Z \/ entries = [] ->
      correct_srt_file tb batch_size o post entries w = (Returned None, w)).
Proof.
  split.
  - intros Hb Hne.
    destruct (correct_entries_identity tb o post entries w) as (l & w' & E & I).
    exists (sort_by_number l), w'.
    unfold correct_srt_file, try_except, bind, check_range_step.
    destruct entries as [|e es]; [done|].
    destruct (Z.eqb_spec batch_size 0) as [|_]; [done|].
    cbn [ret]. rewrite E.
    split; [done|]. split; [apply sort_by_number_sorted|].
    split; [by rewrite sort_by_number_perm, I|].
    intros Hs. rewrite sort_by_number_sorted_input; [done|].
    by eapply sorted_by_identity.
  - intros H. unfold correct_srt_file, try_except, bind, check_range_step.
    destruct entries as [|e es]; [done|].
    destruct H as [-> | H]; [done | discriminate H].
Qed.

End CorrectedFile.

Lemma correct_srt_file_writes_sorted_entries_witness :
  let entries := [Notions.sample_entry 1 "12"; Notions.sample_entry 2 "34"] in
  (exists written w',
     Corrector.correct_srt_file Py.py_tables 5 Corrector.default_format_options
       (fun _ => Corrector.RequestException) entries Eff.world0
     = (Eff.Returned (Some (Srt.write_srt written)), w')
     /\ map Spec.identity written = map Spec.identity entries)
  /\ Corrector.correct_srt_file Py.py_tables 0 Corrector.default_format_options
       (fun _ => Corrector.RequestException) entries Eff.world0
     = (Eff.Returned None, Eff.world0).
Proof.
  intros entries. split.
  - destruct (proj1 (correct_srt_file_writes_sorted_entries Py.py_tables 5
                       Corrector.default_format_options
                       (fun _ => Corrector.RequestException) entries Eff.world0)
                ltac:(discriminate) ltac:(discriminate))
      as (written & w' & E & _ & _ & H).
    exists written, w'. split; [exact E|]. apply H.
    repeat constructor. unfold Notions.by_number. cbn. lia.
  - apply (proj2 (correct_srt_file_writes_sorted_entries Py.py_tables 0
                    Corrector.default_format_options
                    (fun _ => Corrector.RequestException) entries Eff.world0)).
    by left.
Defined.

(** ** Answers that are used *)

Section Answers.
Import Py Srt Eff Notions.
Local Open Scope nat_scope.
Context (tb : tables).

Context (json_loads_list : str -> option (list str))
        (pr : Polisher.preparation).

Lemma fill_missing_texts (l : list str) (batch : list SRTEntry) :
  length l = length batch ->
  Polisher.fill_missing (map Some l) batch
  = zip_with (fun p entry => if eqs p [] then content entry else p) l batch.
Proof.
  intros Hlen. unfold Polisher.fill_missing. apply list_eq. intros i.
  rewrite list_lookup_imap, lookup_zip_with, list_lookup_fmap.
  destruct (l !! i) as [p|] eqn:Ep; [|done]. cbn.
  destruct (lookup_lt_is_Some_2 batch i) as [e He].
  { rewrite <- Hlen. by eapply lookup_lt_Some. }
  rewrite He. cbn. f_equal. unfold eqs. by destruct p.
Qed.

Lemma zip_zip_with {A B C D : Type} (g : A -> B -> C) (h : B -> A -> B)
    (k : D -> B) :
  forall (b : list A) (l : list D),
    map (fun '(entry, p) => g entry p) (zip b (zip_with h (map k l) b))
    = zip_with (fun entry c => g entry (h (k c) entry)) b l.
Proof.
  induction b as [|e es IH]; intros [|c cs]; try reflexivity.
  cbn [zip_with zip map]. f_equal. apply IH.
Qed.

(** X18.  When nothing raises before the request for a batch of two or
    more records is sent, and the first answer decodes to as many
    chunks as records, none of the stripped chunks being contaminated,
    [polish_subtitle_batch] returns after this one call: every record
    keeps its number and times and gets the cleanup of its chunk, or of
    its original content where the chunk is blank. *)
Theorem polish_batch_uses_clean_answer (corner_quotes : bool)
    (translate : nat -> Polisher.translate_outcome) (entries : list SRTEntry)
    (start_idx end_idx retry_count : nat) (w : world) (r : str)
    (chunks : list str) :
  2 <= end_idx - start_idx -> end_idx <= length entries ->
  batch_prepared pr entries start_idx end_idx = true ->
  translate (calls w) = Polisher.TReturn (Some r) ->
  json_loads_list r = Some chunks -> length chunks = end_idx - start_idx ->
  existsb (Polisher._bad tb) (map Some (map (strip tb) chunks)) = false ->
  Polisher.polish_subtitle_batch tb json_loads_list pr
    (Polisher.polish_fuel start_idx end_idx) corner_quotes translate entries
    start_idx end_idx retry_count w
  = (Returned
       (Some (zip_with
                (fun entry chunk =>
                   mk_entry tb (number entry) (start_time entry) (end_time entry)
                     (Polisher.clean_polished_content tb corner_quotes
                        (Some (if eqs (strip tb chunk) [] then content entry
                               else strip tb chunk))))
                (take (end_idx - start_idx) (drop start_idx entries)) chunks)),
     World (S (calls w)) (slept w)).
Proof.
  intros Hsize Hend Hprep Htr Hjson Hlen Hclean.
  unfold Polisher.polish_fuel.
  replace (11 * (end_idx - start_idx) + 1) with (S (11 * (end_idx - start_idx)))
    by lia.
  cbn [Polisher.polish_subtitle_batch].
  destruct (Nat.leb_spec end_idx start_idx) as [|_]; [lia|].
  destruct (Nat.ltb_spec (length entries) end_idx) as [|_]; [lia|].
  cbn [orb].
  pose proof (slice_length entries start_idx end_idx ltac:(lia)) as Hslice.
  remember (take (end_idx - start_idx) (drop start_idx entries))
    as batch eqn:Hbatch.
  destruct batch as [|e1 [|e2 rest]];
    [simpl in Hslice; lia | simpl in Hslice; lia |].
  set (b := e1 :: e2 :: rest) in *.
  unfold try_except at 1. rewrite batch_prelude, Hprep.
  unfold bind at 1. unfold Polisher.call_translate at 1.
  unfold bind at 1. unfold remote at 1. cbn beta. rewrite Htr. cbn [ret].
  unfold bind at 1. unfold Polisher._parse_json_array at 1. rewrite Hjson.
  rewrite Hlen, <- Hslice, Nat.eqb_refl. cbn [ret].
  rewrite Hclean. cbn [andb].
  rewrite fill_missing_texts by (rewrite length_map; lia).
  rewrite heal_length_same
    by (rewrite length_zip_with, length_map; lia).
  rewrite length_zip_with, length_map.
  replace (Nat.min (length chunks) (length b)) with (length b) by lia.
  rewrite Nat.eqb_refl. cbn [negb]. unfold ret. do 3 f_equal.
  exact (zip_zip_with
           (fun entry p =>
              mk_entry tb (number entry) (start_time entry) (end_time entry)
                (Polisher.clean_polished_content tb corner_quotes (Some p)))
           (fun p entry => if eqs p [] then content entry else p)
           (strip tb) b chunks).
Qed.

Lemma polish_unprepared (corner_quotes : bool)
    (translate : nat -> Polisher.translate_outcome) (entries : list SRTEntry)
    (lo hi : nat) :
  (Polisher.system_message_raises pr = true
   \/ forall i, lo <= i < hi -> analysis_raises pr entries i = true) ->
  forall fuel start_idx end_idx retry_count w,
    lo <= start_idx -> end_idx <= hi ->
    start_idx < end_idx <= length entries ->
    end_idx - start_idx <= fuel ->
    Polisher.polish_subtitle_batch tb json_loads_list pr fuel corner_quotes
      translate entries start_idx end_idx retry_count w
    = (Returned (Some (take (end_idx - start_idx) (drop start_idx entries))), w).
Proof.
  intros Hraise.
  induction fuel as [|f IH];
    intros start_idx end_idx retry_count w Hlo Hhi Hrange Hfuel; [lia|].
  cbn [Polisher.polish_subtitle_batch].
  destruct (Nat.leb_spec end_idx start_idx) as [|_]; [lia|].
  destruct (Nat.ltb_spec (length entries) end_idx) as [|_]; [lia|].
  cbn [orb].
  pose proof (slice_length entries start_idx end_idx ltac:(lia)) as Hlen.
  remember (take (end_idx - start_idx) (drop start_idx entries))
    as batch eqn:Hbatch.
  destruct batch as [|entry [|entry2 rest]]; [simpl in Hlen; lia | |].
  - unfold try_except. rewrite single_prelude.
    replace (analysis_raises pr entries start_idx
             || Polisher.system_message_raises pr) with true; [done|].
    symmetry. apply orb_true_iff.
    destruct Hraise as [H | H]; [by right | left; apply H; lia].
  - assert (Hbig : 1 < end_idx - start_idx) by (simpl in Hlen; lia).
    destruct (Nat.ltb_spec 1 (end_idx - start_idx)) as [_|]; [|lia].
    unfold try_except at 1. rewrite batch_prelude.
    replace (batch_prepared pr entries start_idx end_idx) with false; cycle 1.
    { symmetry. unfold batch_prepared.
      destruct Hraise as [H | H]; [by rewrite H, andb_false_r|].
      destruct (end_idx - start_idx) as [|k] eqn:Ek; [lia|].
      cbn [seq forallb]. by rewrite H by lia. }
    set (mid := (start_idx + end_idx) / 2).
    assert (Hmid : start_idx < mid < end_idx).
    { unfold mid. split.
      - apply Nat.div_le_lower_bound; lia.
      - apply Nat.Div0.div_lt_upper_bound; lia. }
    clearbody mid.
    unfold bind.
    rewrite (IH start_idx mid 0 w) by lia.
    rewrite (IH mid end_idx 0 w) by lia.
    cbn [Polisher.append_results]. unfold ret.
    rewrite Hbatch. rewrite (slice_split entries start_idx mid end_idx) by lia.
    reflexivity.
Qed.

(** X20.  Nothing is sent for records that cannot be prepared: when
    the analysis raises for every record of the slice (as it does for a
    record, or a neighbour of a record, one of whose time fields cannot
    be read), or when the system message cannot be built,
    [polish_subtitle_batch] returns the records of the slice themselves,
    unchanged and in order, without a single request. *)
Theorem polish_unprepared_keeps_entries (corner_quotes : bool)
    (translate : nat -> Polisher.translate_outcome) (entries : list SRTEntry)
    (start_idx end_idx retry_count : nat) (w : world) :
  start_idx < end_idx <= length entries ->
  (Polisher.system_message_raises pr = true
   \/ forall i, start_idx <= i < end_idx -> analysis_raises pr entries i = true) ->
  Polisher.polish_subtitle_batch tb json_loads_list pr
    (Polisher.polish_fuel start_idx end_idx) corner_quotes translate entries
    start_idx end_idx retry_count w
  = (Returned (Some (take (end_idx - start_idx) (drop start_idx entries))), w).
Proof.
  intros Hrange Hraise.
  apply (polish_unprepared corner_quotes translate entries start_idx end_idx
           Hraise); try lia.
  unfold Polisher.polish_fuel. lia.
Qed.

End Answers.

Lemma polish_batch_uses_clean_answer_witness :
  let entries := [Notions.sample_entry 1 "hello"; Notions.sample_entry 2 "world"] in
  let translate := fun _ : nat =>
    Polisher.TReturn (Some (Examples.json_array [Py.lit "HELLO"; Py.lit " "])) in
  Polisher.polish_subtitle_batch Py.py_tables Examples.json_loads_list
    Examples.preparation
    (Polisher.polish_fuel 0 2) false translate entries 0 2 0 Eff.world0
  = (Eff.Returned (Some [Notions.sample_entry 1 "HELLO";
                         Notions.sample_entry 2 "world"]), Eff.World 1 []).
Proof.
  intros entries translate.
  assert (H2 : (2 <= 2 - 0)%nat) by lia.
  assert (H3 : (2 <= length entries)%nat) by (simpl; lia).
  assert (H5 : Examples.json_loads_list
                 (Examples.json_array [Py.lit "HELLO"; Py.lit " "])
               = Some [Py.lit "HELLO"; Py.lit " "])
    by (vm_compute; reflexivity).
  assert (H6 : existsb (Polisher._bad Py.py_tables)
                 (map Some (map (Py.strip Py.py_tables)
                                [Py.lit "HELLO"; Py.lit " "])) = false)
    by (vm_compute; reflexivity).
  assert (H4 : Notions.batch_prepared Examples.preparation entries 0 2 = true)
    by (vm_compute; reflexivity).
  rewrite (polish_batch_uses_clean_answer Py.py_tables Examples.json_loads_list
             Examples.preparation
             false translate entries 0 2 0 Eff.world0
             (Examples.json_array [Py.lit "HELLO"; Py.lit " "])
             [Py.lit "HELLO"; Py.lit " "] H2 H3 H4 eq_refl H5 eq_refl H6).
  vm_compute. reflexivity.
Defined.

Lemma polish_unprepared_keeps_entries_witness :
  let entries :=
    [Srt.Entry 1 (Py.lit "0:0:1") (Py.lit "00:00:02,000") (Py.lit "hello");
     Notions.sample_entry 2 "world"] in
  let translate := fun _ : nat =>
    Polisher.TReturn (Some (Examples.json_array [Py.lit "HELLO"; Py.lit "WORLD"])) in
  Polisher.polish_subtitle_batch Py.py_tables Examples.json_loads_list
    Examples.preparation (Polisher.polish_fuel 0 2) false translate entries
    0 2 0 Eff.world0
  = (Eff.Returned (Some entries), Eff.world0).
Proof.
  intros entries translate.
  apply (polish_unprepared_keeps_entries Py.py_tables Examples.json_loads_list
           Examples.preparation false translate entries 0%nat 2%nat 0%nat
           Eff.world0).
  - simpl. lia.
  - right. intros i Hi.
    destruct i as [|[|i]]; [vm_compute; reflexivity | vm_compute; reflexivity | lia].
Defined.

Lemma clean_extra_newlines_single_line_witness :
  Corrector._clean_extra_newlines Py.py_tables (Py.lit " a b ") = Py.lit "a b".
Proof.
  rewrite (proj2 (clean_extra_newlines_single_line Py.py_tables (Py.lit " a b "))).
  - reflexivity.
  - vm_compute. intros H.
    repeat (apply elem_of_cons in H as [H | H]; [discriminate H|]).
    by apply elem_of_nil in H.
Defined.

Lemma break_long_line_no_empty_line_witness :
  Corrector._break_long_line Py.py_tables (Py.lit "abc") 35 = [Py.lit "abc"]
  /\ Forall (fun l => l <> [])
            (Corrector._break_long_line Py.py_tables (Py.lit "abc") 35).
Proof.
  destruct (break_long_line_no_empty_line Py.py_tables (Py.lit "abc") 35)
    as (_ & H1 & H2).
  split.
  - apply H1. vm_compute. lia.
  - apply H2. vm_compute. discriminate.
Defined.

Lemma convert_quotes_in_place_witness :
  Polisher.convert_quotes_to_corner Py.py_tables [8220; 97; 8221] !! 1%nat
  = Some 97.
Proof.
  apply (proj2 (proj2 (convert_quotes_in_place Py.py_tables [8220; 97; 8221]))).
  - reflexivity.
  - discriminate.
  - discriminate.
  - discriminate.
Defined.
